(** * A connection pool over pluggable low-level database drivers

    Shallow embedding of [Pool.ts] (with the part of [LLDB.ts] it calls).

    JavaScript runs the pool on one thread: code between two suspension
    points ([await]) is atomic.  The embedding therefore has three layers:

    - [World]: the objects the pool code reads and writes (the pool, the
      [_ConnInfo] records, the hidden [symConnInfo] property of driver
      connections, the promises handed out by the semaphore) and the
      synchronous methods of [DBPool] and [Semaphore] as functions on it;
    - [Sys]: the asynchronous methods ([exec], [query], [begin] and
      [__popConnection] below them) cut at their [await]s into atomic
      segments, one per [Event], so that every interleaving is a list of
      events;
    - the two lifetime adapters ([DBPoolRowsWrapper], [DBPoolTxWrapper]),
      parametrised, as their constructors are, by the objects they wrap and
      by the callback that hands the connection back.

    Numbers: the counters of the pool are JavaScript numbers holding
    integers; they are modelled in [Z].  The identifier counter [curConnID]
    only ever grows by one from zero and is modelled in [N] (a double is
    exact on that range below 2^53); an identifier, the decimal string of
    the counter, is represented by the number it prints. *)

From stdpp Require Import gmap strings list fin_maps.
From Stdlib Require Import ZArith.

Set Default Proof Using "Type".

(** ** Values shared by all layers *)

Abbreviation ConnID := N.   (* decimal string of [curConnID] *)
Abbreviation Conn := N.   (* identity of an [ILLDBConnection] object *)
Abbreviation Ref := N.   (* identity of a [_ConnInfo] object *)
Abbreviation PoolID := N.   (* identity of an [IDB] object *)
Abbreviation PromiseId := N.   (* identity of a promise made by [Semaphore.wait] *)
Abbreviation TaskId := N.   (* identity of one call of exec / query / begin *)

(** A thrown value: an [Error] made by the pool or by [LLDB.ts] (with its
    message), the error object of a context, or whatever a driver throws. *)
Inductive Error :=
  | JsError (msg : string)
  | CtxError (n : N)
  | DriverError (n : N).

#[global] Instance Error_eq_dec : EqDecision Error.
Proof. solve_decision. Defined.

(** Outcome of a synchronous call, or of a settled promise. *)
Inductive Res (A : Type) :=
  | Ret (a : A)
  | Throw (e : Error).
Arguments Ret {A} a.
Arguments Throw {A} e.

Definition dq : string := String (Ascii.ascii_of_nat 34) EmptyString.

Definition msg_closed : string := "database pool was closed".
Definition msg_expired : string := "cannot use expired transaction object".
Definition msg_cannot_open : string := "DB pool cannot open additional connection".
Definition msg_already_out : string := "popped connection which is already checked out".
Definition msg_not_member : string :=
  "cannot return DB connection which is not a member of the pool".
Definition msg_not_out : string := "cannot return DB connection which is not checked out".
Definition msg_unknown_driver (name : string) : string :=
  "unknown SQL driver: " +:+ dq +:+ name +:+ dq.

(** Modelled from the spec: the [IContext] of the package hlandau.Context,
    which the pool imports and which is not among the sources.  The pool
    only reads its [error], "a cancellation signal readable as has an
    error occurred": [None] is [null], [Some e] the error it carries. *)
Definition IContext : Type := option Error.

(** Calls that reach a driver, in the order they are made. *)
Inductive DriverCall :=
  | DConnect (name : string) (args : N)
  | DClose (c : Conn)
  | DExec (c : Conn)
  | DQuery (c : Conn)
  | DBegin (c : Conn).

(** ** Data model *)

(** [_ConnInfo] *)
Record ConnInfo := mkConnInfo {
  info_id : ConnID;
  info_conn : Conn;
  info_pool : PoolID;
  checkedOut : bool;
  removed : bool
}.

Definition set_checkedOut (b : bool) (i : ConnInfo) : ConnInfo :=
  mkConnInfo (info_id i) (info_conn i) (info_pool i) b (removed i).
Definition set_removed (b : bool) (i : ConnInfo) : ConnInfo :=
  mkConnInfo (info_id i) (info_conn i) (info_pool i) (checkedOut i) b.

(** [IPoolOptions]; an absent optional field is [None]. *)
Record IPoolOptions := mkOptions {
  driverName : string;
  driverArgs : N;
  opt_idleConnections : option Z;
  opt_maxConnections : option Z
}.

(** [Semaphore]: the waiters are the [resolve] functions of the promises
    made by [wait], represented by the promise they resolve. *)
Record Semaphore := mkSemaphore {
  waiters : list PromiseId;
  closed : bool
}.

(** [DBPool]; the two maps hold references to [_ConnInfo] objects. *)
Record DBPool := mkDBPool {
  this : PoolID;
  options : IPoolOptions;
  allConnections : gmap ConnID Ref;
  numConnections : Z;
  idleConnections : gmap ConnID Ref;
  numIdleConnections : Z;
  connectionAvailableSema : Semaphore;
  deadError : option Error
}.

(** Everything the pool code can reach. *)
Record World := mkWorld {
  registry : gset string;            (* names in [_registry] of LLDB.ts *)
  curConnID : N;                     (* [let curConnID = 0] *)
  nextRef : Ref;                     (* allocation of [_ConnInfo] objects *)
  infos : gmap Ref ConnInfo;         (* the [_ConnInfo] objects *)
  symConnInfo : gmap Conn Ref;       (* [conn[symConnInfo]] *)
  nextPromise : PromiseId;           (* allocation of promises *)
  settled : gset PromiseId;          (* promises of [wait] already resolved *)
  pool : DBPool;
  driverLog : list DriverCall
}.

(** *** Field updates *)

Definition with_pool (f : DBPool → DBPool) (w : World) : World :=
  mkWorld (registry w) (curConnID w) (nextRef w) (infos w) (symConnInfo w)
          (nextPromise w) (settled w) (f (pool w)) (driverLog w).

Definition with_infos (f : gmap Ref ConnInfo → gmap Ref ConnInfo) (w : World) : World :=
  mkWorld (registry w) (curConnID w) (nextRef w) (f (infos w)) (symConnInfo w)
          (nextPromise w) (settled w) (pool w) (driverLog w).

Definition with_sym (f : gmap Conn Ref → gmap Conn Ref) (w : World) : World :=
  mkWorld (registry w) (curConnID w) (nextRef w) (infos w) (f (symConnInfo w))
          (nextPromise w) (settled w) (pool w) (driverLog w).

Definition with_settled (f : gset PromiseId → gset PromiseId) (w : World) : World :=
  mkWorld (registry w) (curConnID w) (nextRef w) (infos w) (symConnInfo w)
          (nextPromise w) (f (settled w)) (pool w) (driverLog w).

Definition log_call (d : DriverCall) (w : World) : World :=
  mkWorld (registry w) (curConnID w) (nextRef w) (infos w) (symConnInfo w)
          (nextPromise w) (settled w) (pool w) (driverLog w ++ [d]).

Definition set_idle (f : gmap ConnID Ref → gmap ConnID Ref) (k : Z → Z) (p : DBPool) : DBPool :=
  mkDBPool (this p) (options p) (allConnections p) (numConnections p)
           (f (idleConnections p)) (k (numIdleConnections p))
           (connectionAvailableSema p) (deadError p).

Definition set_all (f : gmap ConnID Ref → gmap ConnID Ref) (k : Z → Z) (p : DBPool) : DBPool :=
  mkDBPool (this p) (options p) (f (allConnections p)) (k (numConnections p))
           (idleConnections p) (numIdleConnections p)
           (connectionAvailableSema p) (deadError p).

Definition set_sema (s : Semaphore) (p : DBPool) : DBPool :=
  mkDBPool (this p) (options p) (allConnections p) (numConnections p)
           (idleConnections p) (numIdleConnections p) s (deadError p).

Definition set_deadError (e : option Error) (p : DBPool) : DBPool :=
  mkDBPool (this p) (options p) (allConnections p) (numConnections p)
           (idleConnections p) (numIdleConnections p)
           (connectionAvailableSema p) e.

(** *** Enumeration order of [for (const id in obj)]

    The keys of the two maps are canonical decimal strings of positive
    integers; such keys (below 2^32 - 1) are enumerated in ascending
    numeric order before any other key: the first key visited is the
    least one. *)

Fixpoint least {A} (l : list (N * A)) : option (N * A) :=
  match l with
  | [] => None
  | kv :: l' =>
      match least l' with
      | None => Some kv
      | Some kv' => if (kv.1 <? kv'.1)%N then Some kv else Some kv'
      end
  end.

Definition first_key {A} (m : gmap N A) : option (N * A) := least (map_to_list m).

(** ** The semaphore *)

(** [signal()]: every waiter is called, which resolves its promise, and
    the list is emptied. *)
Definition signal (w : World) : World :=
  let s := connectionAvailableSema (pool w) in
  with_pool (set_sema (mkSemaphore [] (closed s)))
    (with_settled (λ st, st ∪ list_to_set (waiters s)) w).

(** [close()] of the semaphore. *)
Definition sema_close (w : World) : World :=
  signal (with_pool (λ p, set_sema (mkSemaphore (waiters (connectionAvailableSema p)) true) p) w).

(** [wait()]: the promise the caller will await.  On a closed semaphore the
    [async] function returns at once and its promise is already resolved;
    otherwise the promise stays pending and its [resolve] joins the
    waiters. *)
Definition wait (w : World) : World * PromiseId :=
  let p := nextPromise w in
  let s := connectionAvailableSema (pool w) in
  let w1 := mkWorld (registry w) (curConnID w) (nextRef w) (infos w) (symConnInfo w)
                    (p + 1)%N (settled w) (pool w) (driverLog w) in
  if closed s
  then (with_settled (λ st, st ∪ {[p]}) w1, p)
  else (with_pool (set_sema (mkSemaphore (waiters s ++ [p]) (closed s))) w1, p).

(** ** [DBPool]: construction and synchronous methods *)

(** The constructor: [idleConnections] defaults to 1 and a smaller
    [maxConnections] is raised to it. *)
Definition normalize (o : IPoolOptions) : IPoolOptions :=
  let idle := match opt_idleConnections o with None => 1%Z | Some i => i end in
  let max := match opt_maxConnections o with
             | Some m => if (m <? idle)%Z then Some idle else Some m
             | None => None
             end in
  mkOptions (driverName o) (driverArgs o) (Some idle) max.

Definition new_DBPool (self : PoolID) (o : IPoolOptions) : DBPool :=
  mkDBPool self (normalize o) ∅ 0%Z ∅ 0%Z (mkSemaphore [] false) None.

(** [createPool(options)] in a fresh module state where [drivers] have
    been registered. *)
Definition createPool (drivers : gset string) (o : IPoolOptions) : World :=
  mkWorld drivers 0%N 0%N ∅ ∅ 0%N ∅ (new_DBPool 0%N o) [].

(** The idle target read by [__trimIdle]: [idleConnections || 0]. *)
Definition idle_target (p : DBPool) : Z :=
  match opt_idleConnections (options p) with
  | Some i => i
  | None => 0%Z
  end.

(** [close()] of the pool. *)
Definition pool_close (w : World) : World :=
  match deadError (pool w) with
  | Some _ => w
  | None => sema_close (with_pool (set_deadError (Some (JsError msg_closed))) w)
  end.

(** [__checkDead()] *)
Definition checkDead (w : World) : Res unit :=
  match deadError (pool w) with
  | Some e => Throw e
  | None => Ret tt
  end.

(** [__addConnection(conn)] *)
Definition addConnection (c : Conn) (w : World) : World :=
  let n := (curConnID w + 1)%N in
  let r := nextRef w in
  let info := mkConnInfo n c (this (pool w)) false false in
  mkWorld (registry w) n (r + 1)%N (<[r := info]> (infos w)) (<[c := r]> (symConnInfo w))
          (nextPromise w) (settled w)
          (set_idle (insert n r) Z.succ (set_all (insert n r) Z.succ (pool w)))
          (driverLog w).

(** A reference always designates an object; the fallback below is for
    references that were never allocated and is unreachable. *)
Definition deref (w : World) (r : Ref) : ConnInfo :=
  default (mkConnInfo 0%N 0%N 0%N false false) (infos w !! r).

(** [__removeConnection(info)] *)
Definition removeConnection (r : Ref) (w : World) : World :=
  let info := deref w r in
  let w1 := with_infos (<[r := set_removed true info]>) w in
  let dec := if idleConnections (pool w1) !! info_id info is Some _ then Z.pred else (λ z, z) in
  let w2 := with_pool (set_idle (λ m, m) dec) w1 in
  let w3 := with_pool (set_all (λ m, m) Z.pred) w2 in
  let w4 := with_pool (set_idle (delete (info_id info)) (λ z, z)) w3 in
  let w5 := with_pool (set_all (delete (info_id info)) (λ z, z)) w4 in
  with_sym (delete (info_conn info)) w5.

(** [__tryPopConnection()]: the state changes made before a [throw] stay. *)
Definition tryPopConnection (w : World) : World * Res (option Conn) :=
  match first_key (idleConnections (pool w)) with
  | None => (w, Ret None)
  | Some (i, r) =>
      let w1 := with_pool (set_idle (delete i) Z.pred) w in
      let info := deref w1 r in
      if checkedOut info
      then (w1, Throw (JsError msg_already_out))
      else (with_infos (<[r := set_checkedOut true info]>) w1, Ret (Some (info_conn info)))
  end.

(** One turn of the [while] loop of [__trimIdle], entered with the
    condition true.  Over an empty idle map the [for] body does not run
    and the turn changes nothing. *)
Definition trim_turn (w : World) : World :=
  match first_key (idleConnections (pool w)) with
  | None => w
  | Some (_, r) =>
      let info := deref w r in
      log_call (DClose (info_conn info)) (removeConnection r w)
  end.

(** [__trimIdle()] with a bound on the number of turns; [None] when the
    bound is reached with the condition still true. *)
Fixpoint trimIdle_loop (turns : nat) (w : World) : option World :=
  if decide (numIdleConnections (pool w) > idle_target (pool w))%Z
  then match turns with
       | O => None
       | S k => trimIdle_loop k (trim_turn w)
       end
  else Some w.

(** [__trimIdle()].  A turn lowers [numIdleConnections] by one or leaves
    the loop spinning, so the distance to the target bounds the turns of
    every run that ends ([trimIdle_bound_enough]): [None] is a loop that
    never ends. *)
Definition trimIdle (w : World) : option World :=
  trimIdle_loop (Z.to_nat (numIdleConnections (pool w) - idle_target (pool w))) w.

(** [__returnConnection(conn)]; [None] when [__trimIdle] does not return. *)
Definition returnConnection (c : Conn) (w : World) : option (World * Res unit) :=
  match symConnInfo w !! c with
  | None => Some (w, Throw (JsError msg_not_member))
  | Some r =>
      let info := deref w r in
      if negb (info_pool info =? this (pool w))%N
      then Some (w, Throw (JsError msg_not_member))
      else if negb (checkedOut info)
      then Some (w, Throw (JsError msg_not_out))
      else
        let w1 := with_infos (<[r := set_checkedOut false info]>) w in
        let w2 := with_pool (set_idle (insert (info_id info) r) Z.succ) w1 in
        match trimIdle (signal w2) with
        | Some w3 => Some (w3, Ret tt)
        | None => None
        end
  end.

(** [connect(ctx, driverName, driverArgs)] of LLDB.ts, up to the call of
    the driver: an unregistered name throws.  This is exact for every name
    that is not a member of [Object.prototype]; for one that is
    ([constructor], [toString], ...) the lookup in the registry finds the
    inherited member, and the call of its [connect] throws a [TypeError]
    where this definition throws the unknown-driver error. *)
Definition connect (w : World) : World * Res unit :=
  let o := options (pool w) in
  if decide (driverName o ∈ registry w)
  then (log_call (DConnect (driverName o) (driverArgs o)) w, Ret tt)
  else (w, Throw (JsError (msg_unknown_driver (driverName o)))).

(** [__openConnection(ctx)], up to its [await]: [Ret] means that the
    driver has been asked for a connection and its promise is pending. *)
Definition openConnection (ctx : IContext) (w : World) : World * Res unit :=
  match ctx with
  | Some e => (w, Throw e)
  | None => connect w
  end.

(** ** The asynchronous methods, cut at their suspension points *)

Inductive Op := OpExec | OpQuery | OpBegin.

(** What a caller of the pool receives: a driver result, or a lifetime
    adapter bound to the connection it keeps checked out. *)
Inductive Value :=
  | VResult
  | VRows (c : Conn)
  | VTx (c : Conn).

(** Where a call of exec / query / begin is suspended. *)
Inductive TaskState :=
  | AwaitGate (p : PromiseId)   (* in the loop of [__popConnection], on [wait()] *)
  | AwaitConnect                (* in [__openConnection], on the driver's [connect] *)
  | AwaitOpened                 (* in [__popConnection], on [__openAdditionalConnection] *)
  | AwaitDriver (c : Conn)      (* holding [c], on [conn.exec] / [conn.query] / [conn.begin] *)
  | Settled (r : Res Value).    (* the promise of the call is settled *)

(** One call: its method, its context and its state. *)
Record Task := mkTask {
  task_op : Op;
  ctx_error : IContext;
  task_state : TaskState
}.

Definition driver_call (op : Op) (c : Conn) : DriverCall :=
  match op with
  | OpExec => DExec c
  | OpQuery => DQuery c
  | OpBegin => DBegin c
  end.

(** [__popConnection] has returned [c]; after the [await] of its caller
    the driver method is called on [c].  Nothing of the pool is touched in
    between, so the two are one segment. *)
Definition got (op : Op) (c : Conn) (w : World) : World * TaskState :=
  (log_call (driver_call op c) w, AwaitDriver c).

(** The condition of the [while] loop of [__popConnection]. *)
Definition loop_test (ctx : IContext) (p : DBPool) : bool :=
  match opt_maxConnections (options p) with
  | Some m => (m <=? numConnections p)%Z && (if ctx is None then true else false)
  | None => false
  end.

(** [__popConnection] from the loop test on, entered when
    [__tryPopConnection] has returned [null]: wait at the gate, or leave
    the loop, check the pool and the context, and ask for a connection. *)
Definition admission (ctx : IContext) (w : World) : World * TaskState :=
  if loop_test ctx (pool w)
  then let '(w1, p) := wait w in (w1, AwaitGate p)
  else match checkDead w with
       | Throw e => (w, Settled (Throw e))
       | Ret _ =>
           match ctx with
           | Some e => (w, Settled (Throw e))
           | None =>
               match openConnection ctx w with
               | (w1, Throw e) => (w1, Settled (Throw e))
               | (w1, Ret _) => (w1, AwaitConnect)
               end
           end
       end.

(** [conn = this.__tryPopConnection(); if (conn) return conn;] followed
    by [rest]. *)
Definition pop_or (op : Op) (rest : World → World * TaskState) (w : World)
  : World * TaskState :=
  match tryPopConnection w with
  | (w1, Throw e) => (w1, Settled (Throw e))
  | (w1, Ret (Some c)) => got op c w1
  | (w1, Ret None) => rest w1
  end.

(** The three segments of [__popConnection]: from its entry, from the
    [await] of [wait()], and from the [await] of
    [__openAdditionalConnection]. *)
Definition popConnection_entry (op : Op) (ctx : IContext) : World → World * TaskState :=
  pop_or op (admission ctx).

Definition popConnection_woken (op : Op) (ctx : IContext) : World → World * TaskState :=
  pop_or op (admission ctx).

Definition popConnection_opened (op : Op) : World → World * TaskState :=
  pop_or op (λ w, (w, Settled (Throw (JsError msg_cannot_open)))).

(** Entry of [exec], [query] and [begin]. *)
Definition call (op : Op) (ctx : IContext) (w : World) : World * TaskState :=
  match checkDead w with
  | Throw e => (w, Settled (Throw e))
  | Ret _ => popConnection_entry op ctx w
  end.

(** The driver method has settled with [out].  [exec] returns the
    connection in its [finally]; [query] and [begin] do so only on
    failure and otherwise wrap.  An exception of the [finally] block
    replaces the outcome.  The boolean tells whether an adapter was made. *)
Definition finish (op : Op) (c : Conn) (out : Res unit) (w : World)
  : option (World * Res Value * bool) :=
  match op, out with
  | OpQuery, Ret _ => Some (w, Ret (VRows c), true)
  | OpBegin, Ret _ => Some (w, Ret (VTx c), true)
  | _, _ =>
      '(w1, r) ← returnConnection c w;
      match r, out with
      | Throw e, _ => Some (w1, Throw e, false)
      | Ret _, Throw e => Some (w1, Throw e, false)
      | Ret _, Ret _ => Some (w1, Ret VResult, false)
      end
  end.

(** The pool with its callers: the calls in flight and, per connection,
    the adapters whose return callback has not run yet. *)
Record Sys := mkSys {
  world : World;
  tasks : gmap TaskId Task;
  adapters : list Conn
}.

Inductive Event :=
  | EvCall (t : TaskId) (op : Op) (ctx : IContext)      (* a new call, with its context *)
  | EvCancel (t : TaskId) (e : Error)                   (* the context of [t] is cancelled *)
  | EvResume (t : TaskId)                               (* the continuation of [t] runs *)
  | EvConnected (t : TaskId) (c : Conn)                 (* the driver fulfils [connect] with [c] *)
  | EvConnectFailed (t : TaskId) (e : Error)            (* the driver rejects [connect] *)
  | EvDriverOk (t : TaskId)                             (* the driver method fulfils *)
  | EvDriverFailed (t : TaskId) (e : Error)             (* the driver method rejects *)
  | EvAdapterReturn (c : Conn)                          (* an adapter bound to [c] fires its latch *)
  | EvClose.                                            (* [pool.close()] *)

Definition put_task (t : TaskId) (k : Task) (w : World) (s : Sys) : Sys :=
  mkSys w (<[t := k]> (tasks s)) (adapters s).

Fixpoint remove_one (c : Conn) (l : list Conn) : list Conn :=
  match l with
  | [] => []
  | x :: l' => if (x =? c)%N then l' else x :: remove_one c l'
  end.

(** One atomic segment.  [None]: the event cannot happen in this state,
    or the segment does not terminate. *)
Definition step (e : Event) (s : Sys) : option Sys :=
  let w := world s in
  match e with
  | EvCall t op ctx =>
      match tasks s !! t with
      | Some _ => None
      | None => let '(w1, st) := call op ctx w in Some (put_task t (mkTask op ctx st) w1 s)
      end
  | EvCancel t e =>
      k ← tasks s !! t;
      Some (put_task t (mkTask (task_op k) (Some e) (task_state k)) w s)
  | EvResume t =>
      k ← tasks s !! t;
      match task_state k with
      | AwaitGate p =>
          if decide (p ∈ settled w)
          then let '(w1, st) := popConnection_woken (task_op k) (ctx_error k) w in
               Some (put_task t (mkTask (task_op k) (ctx_error k) st) w1 s)
          else None
      | AwaitOpened =>
          let '(w1, st) := popConnection_opened (task_op k) w in
          Some (put_task t (mkTask (task_op k) (ctx_error k) st) w1 s)
      | _ => None
      end
  | EvConnected t c =>
      k ← tasks s !! t;
      match task_state k with
      | AwaitConnect =>
          Some (put_task t (mkTask (task_op k) (ctx_error k) AwaitOpened) (addConnection c w) s)
      | _ => None
      end
  | EvConnectFailed t e =>
      k ← tasks s !! t;
      match task_state k with
      | AwaitConnect =>
          Some (put_task t (mkTask (task_op k) (ctx_error k) (Settled (Throw e))) w s)
      | _ => None
      end
  | EvDriverOk t =>
      k ← tasks s !! t;
      match task_state k with
      | AwaitDriver c =>
          '(w1, r, made) ← finish (task_op k) c (Ret tt) w;
          Some (mkSys w1 (<[t := mkTask (task_op k) (ctx_error k) (Settled r)]> (tasks s))
                      (if (made : bool) then c :: adapters s else adapters s))
      | _ => None
      end
  | EvDriverFailed t e =>
      k ← tasks s !! t;
      match task_state k with
      | AwaitDriver c =>
          '(w1, r, _) ← finish (task_op k) c (Throw e) w;
          Some (put_task t (mkTask (task_op k) (ctx_error k) (Settled r)) w1 s)
      | _ => None
      end
  | EvAdapterReturn c =>
      if decide (c ∈ adapters s)
      then '(w1, _) ← returnConnection c w;
           Some (mkSys w1 (tasks s) (remove_one c (adapters s)))
      else None
  | EvClose => Some (mkSys (pool_close w) (tasks s) (adapters s))
  end.

(** A schedule, oldest event first. *)
Fixpoint run (tr : list Event) (s : Sys) : option Sys :=
  match tr with
  | [] => Some s
  | e :: tr' => s1 ← step e s; run tr' s1
  end.

Definition boot (drivers : gset string) (o : IPoolOptions) : Sys :=
  mkSys (createPool drivers o) ∅ [].

Definition state_of (t : TaskId) (s : Sys) : option TaskState :=
  task_state <$> tasks s !! t.

(** ** The lifetime adapters *)

(** *** [ILLDBRows], the interface of a driver's row stream

    An implementation is a state with the [done] getter and the two
    methods.  [next()] returns a promise: [rows_next_call] is what the
    method does before it returns that promise, [rows_next_settle] what
    the driver does when it settles it ([Ret None] is the iterator result
    with [done: true]).  [close()] is awaited by its only caller and is
    given from call to settlement. *)

Definition Row := list string.

Record ILLDBRows := mkILLDBRows {
  Rows : Type;
  rows_done : Rows → bool;
  rows_next_call : Rows → Rows;
  rows_next_settle : Rows → Rows * Res (option Row);
  rows_close : Rows → Rows * Res unit
}.

(** A driver that reads rows off the wire as they are asked for: [next()]
    is an [async] method that first awaits the wire and then either hands
    out a row or, having seen the end of the result, sets [done]. *)
Record Wire := mkWire { unread : list Row; wire_done : bool }.

Definition wire_rows : ILLDBRows :=
  mkILLDBRows Wire wire_done
    (λ u, u)
    (λ u, match unread u with
          | [] => (mkWire [] true, Ret None)
          | r :: rest => (mkWire rest (wire_done u), Ret (Some r))
          end)
    (λ u, (mkWire [] true, Ret tt)).

(** A driver that holds the whole result: [next()] finds out before it
    returns its promise whether a row is left, and sets [done] there. *)
Definition held_rows : ILLDBRows :=
  mkILLDBRows Wire wire_done
    (λ u, match unread u with
          | [] => mkWire [] true
          | _ => u
          end)
    (λ u, match unread u with
          | [] => (u, Ret None)
          | r :: rest => (mkWire rest (wire_done u), Ret (Some r))
          end)
    (λ u, (mkWire [] true, Ret tt)).

Section Adapters.

(** The state the return callback acts on, and the callback; [None] when
    it does not return. *)
Context {W : Type}.
Variable returnFunc : W → option (W * Res unit).

(** *** [DBPoolRowsWrapper] *)

Record DBPoolRowsWrapper (D : ILLDBRows) := mkRowsWrapper {
  underlying : Rows D;
  rw_done : bool
}.
Arguments mkRowsWrapper {D} _ _.
Arguments underlying {D} _.
Arguments rw_done {D} _.

Definition new_RowsWrapper {D : ILLDBRows} (rows : Rows D) : DBPoolRowsWrapper D :=
  mkRowsWrapper rows false.

(** [__checkStatus()] *)
Definition checkStatus {D} (x : DBPoolRowsWrapper D) (w : W)
  : option (DBPoolRowsWrapper D * W * Res unit) :=
  if rows_done D (underlying x) && negb (rw_done x)
  then '(w1, r) ← returnFunc w; Some (mkRowsWrapper (underlying x) true, w1, r)
  else Some (x, w, Ret tt).

(** [next()], which is not [async]: the underlying [next()] is called,
    the status is checked, and the pending promise is returned. *)
Definition rw_next {D} (x : DBPoolRowsWrapper D) (w : W)
  : option (DBPoolRowsWrapper D * W * Res unit) :=
  checkStatus (mkRowsWrapper (rows_next_call D (underlying x)) (rw_done x)) w.

(** The promise returned by [next()] is the driver's own: when it settles
    no code of the wrapper runs. *)
Definition rw_next_settled {D} (x : DBPoolRowsWrapper D)
  : DBPoolRowsWrapper D * Res (option Row) :=
  let '(u, r) := rows_next_settle D (underlying x) in
  (mkRowsWrapper u (rw_done x), r).

(** [close()] *)
Definition rw_close {D} (x : DBPoolRowsWrapper D) (w : W)
  : option (DBPoolRowsWrapper D * W * Res unit) :=
  let '(u, r) := rows_close D (underlying x) in
  match r with
  | Throw e => Some (mkRowsWrapper u (rw_done x), w, Throw e)
  | Ret _ => checkStatus (mkRowsWrapper u (rw_done x)) w
  end.

(** [for await (const row of rows) ...]: [next()] is called and awaited
    until a result with [done: true] arrives; the loop then ends without
    any further call on the iterator.  [turns] bounds the calls. *)
Fixpoint for_await {D} (turns : nat) (x : DBPoolRowsWrapper D) (w : W) (seen : list Row)
  : option (DBPoolRowsWrapper D * W * Res (list Row)) :=
  match turns with
  | O => None
  | S k =>
      '(x1, w1, r) ← rw_next x w;
      match r with
      | Throw e => Some (x1, w1, Throw e)
      | Ret _ =>
          match rw_next_settled x1 with
          | (x2, Throw e) => Some (x2, w1, Throw e)
          | (x2, Ret None) => Some (x2, w1, Ret (rev seen))
          | (x2, Ret (Some row)) => for_await k x2 w1 (row :: seen)
          end
      end
  end.

(** What a caller does with a wrapped stream. *)
Inductive RowsUse :=
  | UseNext       (* [await rows.next()] *)
  | UseClose.     (* [await rows.close()] *)

Definition rows_use {D} (u : RowsUse) (x : DBPoolRowsWrapper D) (w : W)
  : option (DBPoolRowsWrapper D * W) :=
  match u with
  | UseNext => '(x1, w1, _) ← rw_next x w; Some ((rw_next_settled x1).1, w1)
  | UseClose => '(x1, w1, _) ← rw_close x w; Some (x1, w1)
  end.

Fixpoint rows_uses {D} (us : list RowsUse) (x : DBPoolRowsWrapper D) (w : W)
  : option (DBPoolRowsWrapper D * W) :=
  match us with
  | [] => Some (x, w)
  | u :: us' => '(x1, w1) ← rows_use u x w; rows_uses us' x1 w1
  end.

(** *** [DBPoolTxWrapper]

    The driver's transaction and connection only receive calls; what they
    answer arrives with the event that settles a call. *)

Inductive TxDriverCall :=
  | TCommit
  | TRollback
  | TExec (c : Conn)
  | TQuery (c : Conn).

(** The wrapper, the activations of [commit()] and [rollback()] suspended
    at their [await], and the calls made to the driver so far. *)
Record DBPoolTxWrapper := mkTxWrapper {
  tx_conn : Conn;
  returned : bool;
  commits_pending : nat;
  rollbacks_pending : nat;
  tx_calls : list TxDriverCall
}.

Definition new_TxWrapper (c : Conn) : DBPoolTxWrapper := mkTxWrapper c false 0 0 [].

Inductive TxEvent :=
  | TxCommit                        (* [commit()] is called *)
  | TxCommitSettled (r : Res unit)  (* the driver settles a pending commit *)
  | TxRollback                      (* [rollback()] is called *)
  | TxRollbackSettled (r : Res unit)
  | TxExec                          (* [exec(...)] is called *)
  | TxQuery.                        (* [query(...)] is called *)

(** What the event does to the promise of the call it belongs to. *)
Inductive Reply :=
  | Pending             (* the call is now waiting for the driver *)
  | Now (r : Res unit). (* the call is settled *)

(** [__check()] *)
Definition tx_check (x : DBPoolTxWrapper) : Res unit :=
  if returned x then Throw (JsError msg_expired) else Ret tt.

(** [__returnToPool()] *)
Definition returnToPool (x : DBPoolTxWrapper) (w : W) : option (DBPoolTxWrapper * W * Res unit) :=
  if returned x
  then Some (x, w, Ret tt)
  else '(w1, r) ← returnFunc w;
       Some (mkTxWrapper (tx_conn x) true (commits_pending x) (rollbacks_pending x) (tx_calls x),
             w1, r).

Definition tx_delegate (d : TxDriverCall) (dc dr : nat) (x : DBPoolTxWrapper) : DBPoolTxWrapper :=
  mkTxWrapper (tx_conn x) (returned x) (dc + commits_pending x) (dr + rollbacks_pending x)
              (tx_calls x ++ [d]).

Definition tx_step (e : TxEvent) (x : DBPoolTxWrapper) (w : W)
  : option (DBPoolTxWrapper * W * Reply) :=
  match e with
  | TxCommit =>
      match tx_check x with
      | Throw err => Some (x, w, Now (Throw err))
      | Ret _ => Some (tx_delegate TCommit 1 0 x, w, Pending)
      end
  | TxCommitSettled r =>
      match commits_pending x with
      | O => None
      | S n =>
          let x1 := mkTxWrapper (tx_conn x) (returned x) n (rollbacks_pending x) (tx_calls x) in
          match r with
          | Throw err => Some (x1, w, Now (Throw err))
          | Ret _ => '(x2, w2, r2) ← returnToPool x1 w; Some (x2, w2, Now r2)
          end
      end
  | TxRollback =>
      if returned x
      then Some (x, w, Now (Ret tt))
      else Some (tx_delegate TRollback 0 1 x, w, Pending)
  | TxRollbackSettled r =>
      match rollbacks_pending x with
      | O => None
      | S n =>
          let x1 := mkTxWrapper (tx_conn x) (returned x) (commits_pending x) n (tx_calls x) in
          match r with
          | Throw err => Some (x1, w, Now (Throw err))
          | Ret _ => '(x2, w2, r2) ← returnToPool x1 w; Some (x2, w2, Now r2)
          end
      end
  | TxExec =>
      match tx_check x with
      | Throw err => Some (x, w, Now (Throw err))
      | Ret _ => Some (tx_delegate (TExec (tx_conn x)) 0 0 x, w, Pending)
      end
  | TxQuery =>
      match tx_check x with
      | Throw err => Some (x, w, Now (Throw err))
      | Ret _ => Some (tx_delegate (TQuery (tx_conn x)) 0 0 x, w, Pending)
      end
  end.

Fixpoint tx_run (es : list TxEvent) (x : DBPoolTxWrapper) (w : W)
  : option (DBPoolTxWrapper * W) :=
  match es with
  | [] => Some (x, w)
  | e :: es' => '(x1, w1, _) ← tx_step e x w; tx_run es' x1 w1
  end.

End Adapters.

Arguments mkRowsWrapper {D} _ _.
Arguments underlying {D} _.
Arguments rw_done {D} _.

(** The callback that counts its own calls. *)
Definition tally (n : nat) : option (nat * Res unit) := Some (S n, Ret tt).

(** The callback [query] and [begin] give to their adapter:
    [() => this.__returnConnection(conn)]. *)
Definition give_back (c : Conn) : World → option (World * Res unit) := returnConnection c.

(** ** Invariants *)

(** The four relations between the counters, the two maps and the
    records that the pool keeps between its steps. *)
Record consistent (w : World) : Prop := mkConsistent {
  cons_numConnections :
    numConnections (pool w) = Z.of_nat (size (allConnections (pool w)));
  cons_numIdleConnections :
    numIdleConnections (pool w) = Z.of_nat (size (idleConnections (pool w)));
  cons_subset : idleConnections (pool w) ⊆ allConnections (pool w);
  cons_idle_free : ∀ i r, idleConnections (pool w) !! i = Some r →
    ∃ info, infos w !! r = Some info ∧ checkedOut info = false
}.

(** What makes them inductive: every entry of [allConnections] designates
    an existing record of this pool filed under its own identifier,
    identifiers and references in use are below the next ones, and the
    hidden property of a connection designates a record of that
    connection which, when of this pool, is the one in [allConnections]. *)
Record WF (w : World) : Prop := mkWF {
  wf_consistent : consistent w;
  wf_records : ∀ i r, allConnections (pool w) !! i = Some r →
    ∃ info, infos w !! r = Some info ∧ info_id info = i ∧ info_pool info = this (pool w);
  wf_fresh_id : ∀ i r, allConnections (pool w) !! i = Some r → (i ≤ curConnID w)%N;
  wf_fresh_ref : ∀ r info, infos w !! r = Some info → (r < nextRef w)%N;
  wf_sym : ∀ c r, symConnInfo w !! c = Some r →
    ∃ info, infos w !! r = Some info ∧ info_conn info = c ∧
            (info_pool info = this (pool w) → allConnections (pool w) !! info_id info = Some r)
}.

(** [c] is a connection checked out of this pool. *)
Definition held (c : Conn) (w : World) : Prop :=
  ∃ r info, symConnInfo w !! c = Some r ∧ infos w !! r = Some info ∧
            info_pool info = this (pool w) ∧ checkedOut info = true.

(** [c] is the connection of an idle record of the pool. *)
Definition idle_conn (c : Conn) (w : World) : Prop :=
  ∃ i r info, idleConnections (pool w) !! i = Some r ∧ infos w !! r = Some info ∧
              info_conn info = c.

(** The records [__trimIdle] removes, each with the state in which its
    [close()] is called, in the order of the calls. *)
Fixpoint trim_history (turns : nat) (w : World) : list (ConnInfo * World) :=
  if decide (numIdleConnections (pool w) > idle_target (pool w))%Z
  then match turns with
       | O => []
       | S k =>
           match first_key (idleConnections (pool w)) with
           | None => trim_history k (trim_turn w)
           | Some (_, r) => (deref w r, removeConnection r w) :: trim_history k (trim_turn w)
           end
       end
  else [].

(** The state in which [__returnConnection(c)] calls [__trimIdle], when it
    gets there. *)
Definition before_trim (c : Conn) (w : World) : World :=
  match symConnInfo w !! c with
  | None => w
  | Some r =>
      let info := deref w r in
      signal (with_pool (set_idle (insert (info_id info) r) Z.succ)
                (with_infos (<[r := set_checkedOut false info]>) w))
  end.

(** A record [__trimIdle] removed: it was idle when trimming began, and in
    the state in which its [close()] is called it is in neither map. *)
Definition trimmed_ok (w : World) (h : ConnInfo * World) : Prop :=
  is_Some (idleConnections (pool w) !! info_id h.1) ∧
  allConnections (pool h.2) !! info_id h.1 = None ∧
  idleConnections (pool h.2) !! info_id h.1 = None.

(** Two states with the same connections and the same counters. *)
Definition same_connections (w w' : World) : Prop :=
  curConnID w' = curConnID w ∧ nextRef w' = nextRef w ∧ infos w' = infos w ∧
  symConnInfo w' = symConnInfo w ∧ this (pool w') = this (pool w) ∧
  options (pool w') = options (pool w) ∧
  allConnections (pool w') = allConnections (pool w) ∧
  numConnections (pool w') = numConnections (pool w) ∧
  idleConnections (pool w') = idleConnections (pool w) ∧
  numIdleConnections (pool w') = numIdleConnections (pool w).

(** [held], decided. *)
Definition held_b (c : Conn) (w : World) : bool :=
  match symConnInfo w !! c with
  | Some r =>
      match infos w !! r with
      | Some info => (info_pool info =? this (pool w))%N && checkedOut info
      | None => false
      end
  | None => false
  end.

(** A call that goes round the loop of [__popConnection] without end: its
    context is not cancelled, the promise it awaits is resolved, no record
    is idle, the pool is at its ceiling, and the gate is closed. *)
Definition spinning (t : TaskId) (s : Sys) : Prop :=
  ∃ op p, tasks s !! t = Some (mkTask op None (AwaitGate p)) ∧
          p ∈ settled (world s) ∧
          idleConnections (pool (world s)) = ∅ ∧
          closed (connectionAvailableSema (pool (world s))) = true ∧
          loop_test None (pool (world s)) = true ∧
          deadError (pool (world s)) = Some (JsError msg_closed).

Definition spinning_check (t : TaskId) (s : Sys) : bool :=
  match tasks s !! t with
  | Some (mkTask _ None (AwaitGate p)) =>
      bool_decide (p ∈ settled (world s)) &&
      bool_decide (idleConnections (pool (world s)) = ∅) &&
      closed (connectionAvailableSema (pool (world s))) &&
      loop_test None (pool (world s)) &&
      bool_decide (deadError (pool (world s)) = Some (JsError msg_closed))
  | _ => false
  end.

(** A driver whose [close()] succeeds and leaves the stream [done]. *)
Definition closes_done (D : ILLDBRows) : Prop :=
  ∀ u, (rows_close D u).2 = Ret tt ∧ rows_done D (rows_close D u).1 = true.

(** The events with which the driver reports a commit or a rollback done. *)
Definition completes (e : TxEvent) : bool :=
  match e with
  | TxCommitSettled (Ret _) | TxRollbackSettled (Ret _) => true
  | _ => false
  end.

(** *** Pools and schedules used as examples *)

Definition pg : IPoolOptions := mkOptions "Pg" 0 None None.
Definition pg_max1 : IPoolOptions := mkOptions "Pg" 0 None (Some 1%Z).

(** Two connections opened, the older one checked out. *)
Definition one_out_one_idle : World :=
  (tryPopConnection (addConnection 11 (addConnection 10 (createPool {["Pg"]} pg)))).1.

(** A query holds the only connection of a pool with ceiling 1, an exec
    waits at the gate, and the pool is closed. *)
Definition blocked_then_closed : list Event :=
  [EvCall 1 OpQuery None; EvConnected 1 10; EvResume 1; EvDriverOk 1;
   EvCall 2 OpExec None; EvClose].

(** A query on a fresh pool, up to the wrapped stream. *)
Definition query_done : list Event :=
  [EvCall 1 OpQuery None; EvConnected 1 10; EvResume 1; EvDriverOk 1].

(** The record behind [c], if any, is not checked out. *)
Definition released (c : Conn) (w : World) : Prop :=
  ∀ r info, symConnInfo w !! c = Some r → infos w !! r = Some info → checkedOut info = false.

(** A turn of [__trimIdle] that does not lower the idle count: the idle
    map is empty, or the record picked is filed under a key that is not
    its own. *)
Definition stuck (w : World) : Prop :=
  (numIdleConnections (pool w) > idle_target (pool w))%Z ∧
  match first_key (idleConnections (pool w)) with
  | None => True
  | Some (_, r) => idleConnections (pool w) !! info_id (deref w r) = None
  end.

(** ** Further invariants, schedules and the driver registry *)

(** The connections on which the pool has called [close()], oldest first. *)
Definition closed_conns (log : list DriverCall) : list Conn :=
  omap (λ d, match d with DClose c => Some c | _ => None end) log.

(** A step that neither touches the connections nor closes one. *)
Definition quiet (w w' : World) : Prop :=
  same_connections w w' ∧ closed_conns (driverLog w') = closed_conns (driverLog w).

(** A record of the pool that is not idle is checked out. *)
Definition out_flag (w : World) : Prop :=
  ∀ i r info, allConnections (pool w) !! i = Some r → idleConnections (pool w) !! i = None →
    infos w !! r = Some info → checkedOut info = true.

(** The records of the pool whose [checkedOut] is set. *)
Definition checked_out (w : World) : gmap ConnID Ref :=
  filter (λ ir, checkedOut (deref w ir.2) = true) (allConnections (pool w)).

(** Every record ever made keeps its own identifier, issued by the
    counter; a record is flagged [removed] exactly when it has left
    [allConnections], and a removed identifier is in neither map. *)
Record store_ok (w : World) : Prop := mkStoreOk {
  so_issued : ∀ r info, infos w !! r = Some info →
    (1 ≤ info_id info ≤ curConnID w)%N;
  so_unique : ∀ r1 r2 x1 x2, infos w !! r1 = Some x1 → infos w !! r2 = Some x2 →
    info_id x1 = info_id x2 → r1 = r2;
  so_live : ∀ r info, infos w !! r = Some info → removed info = false →
    allConnections (pool w) !! info_id info = Some r;
  so_gone : ∀ r info, infos w !! r = Some info → removed info = true →
    allConnections (pool w) !! info_id info = None ∧
    idleConnections (pool w) !! info_id info = None
}.

(** The message of the error [registerDriver] throws. *)
Definition msg_already_registered (name : string) : string :=
  "SQL driver already registered: " +:+ dq +:+ name +:+ dq.

(** [_registry] is an object literal: a lookup also finds what every
    object inherits from [Object.prototype], under these names, and what
    it finds there (a function, or the prototype itself) is truthy. *)
Definition inherited_names : list string :=
  ["constructor"; "__defineGetter__"; "__defineSetter__"; "hasOwnProperty";
   "__lookupGetter__"; "__lookupSetter__"; "isPrototypeOf"; "propertyIsEnumerable";
   "toString"; "valueOf"; "__proto__"; "toLocaleString"].

(** [registerDriver(driverName, driver)] *)
Definition registerDriver (name : string) (w : World) : World * Res unit :=
  if decide (name ∈ registry w ∨ name ∈ inherited_names)
  then (w, Throw (JsError (msg_already_registered name)))
  else (mkWorld ({[name]} ∪ registry w) (curConnID w) (nextRef w) (infos w) (symConnInfo w)
                (nextPromise w) (settled w) (pool w) (driverLog w), Ret tt).

(** No call is suspended at the gate. *)
Definition no_waiter (s : Sys) : Prop :=
  ∀ t k p, tasks s !! t = Some k → task_state k ≠ AwaitGate p.

(** The events that cancel the context of a call. *)
Definition is_cancel (e : Event) : bool :=
  match e with EvCancel _ _ => true | _ => false end.

(** No call in flight and no adapter outstanding. *)
Definition quiescent (s : Sys) : Prop :=
  adapters s = [] ∧ ∀ t k, tasks s !! t = Some k → ∃ r, task_state k = Settled r.

(** The promise is resolved, or its [resolve] is among the waiters. *)
Definition pending (p : PromiseId) (w : World) : Prop :=
  p ∈ settled w ∨ p ∈ waiters (connectionAvailableSema (pool w)).

(** A closed semaphore has no waiters, and a dead pool a closed semaphore. *)
Definition sema_ok (w : World) : Prop :=
  (closed (connectionAvailableSema (pool w)) = true →
     waiters (connectionAvailableSema (pool w)) = []) ∧
  (is_Some (deadError (pool w)) → closed (connectionAvailableSema (pool w)) = true).

(** What a step may do to the gate: nothing pending is dropped. *)
Definition gate_le (w w' : World) : Prop :=
  (∀ p, pending p w → pending p w') ∧ (sema_ok w → sema_ok w').

(** The part of the state the gate consists of. *)
Definition gate (w : World) : gset PromiseId * Semaphore * option Error :=
  (settled w, connectionAvailableSema (pool w), deadError (pool w)).

(** Every call at the gate awaits a promise that is pending. *)
Definition gate_ok (s : Sys) : Prop :=
  sema_ok (world s) ∧
  ∀ t k p, tasks s !! t = Some k → task_state k = AwaitGate p → pending p (world s).

(** A query holds the only connection of a pool with ceiling 1 and an exec
    waits at the gate. *)
Definition blocked : list Event :=
  [EvCall 1 OpQuery None; EvConnected 1 10; EvResume 1; EvDriverOk 1;
   EvCall 2 OpExec None].

(** The connections the driver has delivered along a schedule. *)
Fixpoint delivered (tr : list Event) : list Conn :=
  match tr with
  | [] => []
  | EvConnected _ c :: tr' => c :: delivered tr'
  | _ :: tr' => delivered tr'
  end.

(** The connection of every record of the pool points back to the record,
    every connection with a record is among [seen], and a connection the
    pool has closed is among [seen], has no record, and was closed once. *)
Definition linked (seen : list Conn) (w : World) : Prop :=
  (∀ i r info, allConnections (pool w) !! i = Some r → infos w !! r = Some info →
     symConnInfo w !! info_conn info = Some r) ∧
  (∀ c, is_Some (symConnInfo w !! c) → c ∈ seen) ∧
  (∀ c, c ∈ closed_conns (driverLog w) → symConnInfo w !! c = None ∧ c ∈ seen) ∧
  NoDup (closed_conns (driverLog w)).

(** No connection has two users: the calls that wait for the driver on a
    connection and the adapters that keep one. *)
Record exclusive (s : Sys) : Prop := mkExclusive {
  ex_task : ∀ t c, state_of t s = Some (AwaitDriver c) → held c (world s);
  ex_adapter : ∀ c, c ∈ adapters s → held c (world s);
  ex_tasks : ∀ t1 t2 c, state_of t1 s = Some (AwaitDriver c) →
    state_of t2 s = Some (AwaitDriver c) → t1 = t2;
  ex_task_adapter : ∀ t c, state_of t s = Some (AwaitDriver c) → c ∉ adapters s;
  ex_adapters : NoDup (adapters s)
}.

(** A connection that is checked out stays so under every step of the
    pool that is not its own return. *)
Definition kept (seen : list Conn) (c : Conn) (w : World) : Prop :=
  linked seen w ∧ held c w.

(** What the segments of [__popConnection] do to the connections that
    are checked out. *)
Definition pops (seen : list Conn) (w : World) (out : World * TaskState) : Prop :=
  linked seen out.1 ∧
  (∀ c', held c' w → held c' out.1) ∧
  (∀ c, out.2 = AwaitDriver c → ¬ held c w ∧ held c out.1).

(** The invariant of the schedules in which the driver delivers a fresh
    connection each time. *)
Definition owned (seen : list Conn) (s : Sys) : Prop :=
  WF (world s) ∧ linked seen (world s) ∧ exclusive s.

(** Two queries at once on a pool that keeps one idle connection, and
    their streams closed one after the other. *)
Definition open_two_return_two : list Event :=
  [EvCall 1 OpQuery None; EvConnected 1 10; EvResume 1; EvDriverOk 1;
   EvCall 2 OpQuery None; EvConnected 2 11; EvResume 2; EvDriverOk 2;
   EvAdapterReturn 10; EvAdapterReturn 11].

(** A query that keeps its connection, and an exec that waits for the
    driver on a second one. *)
Definition two_users : list Event :=
  [EvCall 1 OpQuery None; EvConnected 1 10; EvResume 1; EvDriverOk 1;
   EvCall 2 OpExec None; EvConnected 2 11; EvResume 2].

(** The calls a transaction on [c] may make. *)
Definition on_conn (c : Conn) (d : TxDriverCall) : Prop :=
  d = TCommit ∨ d = TRollback ∨ d = TExec c ∨ d = TQuery c.

(** One connection, checked out. *)
Definition one_out : World := (tryPopConnection (addConnection 10 (createPool {["Pg"]} pg))).1.

(** [n] turns of the loop of [__trimIdle]. *)
Fixpoint trim_turns (n : nat) (w : World) : World :=
  match n with
  | O => w
  | S k => trim_turns k (trim_turn w)
  end.

(** The connection of every record of the pool points back to that record:
    no connection is registered under two records. *)
Definition points_back (w : World) : Prop :=
  ∀ i r info, allConnections (pool w) !! i = Some r → infos w !! r = Some info →
    symConnInfo w !! info_conn info = Some r.

(** A record trimmed between [w] and [w']: it was idle in [w]; in [w'] it
    is in neither map, flagged [removed], and its connection carries no
    [symConnInfo]. *)
Definition purged (w w' : World) (h : ConnInfo * World) : Prop :=
  ∃ r, idleConnections (pool w) !! info_id h.1 = Some r ∧ infos w !! r = Some h.1 ∧
       allConnections (pool w') !! info_id h.1 = None ∧
       idleConnections (pool w') !! info_id h.1 = None ∧
       infos w' !! r = Some (set_removed true h.1) ∧
       symConnInfo w' !! info_conn h.1 = None.





Create HintDb pool.

(** * Proofs *)

(** Opening a state into its fields. *)
Ltac open_world w :=
  destruct w as [reg cur nref inf sym np st [th op all nc idle ni sema dead] log];
  simpl in *.

(** ** The first key of a map *)

Lemma least_nil {A} (l : list (N * A)) : least l = None ↔ l = [].
Proof.
  destruct l as [|kv l]; [done|]. simpl.
  destruct (least l) as [kv'|]; [|done].
  by destruct (kv.1 <? kv'.1)%N.
Qed.

Lemma least_elem {A} (l : list (N * A)) kv : least l = Some kv → kv ∈ l.
Proof.
  revert kv. induction l as [|x l IH]; intros kv; simpl; [done|].
  destruct (least l) as [kv'|].
  - destruct (x.1 <? kv'.1)%N; intros [= <-]; [left | right; by apply IH].
  - intros [= <-]. left.
Qed.

Lemma least_lower {A} (l : list (N * A)) kv :
  least l = Some kv → ∀ kv', kv' ∈ l → (kv.1 ≤ kv'.1)%N.
Proof.
  revert kv. induction l as [|x l IH]; intros kv; simpl; [done|].
  destruct (least l) as [y|] eqn:Hy.
  - destruct (N.ltb_spec x.1 y.1) as [Hlt|Hge]; intros [= <-] z Hz;
      apply elem_of_cons in Hz as [->|Hz]; try lia.
    + specialize (IH y eq_refl z Hz). lia.
    + by apply IH.
  - apply least_nil in Hy as ->. intros [= <-] z Hz.
    apply elem_of_cons in Hz as [->|Hz]; [lia | by apply elem_of_nil in Hz].
Qed.

Lemma first_key_lookup {A} (m : gmap N A) i x : first_key m = Some (i, x) → m !! i = Some x.
Proof. intros H. apply least_elem in H. by apply elem_of_map_to_list in H. Qed.

Lemma first_key_empty {A} (m : gmap N A) : first_key m = None ↔ m = ∅.
Proof. unfold first_key. rewrite least_nil. apply map_to_list_empty_iff. Qed.

Lemma first_key_least {A} (m : gmap N A) i x j y :
  first_key m = Some (i, x) → m !! j = Some y → (i ≤ j)%N.
Proof.
  intros H Hj. apply (least_lower _ _ H (j, y)). by apply elem_of_map_to_list.
Qed.

(** ** The steps of the pool keep the invariant *)

Lemma WF_createPool drivers o : WF (createPool drivers o).
Proof.
  split; [split|..]; simpl; done.
Qed.

Lemma idle_in_all w i r :
  consistent w → idleConnections (pool w) !! i = Some r → allConnections (pool w) !! i = Some r.
Proof. intros [_ _ Hs _] H. eapply lookup_weaken; eauto. Qed.

Lemma WF_addConnection c w : WF w → WF (addConnection c w).
Proof.
  intros [Hc Hrec Hid Href Hsym].
  assert (Hfresh : allConnections (pool w) !! (curConnID w + 1)%N = None).
  { destruct (allConnections (pool w) !! (curConnID w + 1)%N) as [r|] eqn:E; [|done].
    apply Hid in E. lia. }
  assert (Hfresh' : idleConnections (pool w) !! (curConnID w + 1)%N = None).
  { destruct (idleConnections (pool w) !! (curConnID w + 1)%N) as [r|] eqn:E; [|done].
    apply (idle_in_all _ _ _ Hc) in E. congruence. }
  assert (Hnew : infos w !! nextRef w = None).
  { destruct (infos w !! nextRef w) as [x|] eqn:E; [|done]. apply Href in E. lia. }
  destruct Hc as [Hn Hi Hs Hf].
  split; [split|..]; simpl.
  - rewrite map_size_insert_None by done. lia.
  - rewrite map_size_insert_None by done. lia.
  - by apply insert_mono.
  - intros i r. rewrite lookup_insert. case_decide as E.
    + intros [= <-]. rewrite lookup_insert_eq. eauto.
    + intros H. destruct (Hf _ _ H) as (info & Hinfo & Hco).
      exists info. split; [|done]. rewrite lookup_insert_ne; [done|]. congruence.
  - intros i r. rewrite lookup_insert. case_decide as E.
    + intros [= <-]. rewrite lookup_insert_eq. eauto.
    + intros H. destruct (Hrec _ _ H) as (info & Hinfo & ? & ?).
      exists info. split; [|done]. rewrite lookup_insert_ne; [done|]. congruence.
  - intros i r. rewrite lookup_insert. case_decide as E.
    + intros _. lia.
    + intros H. apply Hid in H. lia.
  - intros r info. rewrite lookup_insert. case_decide as E.
    + intros _. lia.
    + intros H. apply Href in H. lia.
  - intros c' r. rewrite lookup_insert. case_decide as E.
    + intros [= <-]. rewrite lookup_insert_eq. eexists. split; [done|]. simpl.
      split; [done|]. intros _. by rewrite lookup_insert_eq.
    + intros H. destruct (Hsym _ _ H) as (info & Hinfo & ? & Hall).
      exists info. rewrite lookup_insert_ne by congruence. split; [done|]. split; [done|].
      intros Hp. specialize (Hall Hp). rewrite lookup_insert_ne; [done|]. congruence.
Qed.

Lemma deref_Some w r info : infos w !! r = Some info → deref w r = info.
Proof. unfold deref. by intros ->. Qed.

Lemma WF_removeConnection w i r :
  WF w → allConnections (pool w) !! i = Some r → WF (removeConnection r w).
Proof.
  intros [Hc Hrec Hid Href Hsym] Hall.
  destruct (Hrec _ _ Hall) as (info & Hinfo & Hi & Hp).
  unfold removeConnection. rewrite (deref_Some _ _ _ Hinfo).
  destruct Hc as [Hn Hni Hs Hf].
  open_world w. subst i.
  split; [split|..]; simpl.
  - rewrite map_size_delete_Some by eauto. 
    assert (size all ≠ 0) by (apply map_size_ne_0_lookup; eauto). lia.
  - destruct (idle !! info_id info) as [r'|] eqn:E.
    + rewrite map_size_delete_Some by eauto.
      assert (size idle ≠ 0) by (apply map_size_ne_0_lookup; eauto). lia.
    + rewrite map_size_delete_None by done. done.
  - by apply delete_mono.
  - intros j r'. rewrite lookup_delete. case_decide as E; [done|].
    intros H. destruct (Hf _ _ H) as (info' & Hinfo' & Hco).
    assert (r' ≠ r).
    { intros ->. apply (lookup_weaken _ _ _ _ H) in Hs.
      destruct (Hrec _ _ Hs) as (x & Hx & Hxi & _). congruence. }
    exists info'. by rewrite lookup_insert_ne.
  - intros j r'. rewrite lookup_delete. case_decide as E; [done|].
    intros H. destruct (Hrec _ _ H) as (info' & Hinfo' & ? & ?).
    assert (r' ≠ r) by (intros ->; congruence).
    exists info'. by rewrite lookup_insert_ne.
  - intros j r'. rewrite lookup_delete. case_decide as E; [done|]. apply Hid.
  - intros r' info'. rewrite lookup_insert. case_decide as E.
    + intros _. subst. eapply Href; eauto.
    + apply Href.
  - intros c r'. rewrite lookup_delete. case_decide as E; [done|].
    intros H. destruct (Hsym _ _ H) as (info' & Hinfo' & Hconn & Hall').
    assert (r' ≠ r) by (intros ->; congruence).
    exists info'. rewrite lookup_insert_ne by done. split; [done|]. split; [done|].
    intros Hp'. specialize (Hall' Hp'). rewrite lookup_delete_ne; [done|].
    intros Heq. rewrite <- Heq in Hall'. congruence.
Qed.

Lemma tryPopConnection_empty w :
  first_key (idleConnections (pool w)) = None → tryPopConnection w = (w, Ret None).
Proof. unfold tryPopConnection. by intros ->. Qed.

Lemma tryPopConnection_idle w i r :
  WF w → first_key (idleConnections (pool w)) = Some (i, r) →
  ∃ info, infos w !! r = Some info ∧ checkedOut info = false ∧ info_id info = i ∧
    tryPopConnection w =
      (with_infos (<[r := set_checkedOut true info]>) (with_pool (set_idle (delete i) Z.pred) w),
       Ret (Some (info_conn info))).
Proof.
  intros [Hc Hrec _ _ _] Hk. apply first_key_lookup in Hk as Hidle.
  destruct (cons_idle_free _ Hc _ _ Hidle) as (info & Hinfo & Hco).
  destruct (Hrec _ _ (idle_in_all _ _ _ Hc Hidle)) as (info' & Hinfo' & Hi & _).
  exists info. repeat split; [done..|congruence|].
  unfold tryPopConnection. rewrite Hk. unfold deref. simpl. rewrite Hinfo. simpl.
  by rewrite Hco.
Qed.

Lemma WF_tryPopConnection w w' res :
  WF w → tryPopConnection w = (w', res) → WF w' ∧ ∃ oc, res = Ret oc.
Proof.
  intros Hwf H.
  destruct (first_key (idleConnections (pool w))) as [[i r]|] eqn:Hk.
  2:{ rewrite tryPopConnection_empty in H by done. injection H as <- <-. eauto. }
  destruct (tryPopConnection_idle _ _ _ Hwf Hk) as (info & Hinfo & Hco & Hi & Heq).
  rewrite Heq in H. injection H as <- <-. split; [|eauto].
  apply first_key_lookup in Hk as Hidle.
  destruct Hwf as [Hc Hrec Hid Href Hsym]. destruct Hc as [Hn Hni Hs Hf].
  open_world w.
  split; [split|..]; simpl.
  - done.
  - rewrite map_size_delete_Some by eauto.
    assert (size idle ≠ 0) by (apply map_size_ne_0_lookup; eauto). lia.
  - etrans; [apply delete_subseteq|done].
  - intros j r'. rewrite lookup_delete. case_decide as E; [done|].
    intros H. destruct (Hf _ _ H) as (info' & Hinfo' & Hco').
    assert (r' ≠ r).
    { intros ->. apply (lookup_weaken _ _ _ _ H) in Hs.
      destruct (Hrec _ _ Hs) as (x & Hx & Hxi & _). congruence. }
    exists info'. by rewrite lookup_insert_ne.
  - intros j r' H. destruct (Hrec _ _ H) as (info' & Hinfo' & ? & ?).
    rewrite lookup_insert. case_decide as E.
    + subst r'. eexists. split; [done|]. simpl. split; congruence.
    + eauto.
  - done.
  - intros r' info'. rewrite lookup_insert. case_decide as E.
    + intros _. subst. eapply Href; eauto.
    + apply Href.
  - intros c r' H. destruct (Hsym _ _ H) as (info' & Hinfo' & Hconn & Hall').
    rewrite lookup_insert. case_decide as E.
    + subst r'. eexists. split; [done|]. simpl.
      assert (info' = info) by congruence. subst info'. done.
    + eauto.
Qed.

(** Steps that leave the connections alone keep it too. *)
Lemma WF_same w w' : same_connections w w' → WF w → WF w'.
Proof.
  intros (H1 & H2 & H3 & H4 & H5 & H6 & H7 & H8 & H9 & H10) [[Hn Hni Hs Hf] Hrec Hid Href Hsym].
  destruct w as [reg cur nref inf sym np st [th op all nc idle ni sema dead] log].
  destruct w' as [reg' cur' nref' inf' sym' np' st' [th' op' all' nc' idle' ni' sema' dead'] log'].
  simpl in *. subst. by split; [split|..].
Qed.

Lemma same_signal w : same_connections w (signal w).
Proof. by repeat split. Qed.

Lemma same_wait w : same_connections w (wait w).1.
Proof. unfold wait. destruct (closed _); by repeat split. Qed.

Lemma same_log_call d w : same_connections w (log_call d w).
Proof. by repeat split. Qed.

Lemma same_pool_close w : same_connections w (pool_close w).
Proof. unfold pool_close. destruct (deadError _); by repeat split. Qed.

Lemma same_connect w : same_connections w (connect w).1.
Proof. unfold connect. case_decide; by repeat split. Qed.

(** ** Returning a connection and trimming *)

(** The record of a held connection goes back to the idle map. *)
Lemma held_not_idle w c r info :
  WF w → symConnInfo w !! c = Some r → infos w !! r = Some info →
  info_pool info = this (pool w) → checkedOut info = true →
  allConnections (pool w) !! info_id info = Some r ∧
  idleConnections (pool w) !! info_id info = None.
Proof.
  intros [Hc Hrec _ _ Hsym] Hs Hinfo Hp Hco.
  destruct (Hsym _ _ Hs) as (info' & Hinfo' & _ & Hall).
  assert (info' = info) by congruence. subst info'. specialize (Hall Hp).
  split; [done|].
  destruct (idleConnections (pool w) !! info_id info) as [r'|] eqn:E; [|done].
  pose proof (idle_in_all _ _ _ Hc E) as E'.
  assert (r' = r) by congruence. subst r'.
  destruct (cons_idle_free _ Hc _ _ E) as (x & Hx & Hxco). congruence.
Qed.

Lemma WF_before_trim w c :
  WF w → held c w →
  WF (before_trim c w) ∧
  numIdleConnections (pool (before_trim c w)) = (numIdleConnections (pool w) + 1)%Z ∧
  options (pool (before_trim c w)) = options (pool w) ∧
  driverLog (before_trim c w) = driverLog w ∧
  returnConnection c w =
    match trimIdle (before_trim c w) with
    | Some w3 => Some (w3, Ret tt)
    | None => None
    end.
Proof.
  intros Hwf (r & info & Hs & Hinfo & Hp & Hco).
  destruct (held_not_idle _ _ _ _ Hwf Hs Hinfo Hp Hco) as [Hall Hidle].
  unfold before_trim, returnConnection. rewrite Hs, (deref_Some _ _ _ Hinfo), Hp, Hco.
  rewrite N.eqb_refl. simpl.
  split; [|split; [|done]].
  2:{ simpl. lia. }
  eapply WF_same; [apply same_signal|].
  destruct Hwf as [[Hn Hni Hsub Hf] Hrec Hid Href Hsym].
  open_world w.
  split; [split|..]; simpl.
  - done.
  - rewrite map_size_insert_None by done. lia.
  - by apply insert_subseteq_l.
  - intros j r'. rewrite lookup_insert. case_decide as E.
    + intros [= <-]. rewrite lookup_insert_eq. eauto.
    + intros H. destruct (Hf _ _ H) as (info' & Hinfo' & Hco').
      assert (r' ≠ r) by (intros ->; congruence).
      exists info'. by rewrite lookup_insert_ne.
  - intros j r' H. destruct (Hrec _ _ H) as (info' & Hinfo' & ? & ?).
    rewrite lookup_insert. case_decide as E.
    + subst r'. eexists. split; [done|]. simpl. split; congruence.
    + eauto.
  - done.
  - intros r' info'. rewrite lookup_insert. case_decide as E.
    + intros _. subst. eapply Href; eauto.
    + apply Href.
  - intros c' r' H. destruct (Hsym _ _ H) as (info' & Hinfo' & Hconn & Hall').
    rewrite lookup_insert. case_decide as E.
    + subst r'. eexists. split; [done|]. simpl.
      assert (info' = info) by congruence. subst info'. done.
    + eauto.
Qed.

(** A call of [__returnConnection] that throws changes nothing. *)
Lemma returnConnection_cases w c :
  WF w → (held c w) ∨ (∃ e, returnConnection c w = Some (w, Throw e)).
Proof.
  intros Hwf. unfold returnConnection, held.
  destruct (symConnInfo w !! c) as [r|] eqn:Hs; [|eauto].
  destruct (wf_sym _ Hwf _ _ Hs) as (info & Hinfo & _ & _).
  rewrite (deref_Some _ _ _ Hinfo).
  destruct (N.eqb_spec (info_pool info) (this (pool w))) as [Hp|Hp]; simpl; [|eauto].
  destruct (checkedOut info) eqn:Hco; simpl; [|eauto].
  left. eauto 10.
Qed.

(** One turn of the trimming loop. *)
Lemma trim_turn_idle w i r :
  WF w → first_key (idleConnections (pool w)) = Some (i, r) →
  WF (trim_turn w) ∧
  numIdleConnections (pool (trim_turn w)) = (numIdleConnections (pool w) - 1)%Z ∧
  options (pool (trim_turn w)) = options (pool w) ∧
  idleConnections (pool (trim_turn w)) = delete i (idleConnections (pool w)) ∧
  driverLog (trim_turn w) = driverLog w ++ [DClose (info_conn (deref w r))] ∧
  info_id (deref w r) = i ∧
  allConnections (pool (removeConnection r w)) !! i = None ∧
  idleConnections (pool (removeConnection r w)) !! i = None.
Proof.
  intros Hwf Hk. apply first_key_lookup in Hk as Hidle.
  pose proof (idle_in_all _ _ _ (wf_consistent _ Hwf) Hidle) as Hall.
  destruct (wf_records _ Hwf _ _ Hall) as (info & Hinfo & Hi & Hp).
  unfold trim_turn. rewrite Hk.
  split.
  { eapply WF_same; [apply same_log_call|]. by eapply WF_removeConnection. }
  rewrite (deref_Some _ _ _ Hinfo).
  unfold removeConnection. rewrite (deref_Some _ _ _ Hinfo).
  open_world w. subst i. rewrite Hidle. simpl.
  repeat split; try done; try lia; by rewrite lookup_delete_eq.
Qed.

Lemma idle_target_options p p' : options p' = options p → idle_target p' = idle_target p.
Proof. unfold idle_target. by intros ->. Qed.

Lemma trimIdle_loop_WF turns w w' : WF w → trimIdle_loop turns w = Some w' → WF w'.
Proof.
  revert w. induction turns as [|k IH]; intros w Hwf; simpl; case_decide; try done.
  - by intros [= <-].
  - apply IH. unfold trim_turn.
    destruct (first_key (idleConnections (pool w))) as [[i r]|] eqn:Hk; [|done].
    pose proof (trim_turn_idle _ _ _ Hwf Hk) as [Hx _]. unfold trim_turn in Hx.
    by rewrite Hk in Hx.
  - by intros [= <-].
Qed.

Lemma WF_returnConnection c w w' res :
  WF w → returnConnection c w = Some (w', res) → WF w'.
Proof.
  intros Hwf H. destruct (returnConnection_cases w c Hwf) as [Hh|[e He]].
  - destruct (WF_before_trim _ _ Hwf Hh) as (Hwf2 & _ & _ & _ & Heq).
    rewrite Heq in H. destruct (trimIdle (before_trim c w)) as [w3|] eqn:Ht; [|done].
    injection H as <- <-. eapply trimIdle_loop_WF; eauto.
  - rewrite He in H. by injection H as <- <-.
Qed.

(** With the invariant and a target that is not negative, trimming ends,
    at the smaller of the idle count and the target, and every record it
    removes is out of both maps when its [close()] is called. *)
Lemma trimIdle_loop_spec turns w :
  WF w → (0 ≤ idle_target (pool w))%Z →
  (numIdleConnections (pool w) - idle_target (pool w) ≤ Z.of_nat turns)%Z →
  ∃ w', trimIdle_loop turns w = Some w' ∧ WF w' ∧
    numIdleConnections (pool w') = Z.min (numIdleConnections (pool w)) (idle_target (pool w)) ∧
    options (pool w') = options (pool w) ∧
    driverLog w' = driverLog w ++ map (λ h, DClose (info_conn h.1)) (trim_history turns w) ∧
    Forall (trimmed_ok w) (trim_history turns w) ∧
    NoDup (map (λ h, info_id h.1) (trim_history turns w)) ∧
    Z.of_nat (length (trim_history turns w)) =
      (numIdleConnections (pool w) - Z.min (numIdleConnections (pool w)) (idle_target (pool w)))%Z.
Proof.
  revert w. induction turns as [|k IH]; intros w Hwf Ht Hk; simpl; case_decide as Hgt;
    try lia.
  - exists w. simpl. rewrite app_nil_r.
    split_and!; [done|done|lia|done|done|constructor|apply NoDup_nil_2|lia].
  - assert (Hne : idleConnections (pool w) ≠ ∅).
    { intros He. pose proof (cons_numIdleConnections _ (wf_consistent _ Hwf)) as Hn.
      rewrite He, map_size_empty in Hn. lia. }
    destruct (first_key (idleConnections (pool w))) as [[i r]|] eqn:Hfk.
    2:{ by apply first_key_empty in Hfk. }
    destruct (trim_turn_idle _ _ _ Hwf Hfk) as (Hwf1 & Hn1 & Ho1 & Hi1 & Hl1 & Hid & Ha & Hb).
    pose proof (idle_target_options _ _ Ho1) as Ht1.
    destruct (IH (trim_turn w) Hwf1) as (w' & Hrun & Hwf' & Hn' & Ho' & Hl' & Hall & Hnd & Hlen);
      [lia..|].
    exists w'. split; [done|]. split; [done|]. split; [lia|]. split; [congruence|].
    split; [|split; [|split]].
    + rewrite Hl', Hl1. simpl. by rewrite <- app_assoc.
    + constructor.
      * unfold trimmed_ok. cbn [fst snd]. rewrite Hid. apply first_key_lookup in Hfk.
        split_and!; [rewrite Hfk; eauto | done | done].
      * eapply Forall_impl; [apply Hall|]. intros h (Hs & ? & ?). split; [|done].
        rewrite Hi1 in Hs. destruct Hs as [x Hx].
        apply lookup_delete_Some in Hx as [_ Hx]. eauto.
    + simpl. constructor; [|done]. rewrite Hid.
      intros Hin. apply list_elem_of_fmap in Hin as (h & Hh & Hin).
      rewrite Forall_forall in Hall. destruct (Hall _ Hin) as ([x Hx] & _).
      rewrite Hi1, <- Hh, lookup_delete_eq in Hx. done.
    + simpl length. lia.
  - exists w. simpl. rewrite app_nil_r.
    split_and!; [done|done|lia|done|done|constructor|apply NoDup_nil_2|lia].
Qed.

Lemma returnConnection_spec c w :
  WF w → held c w → (0 ≤ idle_target (pool w))%Z →
  ∃ w', returnConnection c w = Some (w', Ret tt) ∧ WF w' ∧
    let hist := trim_history (Z.to_nat (numIdleConnections (pool w) + 1 - idle_target (pool w)))
                             (before_trim c w) in
    numIdleConnections (pool w') =
      Z.min (numIdleConnections (pool w) + 1) (idle_target (pool w)) ∧
    options (pool w') = options (pool w) ∧
    driverLog w' = driverLog w ++ map (λ h, DClose (info_conn h.1)) hist ∧
    Forall (trimmed_ok (before_trim c w)) hist ∧
    NoDup (map (λ h, info_id h.1) hist) ∧
    Z.of_nat (length hist) =
      (numIdleConnections (pool w) + 1 - numIdleConnections (pool w'))%Z.
Proof.
  intros Hwf Hh Ht.
  destruct (WF_before_trim _ _ Hwf Hh) as (Hwf2 & Hn2 & Ho2 & Hl2 & Heq).
  pose proof (idle_target_options _ _ Ho2) as Ht2.
  destruct (trimIdle_loop_spec
              (Z.to_nat (numIdleConnections (pool (before_trim c w))
                         - idle_target (pool (before_trim c w)))) (before_trim c w) Hwf2)
    as (w' & Hrun & Hwf' & Hn' & Ho' & Hl' & Hall & Hnd & Hlen); [lia..|].
  exists w'. rewrite Heq. unfold trimIdle. rewrite Hrun.
  rewrite Hn2, Ht2 in *.
  split; [done|]. split; [done|]. cbv zeta.
  split; [done|]. split; [congruence|]. split; [congruence|]. split; [done|]. split; [done|].
  lia.
Qed.

(** ** The bound on the turns of [__trimIdle] is enough *)

Lemma stuck_trim_turn w : stuck w → stuck (trim_turn w).
Proof.
  intros [Hgt Hk]. unfold stuck, trim_turn in *.
  destruct (first_key (idleConnections (pool w))) as [[i r]|] eqn:E; [|by rewrite E].
  unfold removeConnection. open_world w. rewrite Hk. simpl.
  rewrite (delete_id _ _ Hk), E. split; [done|].
  unfold deref. simpl. rewrite lookup_insert_eq. simpl. done.
Qed.

Lemma stuck_forever turns w : stuck w → trimIdle_loop turns w = None.
Proof.
  revert w. induction turns as [|k IH]; intros w Hs; simpl;
    (rewrite decide_True by apply Hs); [done|].
  apply IH. by apply stuck_trim_turn.
Qed.

Lemma stuck_or_lowers w :
  (numIdleConnections (pool w) > idle_target (pool w))%Z →
  stuck w ∨
  (numIdleConnections (pool (trim_turn w)) = (numIdleConnections (pool w) - 1)%Z ∧
   idle_target (pool (trim_turn w)) = idle_target (pool w)).
Proof.
  intros Hgt. unfold stuck, trim_turn.
  destruct (first_key (idleConnections (pool w))) as [[i r]|] eqn:E; [|by left].
  destruct (idleConnections (pool w) !! info_id (deref w r)) eqn:Hk; [|by left].
  right. unfold removeConnection. open_world w. rewrite Hk. simpl. split; [lia|done].
Qed.

(** Whenever some number of turns lets [__trimIdle] end, the distance to
    the target does: [trimIdle] is [None] only for a loop without end. *)
Lemma trimIdle_bound_enough turns w w' :
  trimIdle_loop turns w = Some w' → trimIdle w = Some w'.
Proof.
  unfold trimIdle. revert w. induction turns as [|k IH]; intros w; simpl.
  - case_decide as Hgt; [done|]. intros [= <-].
    destruct (Z.to_nat _); simpl; by rewrite decide_False.
  - case_decide as Hgt.
    + intros Hrun.
      destruct (stuck_or_lowers w Hgt) as [Hs|[Hn Ht]].
      { by rewrite (stuck_forever _ _ (stuck_trim_turn _ Hs)) in Hrun. }
      apply IH in Hrun. rewrite Hn, Ht in Hrun.
      replace (Z.to_nat (numIdleConnections (pool w) - idle_target (pool w)))
        with (S (Z.to_nat (numIdleConnections (pool w) - 1 - idle_target (pool w)))) by lia.
      simpl. by rewrite decide_True.
    + intros [= <-]. destruct (Z.to_nat _); simpl; by rewrite decide_False.
Qed.


(** ** A returned connection is out of the caller's hands *)

Lemma released_not_held c w : released c w → ¬ held c w.
Proof. intros Hrel (r & info & Hs & Hi & _ & Hco). rewrite (Hrel _ _ Hs Hi) in Hco. done. Qed.

Lemma released_trim_turn c w : released c w → released c (trim_turn w).
Proof.
  intros Hrel. unfold trim_turn.
  destruct (first_key (idleConnections (pool w))) as [[i r']|]; [|done].
  intros r info. simpl. rewrite lookup_delete. case_decide; [done|]. intros Hs.
  rewrite lookup_insert. case_decide as E; [|by apply Hrel].
  intros [= <-]. subst r'. simpl. unfold deref.
  destruct (infos w !! r) as [i0|] eqn:Hi; simpl; [by eapply Hrel|done].
Qed.

Lemma released_trimIdle_loop c turns w w' :
  released c w → trimIdle_loop turns w = Some w' → released c w'.
Proof.
  revert w. induction turns as [|k IH]; intros w Hrel; simpl; case_decide; try done.
  - by intros [= <-].
  - apply IH. by apply released_trim_turn.
  - by intros [= <-].
Qed.

(** A successful return leaves the connection out of the caller's hands:
    its record is idle again, or trimmed. *)
Lemma returnConnection_releases c w w' :
  returnConnection c w = Some (w', Ret tt) → ¬ held c w'.
Proof.
  unfold returnConnection. destruct (symConnInfo w !! c) as [r|] eqn:Hs; [|done].
  destruct (negb _); [done|]. destruct (negb _); [done|].
  destruct (trimIdle _) as [w3|] eqn:E; [|done]. intros [= <-].
  apply released_not_held. unfold trimIdle in E.
  eapply released_trimIdle_loop; [|exact E].
  intros r0 info0. simpl. rewrite Hs. intros [= <-]. rewrite lookup_insert_eq.
  by intros [= <-].
Qed.

(** The callback of an adapter, run on a pool that is in order. *)
Lemma give_back_returns c w :
  WF w → held c w → (0 ≤ idle_target (pool w))%Z →
  ∃ w', give_back c w = Some (w', Ret tt) ∧ WF w' ∧ ¬ held c w'.
Proof.
  intros Hwf Hh Ht. destruct (returnConnection_spec c w Hwf Hh Ht) as (w' & Hret & Hwf' & _).
  exists w'. split; [done|]. split; [done|]. by eapply returnConnection_releases.
Qed.

Lemma held_b_sound c w : held_b c w = true → held c w.
Proof.
  unfold held_b, held. destruct (symConnInfo w !! c) as [r|]; [|done].
  destruct (infos w !! r) as [info|] eqn:E; [|done].
  rewrite andb_true_iff, N.eqb_eq. intros [? ?]. by exists r, info.
Qed.

#[local] Hint Resolve WF_createPool WF_addConnection : pool.

(** C5: in a state with the invariant, and after each complete
    [__addConnection], [__removeConnection] (of a record read from the
    idle map, as [__trimIdle] calls it), [__tryPopConnection] and
    [__returnConnection] from it, the invariant holds again and with it:
    [numConnections] is the size of [allConnections],
    [numIdleConnections] the size of [idleConnections], the idle map is
    included in [allConnections], and every idle record has
    [checkedOut = false]; [__tryPopConnection] never throws the
    already-checked-out fault. *)
Theorem pool_steps_keep_invariant (w : World) :
  WF w →
  consistent w ∧
  (∀ c, WF (addConnection c w) ∧ consistent (addConnection c w)) ∧
  (∀ i r, idleConnections (pool w) !! i = Some r →
     WF (removeConnection r w) ∧ consistent (removeConnection r w)) ∧
  (∀ w' res, tryPopConnection w = (w', res) →
     WF w' ∧ consistent w' ∧ res ≠ Throw (JsError msg_already_out)) ∧
  (∀ c w' res, returnConnection c w = Some (w', res) → WF w' ∧ consistent w').
Proof.
  intros Hwf. split; [apply Hwf|]. split; [|split; [|split]].
  - intros c. pose proof (WF_addConnection c _ Hwf) as H. split; [done|apply H].
  - intros i r Hi.
    pose proof (WF_removeConnection _ _ _ Hwf (idle_in_all _ _ _ (wf_consistent _ Hwf) Hi)) as H.
    split; [done|apply H].
  - intros w' res Hpop. destruct (WF_tryPopConnection _ _ _ Hwf Hpop) as [H [oc ->]].
    split; [done|]. split; [apply H|done].
  - intros c w' res Hret. pose proof (WF_returnConnection _ _ _ _ Hwf Hret) as H.
    split; [done|apply H].
Qed.

Lemma pool_steps_keep_invariant_witness :
  let w := addConnection 10 (createPool {["Pg"]} pg) in
  WF w ∧
  consistent w ∧
  (∀ c, WF (addConnection c w) ∧ consistent (addConnection c w)) ∧
  (∀ i r, idleConnections (pool w) !! i = Some r →
     WF (removeConnection r w) ∧ consistent (removeConnection r w)) ∧
  (∀ w' res, tryPopConnection w = (w', res) →
     WF w' ∧ consistent w' ∧ res ≠ Throw (JsError msg_already_out)) ∧
  (∀ c w' res, returnConnection c w = Some (w', res) → WF w' ∧ consistent w').
Proof.
  intros w.
  assert (Hwf : WF w) by (subst w; auto with pool).
  split; [exact Hwf | exact (pool_steps_keep_invariant w Hwf)].
Defined.

(** One turn of the loop over a non-empty idle map, field by field. *)
Lemma trim_turn_purges w i r :
  WF w → first_key (idleConnections (pool w)) = Some (i, r) →
  ∃ x, infos w !! r = Some x ∧ info_id x = i ∧ deref w r = x ∧
    idleConnections (pool w) !! i = Some r ∧
    allConnections (pool (trim_turn w)) = delete i (allConnections (pool w)) ∧
    idleConnections (pool (trim_turn w)) = delete i (idleConnections (pool w)) ∧
    numConnections (pool (trim_turn w)) = (numConnections (pool w) - 1)%Z ∧
    infos (trim_turn w) = <[r := set_removed true x]> (infos w) ∧
    symConnInfo (trim_turn w) = delete (info_conn x) (symConnInfo w) ∧
    trim_turn w = log_call (DClose (info_conn x)) (removeConnection r w) ∧
    driverLog (removeConnection r w) = driverLog w.
Proof.
  intros Hwf Hk. apply first_key_lookup in Hk as Hidle.
  pose proof (idle_in_all _ _ _ (wf_consistent _ Hwf) Hidle) as Hall.
  destruct (wf_records _ Hwf _ _ Hall) as (x & Hx & Hi & Hp).
  exists x. unfold trim_turn. rewrite Hk, (deref_Some _ _ _ Hx).
  unfold removeConnection. rewrite (deref_Some _ _ _ Hx).
  open_world w. subst i. simpl. repeat split; try done; lia.
Qed.

Lemma purge_lookup {A} (m : gmap N A) (i : N) (l : list N) (j : N) :
  (if decide (j ∈ l) then None else delete i m !! j) =
  (if decide (j ∈ i :: l) then None else m !! j).
Proof.
  rewrite lookup_delete.
  destruct (decide (i = j)) as [->|Hne].
  - rewrite (decide_True (P := j ∈ j :: l)) by (apply elem_of_cons; by left).
    by case_decide.
  - destruct (decide (j ∈ l)) as [Hin|Hin].
    + rewrite decide_True; [done|]. apply elem_of_cons. by right.
    + rewrite decide_False; [done|]. rewrite elem_of_cons. intros [->|?]; done.
Qed.

Lemma trimIdle_loop_purges turns : ∀ w w',
  WF w → trimIdle_loop turns w = Some w' →
  w' = trim_turns (length (trim_history turns w)) w ∧
  (∀ j h, trim_history turns w !! j = Some h →
     trim_turns (S j) w = log_call (DClose (info_conn h.1)) h.2 ∧
     driverLog h.2 = driverLog (trim_turns j w)) ∧
  Forall (purged w w') (trim_history turns w) ∧
  (∀ j, idleConnections (pool w') !! j =
        if decide (j ∈ map (λ h, info_id h.1) (trim_history turns w))
        then None else idleConnections (pool w) !! j) ∧
  (∀ j, allConnections (pool w') !! j =
        if decide (j ∈ map (λ h, info_id h.1) (trim_history turns w))
        then None else allConnections (pool w) !! j) ∧
  numConnections (pool w') =
    (numConnections (pool w) - Z.of_nat (length (trim_history turns w)))%Z ∧
  (∀ r0 x0, infos w !! r0 = Some x0 → idleConnections (pool w) !! info_id x0 ≠ Some r0 →
     infos w' !! r0 = Some x0) ∧
  (∀ c0, symConnInfo w !! c0 = None → symConnInfo w' !! c0 = None).
Proof.
  induction turns as [|k IH]; intros w w' Hwf; simpl; case_decide as Hgt; try done.
  - intros [= <-]. simpl. split_and!; try done; try lia;
      try (intros j h H; by rewrite lookup_nil in H);
      try (intros j; rewrite decide_False; [done|apply not_elem_of_nil]).
  - intros Hrun. destruct (first_key (idleConnections (pool w))) as [[i r]|] eqn:Hfk.
    2:{ assert (Hw : trim_turn w = w) by (unfold trim_turn; by rewrite Hfk).
        rewrite Hw in Hrun |- *. specialize (IH w w' Hwf Hrun). simpl in IH.
        rewrite Hw in IH.
        exact IH. }
    destruct (trim_turn_purges _ _ _ Hwf Hfk)
      as (x & Hx & Hi & Hd & Hidle & Ha1 & Hi1 & Hn1 & Hinf1 & Hs1 & Ht1 & Hl1).
    destruct (trim_turn_idle _ _ _ Hwf Hfk) as (Hwf1 & _).
    destruct (IH _ _ Hwf1 Hrun) as (Hw' & Hstep & Hp & Hidl & Hal & Hnum & Hfr & Hsy).
    rewrite Hd. cbn [length map fst snd].
    assert (Hne : ∀ r0 x0, infos w !! r0 = Some x0 →
              idleConnections (pool w) !! info_id x0 ≠ Some r0 → r0 ≠ r).
    { intros r0 x0 H0 Hn ->. assert (x0 = x) by congruence. subst x0. congruence. }
    split_and!.
    + done.
    + intros [|j] h; simpl.
      * intros [= <-]. cbn [fst snd]. split; [exact Ht1|exact Hl1].
      * intros Hj. by apply Hstep.
    + constructor.
      * exists r. cbn [fst snd]. rewrite Hi. split_and!; [done|done| | | |].
        -- rewrite Hal, Ha1, lookup_delete_eq. by case_decide.
        -- rewrite Hidl, Hi1, lookup_delete_eq. by case_decide.
        -- apply Hfr; [by rewrite Hinf1, lookup_insert_eq|]. simpl.
           by rewrite Hi1, Hi, lookup_delete_eq.
        -- apply Hsy. by rewrite Hs1, lookup_delete_eq.
      * eapply Forall_impl; [apply Hp|]. intros h (r' & H1 & H2 & H3 & H4 & H5 & H6).
        rewrite Hi1 in H1. apply lookup_delete_Some in H1 as [Hin H1].
        assert (r' ≠ r).
        { intros ->. rewrite Hinf1, lookup_insert_eq in H2. injection H2 as H2'.
          rewrite <- H2' in Hin. simpl in Hin. congruence. }
        exists r'. split_and!; try done. by rewrite Hinf1, lookup_insert_ne in H2.
    + intros j. rewrite Hidl, Hi1, <- Hi. apply purge_lookup.
    + intros j. rewrite Hal, Ha1, <- Hi. apply purge_lookup.
    + rewrite Hnum, Hn1. lia.
    + intros r0 x0 H0 Hn. pose proof (Hne _ _ H0 Hn) as Hr.
      apply Hfr; [by rewrite Hinf1, lookup_insert_ne|].
      rewrite Hi1. intros H1. apply lookup_delete_Some in H1 as [_ H1]. done.
    + intros c0 H0. apply Hsy. rewrite Hs1. rewrite lookup_delete. by case_decide.
  - intros [= <-]. simpl. split_and!; try done; try lia;
      try (intros j h H; by rewrite lookup_nil in H);
      try (intros j; rewrite decide_False; [done|apply not_elem_of_nil]).
Qed.

Lemma points_back_before_trim c w :
  WF w → held c w → points_back w → points_back (before_trim c w).
Proof.
  intros Hwf (r & info & Hs & Hinfo & Hp & Hco) H.
  unfold before_trim. rewrite Hs, (deref_Some _ _ _ Hinfo).
  intros j r' info'. simpl. intros Hj. rewrite lookup_insert. case_decide as E.
  - subst r'. intros [= <-]. simpl. by apply (H j r info).
  - intros Hi'. by apply (H j r' info').
Qed.



(** A pool with two connections, the older one checked out: returning it
    makes two idle records against a target of one, and the first in
    enumeration order, the returned one, is trimmed. *)
Lemma WF_one_out_one_idle : WF one_out_one_idle.
Proof.
  unfold one_out_one_idle.
  destruct (tryPopConnection _) as [w1 res] eqn:E.
  eapply WF_tryPopConnection in E as [H _]; [done|].
  apply WF_addConnection, WF_addConnection, WF_createPool.
Qed.

Lemma held_one_out_one_idle : held 10 one_out_one_idle.
Proof. exists 0%N, (mkConnInfo 1 10 0 true false). by vm_compute. Qed.

Lemma points_back_createPool drivers o : points_back (createPool drivers o).
Proof. intros i r info. simpl. by rewrite lookup_empty. Qed.

Lemma points_back_addConnection c w :
  WF w → points_back w → symConnInfo w !! c = None → points_back (addConnection c w).
Proof.
  intros Hwf H Hc i r info. simpl. rewrite lookup_insert. case_decide as E.
  - intros [= <-]. rewrite lookup_insert_eq. intros [= <-]. simpl.
    by rewrite lookup_insert_eq.
  - intros Hall. destruct (wf_records _ Hwf _ _ Hall) as (x & Hx & _).
    pose proof (wf_fresh_ref _ Hwf _ _ Hx) as Hlt.
    rewrite lookup_insert_ne by lia. intros Hinfo.
    pose proof (H _ _ _ Hall Hinfo) as Hsym.
    rewrite lookup_insert_ne; [done|]. intros Heq. rewrite <- Heq in Hsym. congruence.
Qed.

Lemma points_back_tryPopConnection w :
  WF w → points_back w → points_back (tryPopConnection w).1.
Proof.
  intros Hwf H.
  destruct (first_key (idleConnections (pool w))) as [[i r]|] eqn:Hk.
  2:{ by rewrite tryPopConnection_empty. }
  destruct (tryPopConnection_idle _ _ _ Hwf Hk) as (info & Hinfo & Hco & Hi & ->).
  intros j r' info'. simpl. intros Hj. rewrite lookup_insert. case_decide as E.
  - subst r'. intros [= <-]. simpl. by apply (H j r info).
  - intros Hi'. by apply (H j r' info').
Qed.

Lemma points_back_one_out_one_idle : points_back one_out_one_idle.
Proof.
  apply points_back_tryPopConnection.
  - apply WF_addConnection, WF_addConnection, WF_createPool.
  - apply points_back_addConnection; [apply WF_addConnection, WF_createPool| |done].
    apply points_back_addConnection; [apply WF_createPool| |done].
    apply points_back_createPool.
Qed.


Example return_trims_example :
  (λ '(w', r), (r, numIdleConnections (pool w'), numConnections (pool w'),
                map_to_list (idleConnections (pool w')), driverLog w'))
  <$> returnConnection 10 one_out_one_idle
  = Some (Ret tt, 1%Z, 1%Z, [(2%N, 1%N)], [DClose 10]).
Proof. vm_compute. reflexivity. Qed.

(** ** Checking out *)

(** C8: with an idle record at hand the checkout succeeds whatever the
    context says, cancelled or not.  [__popConnection], from its entry and
    after a wait alike (and [exec], [query] and [begin] on a live pool),
    takes an idle record that is not checked out: the state it leaves is
    the earlier one with that record out of the idle map, the idle count
    one lower and the record's [checkedOut] set, the record still in
    [allConnections]; it hands out the connection of that record and
    calls the driver method on it.  With no idle record and a cancelled
    context, it leaves the loop and fails, with [deadError] when the pool
    is dead and with the error of the context otherwise.  (The segment
    after [__openAdditionalConnection] does not read the context.) *)
Theorem idle_record_beats_cancellation (op : Op) (w : World) :
  WF w →
  (∀ i0 r0, idleConnections (pool w) !! i0 = Some r0 →
     ∃ i r info w1,
       idleConnections (pool w) !! i = Some r ∧ infos w !! r = Some info ∧
       info_id info = i ∧ checkedOut info = false ∧
       w1 = with_infos (<[r := set_checkedOut true info]>)
              (with_pool (set_idle (delete i) Z.pred) w) ∧
       tryPopConnection w = (w1, Ret (Some (info_conn info))) ∧
       idleConnections (pool w1) = delete i (idleConnections (pool w)) ∧
       idleConnections (pool w1) !! i = None ∧
       numIdleConnections (pool w1) = (numIdleConnections (pool w) - 1)%Z ∧
       allConnections (pool w1) !! i = Some r ∧
       infos w1 !! r = Some (set_checkedOut true info) ∧
       checkedOut (set_checkedOut true info) = true ∧
       ∀ ctx,
         popConnection_entry op ctx w =
           (log_call (driver_call op (info_conn info)) w1, AwaitDriver (info_conn info)) ∧
         popConnection_woken op ctx w =
           (log_call (driver_call op (info_conn info)) w1, AwaitDriver (info_conn info)) ∧
         (deadError (pool w) = None →
          call op ctx w =
            (log_call (driver_call op (info_conn info)) w1, AwaitDriver (info_conn info)))) ∧
  (idleConnections (pool w) = ∅ →
   ∀ e,
     popConnection_entry op (Some e) w =
       (w, Settled (Throw (default e (deadError (pool w))))) ∧
     popConnection_woken op (Some e) w =
       (w, Settled (Throw (default e (deadError (pool w)))))).
Proof.
  intros Hwf. split.
  - intros i0 r0 H0.
    destruct (first_key (idleConnections (pool w))) as [[i r]|] eqn:Hk.
    2:{ apply first_key_empty in Hk. by rewrite Hk, lookup_empty in H0. }
    destruct (tryPopConnection_idle _ _ _ Hwf Hk) as (info & Hinfo & Hco & Hi & Hpop).
    apply first_key_lookup in Hk.
    exists i, r, info. eexists. split_and!; try done.
    + simpl. by rewrite lookup_delete_eq.
    + simpl. by apply (idle_in_all _ _ _ (wf_consistent _ Hwf)).
    + simpl. by rewrite lookup_insert_eq.
    + intros ctx. unfold call, checkDead, popConnection_entry, popConnection_woken, pop_or.
      rewrite Hpop. split_and!; [done|done|]. by intros ->.
  - intros He e. assert (Hk : first_key (idleConnections (pool w)) = None)
      by (by apply first_key_empty).
    unfold popConnection_entry, popConnection_woken, pop_or.
    rewrite (tryPopConnection_empty _ Hk). unfold admission, loop_test, checkDead.
    assert (Hl : match opt_maxConnections (options (pool w)) with
                 | Some m => (m <=? numConnections (pool w))%Z && false
                 | None => false
                 end = false).
    { destruct (opt_maxConnections _); [apply andb_false_r|done]. }
    rewrite Hl. by destruct (deadError (pool w)).
Qed.

Lemma idle_record_beats_cancellation_witness :
  let wa := addConnection 10 (createPool {["Pg"]} pg_max1) in
  let wb := createPool {["Pg"]} pg_max1 in
  (WF wa ∧ idleConnections (pool wa) !! 1%N = Some 0%N ∧
   ∃ i r info w1,
     idleConnections (pool wa) !! i = Some r ∧ infos wa !! r = Some info ∧
     info_id info = i ∧ checkedOut info = false ∧
     w1 = with_infos (<[r := set_checkedOut true info]>)
            (with_pool (set_idle (delete i) Z.pred) wa) ∧
     tryPopConnection wa = (w1, Ret (Some (info_conn info))) ∧
     idleConnections (pool w1) = delete i (idleConnections (pool wa)) ∧
     idleConnections (pool w1) !! i = None ∧
     numIdleConnections (pool w1) = (numIdleConnections (pool wa) - 1)%Z ∧
     allConnections (pool w1) !! i = Some r ∧
     infos w1 !! r = Some (set_checkedOut true info) ∧
     checkedOut (set_checkedOut true info) = true ∧
     ∀ ctx,
       popConnection_entry OpQuery ctx wa =
         (log_call (driver_call OpQuery (info_conn info)) w1, AwaitDriver (info_conn info)) ∧
       popConnection_woken OpQuery ctx wa =
         (log_call (driver_call OpQuery (info_conn info)) w1, AwaitDriver (info_conn info)) ∧
       (deadError (pool wa) = None →
        call OpQuery ctx wa =
          (log_call (driver_call OpQuery (info_conn info)) w1,
           AwaitDriver (info_conn info)))) ∧
  (WF wb ∧ idleConnections (pool wb) = ∅ ∧
   ∀ e,
     popConnection_entry OpQuery (Some e) wb =
       (wb, Settled (Throw (default e (deadError (pool wb))))) ∧
     popConnection_woken OpQuery (Some e) wb =
       (wb, Settled (Throw (default e (deadError (pool wb)))))).
Proof.
  intros wa wb.
  assert (Ha : WF wa) by apply WF_addConnection, WF_createPool.
  assert (Hb : WF wb) by apply WF_createPool.
  assert (Hi : idleConnections (pool wa) !! 1%N = Some 0%N) by (by vm_compute).
  assert (He : idleConnections (pool wb) = ∅) by reflexivity.
  split.
  - split; [exact Ha|]. split; [exact Hi|].
    exact (proj1 (idle_record_beats_cancellation OpQuery wa Ha) 1%N 0%N Hi).
  - split; [exact Hb|]. split; [exact He|].
    exact (proj2 (idle_record_beats_cancellation OpQuery wb Hb) He).
Defined.

(** ** The invariant along every schedule *)

Lemma WF_admission ctx w : WF w → WF (admission ctx w).1.
Proof.
  intros Hwf. unfold admission.
  destruct (loop_test ctx (pool w)).
  - destruct (wait w) as [w1 p] eqn:E. simpl.
    eapply WF_same; [|done]. pose proof (same_wait w) as H. by rewrite E in H.
  - destruct (checkDead w); [|done]. destruct ctx as [e|]; [done|]. simpl.
    destruct (connect w) as [w1 [u|e]] eqn:E; simpl;
      (eapply WF_same; [|done]); pose proof (same_connect w) as H; by rewrite E in H.
Qed.

Lemma WF_pop_or op rest w :
  (∀ w0, WF w0 → WF (rest w0).1) → WF w → WF (pop_or op rest w).1.
Proof.
  intros Hrest Hwf. unfold pop_or.
  destruct (tryPopConnection w) as [w1 res] eqn:E.
  destruct (WF_tryPopConnection _ _ _ Hwf E) as [Hwf1 [oc ->]].
  destruct oc as [c|]; [|by apply Hrest].
  simpl. eapply WF_same; [apply same_log_call|done].
Qed.

Lemma WF_call op ctx w : WF w → WF (call op ctx w).1.
Proof.
  intros Hwf. unfold call. destruct (checkDead w); [|done].
  apply WF_pop_or; [|done]. intros w0. apply WF_admission.
Qed.

Lemma WF_finish op c out w w' r made :
  WF w → finish op c out w = Some (w', r, made) → WF w'.
Proof.
  intros Hwf. unfold finish.
  assert (Hret : ∀ k : World * Res unit → option (World * Res Value * bool),
            (∀ w1 r1, k (w1, r1) = Some (w', r, made) → w1 = w') →
            (returnConnection c w ≫= k) = Some (w', r, made) → WF w').
  { intros k Hk H. destruct (returnConnection c w) as [[w1 r1]|] eqn:E; [|done].
    simpl in H. apply Hk in H as <-. eapply WF_returnConnection; eauto. }
  destruct op, out; try (intros [= <- <- <-]; done);
    apply Hret; intros w1 [u|e1] H; simpl in H; congruence.
Qed.

Lemma WF_step e s s' : WF (world s) → step e s = Some s' → WF (world s').
Proof.
  intros Hwf. destruct e as [t op ctx|t e|t|t c|t e|t|t e|c|]; simpl.
  - destruct (tasks s !! t); [done|].
    destruct (call op ctx (world s)) as [w1 st] eqn:E. intros [= <-]. simpl.
    pose proof (WF_call op ctx _ Hwf) as H. by rewrite E in H.
  - destruct (tasks s !! t) as [k|]; [|done]. by intros [= <-].
  - destruct (tasks s !! t) as [k|]; [|done]. simpl.
    destruct (task_state k); try done.
    + case_decide as Hp; [|done].
      destruct (popConnection_woken _ _ _) as [w1 st] eqn:E. intros [= <-]. simpl.
      pose proof (WF_pop_or (task_op k) (admission (ctx_error k)) _
                    (λ w0, WF_admission _ w0) Hwf) as H.
      unfold popConnection_woken in E. by rewrite E in H.
    + destruct (popConnection_opened _ _) as [w1 st] eqn:E. intros [= <-]. simpl.
      pose proof (WF_pop_or (task_op k)
                    (λ w, (w, Settled (Throw (JsError msg_cannot_open)))) _
                    (λ w0 H0, H0) Hwf) as H.
      unfold popConnection_opened in E. by rewrite E in H.
  - destruct (tasks s !! t) as [k|]; [|done]. simpl.
    destruct (task_state k); try done. intros [= <-]. simpl. by apply WF_addConnection.
  - destruct (tasks s !! t) as [k|]; [|done]. simpl.
    destruct (task_state k); try done. by intros [= <-].
  - destruct (tasks s !! t) as [k|]; [|done]. simpl.
    destruct (task_state k); try done.
    destruct (finish _ _ _ _) as [[[w1 r] made]|] eqn:E; [|done]. simpl.
    intros [= <-]. simpl. eapply WF_finish; eauto.
  - destruct (tasks s !! t) as [k|]; [|done]. simpl.
    destruct (task_state k); try done.
    destruct (finish _ _ _ _) as [[[w1 r] made]|] eqn:E; [|done]. simpl.
    intros [= <-]. simpl. eapply WF_finish; eauto.
  - case_decide; [|done].
    destruct (returnConnection c (world s)) as [[w1 r]|] eqn:E; [|done]. simpl.
    intros [= <-]. simpl. eapply WF_returnConnection; eauto.
  - intros [= <-]. simpl. eapply WF_same; [apply same_pool_close|done].
Qed.

Lemma WF_run tr s s' : WF (world s) → run tr s = Some s' → WF (world s').
Proof.
  revert s. induction tr as [|e tr IH]; intros s Hwf; simpl.
  - by intros [= <-].
  - destruct (step e s) as [s1|] eqn:E; [|done]. simpl.
    apply IH. eapply WF_step; eauto.
Qed.

Lemma WF_reachable drivers o tr s : run tr (boot drivers o) = Some s → WF (world s).
Proof. apply WF_run. apply WF_createPool. Qed.

(** Every state a schedule leads to is consistent. *)
Lemma reachable_consistent drivers o tr s :
  run tr (boot drivers o) = Some s → consistent (world s).
Proof. intros H. apply wf_consistent. eapply WF_reachable; eauto. Qed.

(** ** [deadError] is written by [close()] only *)

Lemma dead_addConnection c w : deadError (pool (addConnection c w)) = deadError (pool w).
Proof. done. Qed.

Lemma dead_removeConnection r w : deadError (pool (removeConnection r w)) = deadError (pool w).
Proof. done. Qed.

Lemma dead_tryPopConnection w : deadError (pool (tryPopConnection w).1) = deadError (pool w).
Proof.
  unfold tryPopConnection. destruct (first_key _) as [[i r]|]; [|done].
  by destruct (checkedOut _).
Qed.

Lemma dead_trim_turn w : deadError (pool (trim_turn w)) = deadError (pool w).
Proof. unfold trim_turn. by destruct (first_key _) as [[i r]|]. Qed.

Lemma dead_trimIdle_loop turns w w' :
  trimIdle_loop turns w = Some w' → deadError (pool w') = deadError (pool w).
Proof.
  revert w. induction turns as [|k IH]; intros w; simpl; case_decide; try done.
  - by intros [= <-].
  - intros H1. rewrite (IH _ H1). apply dead_trim_turn.
  - by intros [= <-].
Qed.

Lemma dead_returnConnection c w w' res :
  returnConnection c w = Some (w', res) → deadError (pool w') = deadError (pool w).
Proof.
  unfold returnConnection. destruct (symConnInfo w !! c) as [r|]; [|by intros [= <- <-]].
  destruct (negb _); [by intros [= <- <-]|].
  destruct (negb _); [by intros [= <- <-]|].
  destruct (trimIdle _) as [w3|] eqn:E; [|done]. intros [= <- <-].
  unfold trimIdle in E. by rewrite (dead_trimIdle_loop _ _ _ E).
Qed.

Lemma dead_wait w : deadError (pool (wait w).1) = deadError (pool w).
Proof. unfold wait. by destruct (closed _). Qed.

Lemma dead_connect w : deadError (pool (connect w).1) = deadError (pool w).
Proof. unfold connect. by case_decide. Qed.

Lemma dead_admission ctx w : deadError (pool (admission ctx w).1) = deadError (pool w).
Proof.
  unfold admission. destruct (loop_test _ _).
  - pose proof (dead_wait w) as H. by destruct (wait w).
  - destruct (checkDead w); [|done]. destruct ctx; [done|]. simpl.
    pose proof (dead_connect w) as H. by destruct (connect w) as [w1 [u|e]].
Qed.

Lemma dead_pop_or op rest w :
  (∀ w0, deadError (pool (rest w0).1) = deadError (pool w0)) →
  deadError (pool (pop_or op rest w).1) = deadError (pool w).
Proof.
  intros Hrest. unfold pop_or. pose proof (dead_tryPopConnection w) as H.
  destruct (tryPopConnection w) as [w1 [[c|]|e]]; simpl in *; try done.
  by rewrite Hrest.
Qed.

Lemma dead_finish op c out w w' r made :
  finish op c out w = Some (w', r, made) → deadError (pool w') = deadError (pool w).
Proof.
  unfold finish.
  assert (Hret : ∀ k : World * Res unit → option (World * Res Value * bool),
            (∀ w1 r1, k (w1, r1) = Some (w', r, made) → w1 = w') →
            (returnConnection c w ≫= k) = Some (w', r, made) →
            deadError (pool w') = deadError (pool w)).
  { intros k Hk H. destruct (returnConnection c w) as [[w1 r1]|] eqn:E; [|done].
    simpl in H. apply Hk in H as <-. eapply dead_returnConnection; eauto. }
  destruct op, out; try (intros [= <- <- <-]; done);
    apply Hret; intros w1 [u|e1] H; simpl in H; congruence.
Qed.

Lemma dead_pool_close w e :
  deadError (pool w) = Some e → pool_close w = w.
Proof. unfold pool_close. by intros ->. Qed.

Lemma dead_after_close w : is_Some (deadError (pool (pool_close w))).
Proof. unfold pool_close. destruct (deadError (pool w)) eqn:E; [by rewrite E|]. by eexists. Qed.

Lemma dead_step ev s s' e :
  deadError (pool (world s)) = Some e → step ev s = Some s' →
  deadError (pool (world s')) = Some e.
Proof.
  intros Hd. destruct ev as [t op ctx|t e0|t|t c|t e0|t|t e0|c|]; simpl.
  - destruct (tasks s !! t); [done|]. unfold call, checkDead. rewrite Hd. by intros [= <-].
  - destruct (tasks s !! t) as [k|]; [|done]. by intros [= <-].
  - destruct (tasks s !! t) as [k|]; [|done]. simpl.
    destruct (task_state k); try done.
    + case_decide as Hp; [|done].
      pose proof (dead_pop_or (task_op k) (admission (ctx_error k)) (world s)
                    (dead_admission _)) as H.
      unfold popConnection_woken. destruct (pop_or _ _ _) as [w1 st]. intros [= <-].
      simpl in *. congruence.
    + pose proof (dead_pop_or (task_op k)
                    (λ w, (w, Settled (Throw (JsError msg_cannot_open)))) (world s)
                    (λ _, eq_refl)) as H.
      unfold popConnection_opened. destruct (pop_or _ _ _) as [w1 st]. intros [= <-].
      simpl in *. congruence.
  - destruct (tasks s !! t) as [k|]; [|done]. simpl.
    destruct (task_state k); try done. by intros [= <-].
  - destruct (tasks s !! t) as [k|]; [|done]. simpl.
    destruct (task_state k); try done. by intros [= <-].
  - destruct (tasks s !! t) as [k|]; [|done]. simpl.
    destruct (task_state k); try done.
    destruct (finish _ _ _ _) as [[[w1 r] made]|] eqn:E; [|done]. simpl.
    intros [= <-]. simpl. apply dead_finish in E. congruence.
  - destruct (tasks s !! t) as [k|]; [|done]. simpl.
    destruct (task_state k); try done.
    destruct (finish _ _ _ _) as [[[w1 r] made]|] eqn:E; [|done]. simpl.
    intros [= <-]. simpl. apply dead_finish in E. congruence.
  - case_decide; [|done].
    destruct (returnConnection c (world s)) as [[w1 r]|] eqn:E; [|done]. simpl.
    intros [= <-]. simpl. apply dead_returnConnection in E. congruence.
  - intros [= <-]. simpl. by rewrite (dead_pool_close _ _ Hd).
Qed.

Lemma dead_run tr s s' e :
  deadError (pool (world s)) = Some e → run tr s = Some s' →
  deadError (pool (world s')) = Some e.
Proof.
  revert s. induction tr as [|ev tr IH]; intros s Hd; simpl.
  - by intros [= <-].
  - destruct (step ev s) as [s1|] eqn:E; [|done]. simpl.
    apply IH. eapply dead_step; eauto.
Qed.

(** C6: once [close()] has been called on the pool, [deadError] is set
    and stays the same error along every later schedule; from then on a
    call of exec, query or begin is settled at once with that error, with
    the world (pool, records, driver log) untouched, so before any
    checkout or driver call; and another [close()] changes nothing. *)
Theorem closed_pool_is_terminal (s s1 s' : Sys) (tr : list Event) :
  step EvClose s = Some s1 → run tr s1 = Some s' →
  ∃ e, deadError (pool (world s1)) = Some e ∧
       deadError (pool (world s')) = Some e ∧
       (∀ t op ctx, tasks s' !! t = None →
          step (EvCall t op ctx) s' =
            Some (mkSys (world s') (<[t := mkTask op ctx (Settled (Throw e))]> (tasks s'))
                        (adapters s'))) ∧
       step EvClose s' = Some s'.
Proof.
  intros Hc Hrun.
  assert (Hw : world s1 = pool_close (world s)) by (simpl in Hc; by injection Hc as <-).
  destruct (dead_after_close (world s)) as [e He]. rewrite <- Hw in He. exists e.
  pose proof (dead_run _ _ _ _ He Hrun) as He'.
  split; [done|]. split; [done|]. split.
  - intros t op ctx Ht. simpl. rewrite Ht. unfold call, checkDead. by rewrite He'.
  - simpl. rewrite (dead_pool_close _ _ He'). by destruct s'.
Qed.

Lemma closed_pool_is_terminal_witness :
  let s := boot {["Pg"]} (mkOptions "Pg" 0 None (Some 1%Z)) in
  ∃ s1 s', step EvClose s = Some s1 ∧
    run [EvCall 1 OpExec None; EvClose] s1 = Some s' ∧
    ∃ e, deadError (pool (world s1)) = Some e ∧
       deadError (pool (world s')) = Some e ∧
       (∀ t op ctx, tasks s' !! t = None →
          step (EvCall t op ctx) s' =
            Some (mkSys (world s') (<[t := mkTask op ctx (Settled (Throw e))]> (tasks s'))
                        (adapters s'))) ∧
       step EvClose s' = Some s'.
Proof.
  eexists _, _. split; [vm_compute; reflexivity|]. split; [vm_compute; reflexivity|].
  apply (closed_pool_is_terminal (boot {["Pg"]} (mkOptions "Pg" 0 None (Some 1%Z))) _ _
           [EvCall 1 OpExec None; EvClose]); vm_compute; reflexivity.
Defined.

(** ** Schedules that interleave checkouts *)

Lemma run_app tr1 tr2 s : run (tr1 ++ tr2) s = run tr1 s ≫= run tr2.
Proof.
  revert s. induction tr1 as [|e tr1 IH]; intros s; simpl; [done|].
  destruct (step e s) as [s1|]; simpl; [apply IH|done].
Qed.

(** The scenario of a pool with ceiling 1: the second query waits while
    the first holds its stream, and takes the same connection once the
    stream is done. *)
Example blocked_query_takes_over :
  (λ s, (state_of 2 s, numConnections (pool (world s)), driverLog (world s)))
  <$> run [EvCall 1 OpQuery None; EvConnected 1 10; EvResume 1; EvDriverOk 1;
           EvCall 2 OpQuery None; EvAdapterReturn 10; EvResume 2; EvDriverOk 2]
          (boot {["Pg"]} pg_max1)
  = Some (Some (Settled (Ret (VRows 10))), 1%Z, [DConnect "Pg" 0; DQuery 10; DQuery 10]).
Proof. vm_compute. reflexivity. Qed.


(** C1, evaluated on the code: with [maxConnections = 1], two calls of
    exec made before either connection is open both pass the ceiling
    test, both wait for the driver, and both register their connection:
    [numConnections] is 2, above the ceiling, and both calls go on with a
    connection of their own. *)
Theorem admission_overshoots :
  (λ s, (opt_maxConnections (options (pool (world s))),
         numConnections (pool (world s)),
         size (allConnections (pool (world s))),
         state_of 1 s, state_of 2 s))
  <$> run [EvCall 1 OpExec None; EvCall 2 OpExec None;
           EvConnected 1 10; EvConnected 2 11;
           EvResume 1; EvResume 2] (boot {["Pg"]} pg_max1)
  = Some (Some 1%Z, 2%Z, 2, Some (AwaitDriver 10), Some (AwaitDriver 11)).
Proof. vm_compute. reflexivity. Qed.

(** C9, evaluated on the code: call 1 has its new connection registered
    and is suspended on [__openAdditionalConnection]; call 2 enters and
    pops that idle record; call 1 resumes, finds no idle record and
    throws "DB pool cannot open additional connection". *)
Theorem fresh_connection_can_be_taken :
  (λ s, (state_of 1 s, state_of 2 s))
  <$> run [EvCall 1 OpExec None; EvConnected 1 10;
           EvCall 2 OpExec None; EvResume 1] (boot {["Pg"]} pg)
  = Some (Some (Settled (Throw (JsError msg_cannot_open))), Some (AwaitDriver 10)).
Proof. vm_compute. reflexivity. Qed.

Lemma spinning_check_sound t s : spinning_check t s = true → spinning t s.
Proof.
  unfold spinning_check, spinning.
  destruct (tasks s !! t) as [[op [e|] []]|]; try done.
  rewrite !andb_true_iff, !bool_decide_eq_true. intros [[[[? ?] ?] ?] ?]. eauto 10.
Qed.

Lemma spinning_step t s :
  spinning t s → ∃ s', step (EvResume t) s = Some s' ∧ spinning t s'.
Proof.
  intros (op & p & Ht & Hp & Hidle & Hcl & Hloop & Hdead).
  simpl. rewrite Ht. simpl. rewrite decide_True by done.
  unfold popConnection_woken, pop_or.
  rewrite tryPopConnection_empty by (by apply first_key_empty).
  unfold admission. rewrite Hloop. unfold wait. rewrite Hcl.
  eexists. split; [reflexivity|].
  exists op, (nextPromise (world s)). simpl.
  rewrite lookup_insert_eq. split; [done|]. split; [set_solver|]. done.
Qed.

Lemma spinning_forever t n s :
  spinning t s → ∃ s', run (replicate n (EvResume t)) s = Some s' ∧ spinning t s'.
Proof.
  revert s. induction n as [|n IH]; intros s Hs; [by exists s|].
  destruct (spinning_step _ _ Hs) as (s1 & Hstep & Hs1).
  change (run (replicate (S n) (EvResume t)) s)
    with (step (EvResume t) s ≫= run (replicate n (EvResume t))).
  rewrite Hstep. by apply IH.
Qed.

(** C2, evaluated on the code: a query holds the only connection of a
    pool with ceiling 1, an exec waits at the gate, and the pool is
    closed.  Resumed any number of times, the exec is still in the loop
    of [__popConnection], awaiting the gate: the loop tests the ceiling
    and the context, not [deadError], and [wait()] on a closed gate
    returns at once.  It never fails and never ends. *)
Theorem closed_pool_waiter_spins (n : nat) :
  ∃ s p, run (blocked_then_closed ++ replicate n (EvResume 2)) (boot {["Pg"]} pg_max1) = Some s ∧
         deadError (pool (world s)) = Some (JsError msg_closed) ∧
         ctx_error <$> tasks s !! 2%N = Some None ∧
         state_of 2 s = Some (AwaitGate p) ∧
         p ∈ settled (world s).
Proof.
  rewrite run_app.
  destruct (run blocked_then_closed (boot {["Pg"]} pg_max1)) as [s0|] eqn:E;
    [|vm_compute in E; discriminate].
  assert (Hs : spinning 2 s0).
  { apply spinning_check_sound.
    assert (Hc : spinning_check 2 <$> run blocked_then_closed (boot {["Pg"]} pg_max1)
                 = Some true) by (vm_compute; reflexivity).
    rewrite E in Hc. by injection Hc. }
  simpl. destruct (spinning_forever 2 n _ Hs) as (s & Hrun & op & p & Ht & Hp & _ & _ & _ & Hd).
  exists s, p. split; [done|]. split; [done|]. unfold state_of. by rewrite Ht.
Qed.

(** ** The row-stream adapter *)

Section RowsFacts.
Context {W : Type} (f : W → option (W * Res unit)).

(** The return latch: once [__done] is set the callback is out of reach. *)
Lemma checkStatus_done {D} (x : DBPoolRowsWrapper D) w :
  rw_done x = true → checkStatus f x w = Some (x, w, Ret tt).
Proof. unfold checkStatus. intros ->. by rewrite andb_false_r. Qed.

Lemma rows_use_done {D} u (x : DBPoolRowsWrapper D) w x' w' :
  rw_done x = true → rows_use f u x w = Some (x', w') → w' = w ∧ rw_done x' = true.
Proof.
  intros Hd. destruct u; simpl.
  - unfold rw_next. rewrite checkStatus_done by done. simpl.
    unfold rw_next_settled. simpl. destruct (rows_next_settle D _).
    by intros [= <- <-].
  - unfold rw_close. destruct (rows_close D _) as [u [[]|e]].
    + rewrite checkStatus_done by done. simpl. by intros [= <- <-].
    + simpl. by intros [= <- <-].
Qed.

Lemma rows_uses_done {D} us (x : DBPoolRowsWrapper D) w x' w' :
  rw_done x = true → rows_uses f us x w = Some (x', w') → w' = w ∧ rw_done x' = true.
Proof.
  revert x w. induction us as [|u us IH]; intros x w Hd; simpl.
  - by intros [= <- <-].
  - destruct (rows_use f u x w) as [[x1 w1]|] eqn:E; [|done]. simpl.
    destruct (rows_use_done _ _ _ _ _ Hd E) as [-> Hd1]. by apply IH.
Qed.

(** Draining the stream of a driver that reads off the wire: no call of
    [next()] sees [done], so the callback never runs. *)
Lemma wire_rows_for_await rows seen w :
  for_await f (S (length rows)) (mkRowsWrapper (D := wire_rows) (mkWire rows false) false) w seen
  = Some (mkRowsWrapper (D := wire_rows) (mkWire [] true) false, w, Ret (rev seen ++ rows)).
Proof.
  revert seen. induction rows as [|r rows IH]; intros seen.
  - simpl. by rewrite app_nil_r.
  - change (for_await f (S (length (r :: rows)))
              (mkRowsWrapper (D := wire_rows) (mkWire (r :: rows) false) false) w seen)
      with (for_await f (S (length rows))
              (mkRowsWrapper (D := wire_rows) (mkWire rows false) false) w (r :: seen)).
    rewrite IH. simpl. by rewrite <- app_assoc.
Qed.

End RowsFacts.

Lemma rows_uses_app {W} (f : W → option (W * Res unit)) {D} us1 us2 (x : DBPoolRowsWrapper D) w :
  rows_uses f (us1 ++ us2) x w = rows_uses f us1 x w ≫= (λ '(x1, w1), rows_uses f us2 x1 w1).
Proof.
  revert x w. induction us1 as [|u us1 IH]; intros x w; simpl; [done|].
  destruct (rows_use f u x w) as [[x1 w1]|]; simpl; [apply IH|done].
Qed.

(** Whatever the driver and whatever the caller does, the callback runs
    at most once, and [__done] tells whether it has. *)
Lemma rows_use_latch {D} u (x : DBPoolRowsWrapper D) n x' n' :
  rw_done x = false → rows_use tally u x n = Some (x', n') →
  (n' = n ∧ rw_done x' = false) ∨ (n' = S n ∧ rw_done x' = true).
Proof.
  intros Hd. destruct u; simpl.
  - unfold rw_next, checkStatus, rw_next_settled. simpl. rewrite Hd, andb_true_r.
    destruct (rows_done D _); simpl; destruct (rows_next_settle D _);
      intros [= <- <-]; simpl; auto.
  - unfold rw_close, checkStatus. destruct (rows_close D _) as [u [[]|e]]; simpl.
    + rewrite Hd, andb_true_r. destruct (rows_done D u); simpl; intros [= <- <-]; auto.
    + intros [= <- <-]. auto.
Qed.

Lemma rows_uses_latch {D} us (x : DBPoolRowsWrapper D) n x' n' :
  rw_done x = false → rows_uses tally us x n = Some (x', n') →
  (n' = n ∧ rw_done x' = false) ∨ (n' = S n ∧ rw_done x' = true).
Proof.
  revert x n. induction us as [|u us IH]; intros x n Hd; simpl.
  - intros [= <- <-]. auto.
  - destruct (rows_use tally u x n) as [[x1 n1]|] eqn:E; [|done]. simpl.
    destruct (rows_use_latch _ _ _ _ _ Hd E) as [[-> Hd1]|[-> Hd1]]; [by apply IH|].
    intros H. apply (rows_uses_done tally) in H as [-> ?]; auto.
Qed.

(** [close()] after anything, on a driver that honours it: the callback
    has run exactly once when [close()] is over, and stays so. *)
Lemma rows_close_returns_once {D} us1 us2 (rows : Rows D) x n :
  closes_done D →
  rows_uses tally (us1 ++ UseClose :: us2) (new_RowsWrapper rows) 0 = Some (x, n) →
  n = 1 ∧ rw_done x = true.
Proof.
  intros HD. rewrite rows_uses_app.
  destruct (rows_uses tally us1 (new_RowsWrapper rows) 0) as [[x1 n1]|] eqn:E1; [|done].
  simpl. destruct (rw_close tally x1 n1) as [[[x2 n2] r]|] eqn:E2; [|done]. simpl.
  assert (H2 : n2 = 1 ∧ rw_done x2 = true).
  { unfold rw_close in E2. destruct (HD (underlying x1)) as [Hr Hdone].
    destruct (rows_close D (underlying x1)) as [u r0]. simpl in *. subst r0.
    unfold checkStatus in E2. simpl in E2. rewrite Hdone in E2. simpl in E2.
    destruct (rows_uses_latch us1 (new_RowsWrapper rows) 0 x1 n1 eq_refl E1)
      as [[-> Hd]|[-> Hd]];
      rewrite Hd in E2; simpl in E2; by injection E2 as <- <- <-. }
  destruct H2 as [-> Hd2]. intros H. by apply (rows_uses_done tally) in H as [-> ?].
Qed.

Lemma closes_done_wire : closes_done wire_rows.
Proof. by intros u. Qed.

Lemma closes_done_held : closes_done held_rows.
Proof. by intros u. Qed.

(** Draining the stream of a driver that holds the whole result: the last
    call of [next()] sees [done] and the callback runs once. *)
Lemma held_rows_for_await {W} (f : W → option (W * Res unit)) rows seen w :
  for_await f (S (length rows)) (mkRowsWrapper (D := held_rows) (mkWire rows false) false) w seen
  = f w ≫= (λ '(w1, r),
      match r with
      | Ret _ => Some (mkRowsWrapper (D := held_rows) (mkWire [] true) true, w1,
                       Ret (rev seen ++ rows))
      | Throw e => Some (mkRowsWrapper (D := held_rows) (mkWire [] true) true, w1, Throw e)
      end).
Proof.
  revert seen. induction rows as [|r rows IH]; intros seen.
  - simpl. unfold rw_next, checkStatus. simpl. destruct (f w) as [[w1 [[]|e]]|]; simpl; try done.
    by rewrite app_nil_r.
  - change (for_await f (S (length (r :: rows)))
              (mkRowsWrapper (D := held_rows) (mkWire (r :: rows) false) false) w seen)
      with (for_await f (S (length rows))
              (mkRowsWrapper (D := held_rows) (mkWire rows false) false) w (r :: seen)).
    rewrite IH. destruct (f w) as [[w1 [[]|e]]|]; simpl; try done. by rewrite <- app_assoc.
Qed.

(** C3, evaluated on the code: a query succeeds and holds connection 10;
    the driver's stream reads rows off the wire.  The caller iterates the
    wrapped stream to its end, whatever the rows.  The underlying stream
    is then [done], the latch of the wrapper has not fired, the pool is
    as it was with connection 10 still checked out, and a callback that
    counts its calls stays at zero: [next()] checks the status before the
    promise it returns is settled. *)
Theorem drained_stream_keeps_connection (rows : list Row) :
  ∃ s, run query_done (boot {["Pg"]} pg) = Some s ∧
       state_of 1 s = Some (Settled (Ret (VRows 10))) ∧
       held 10 (world s) ∧
       for_await (give_back 10) (S (length rows))
         (new_RowsWrapper (D := wire_rows) (mkWire rows false)) (world s) []
       = Some (mkRowsWrapper (D := wire_rows) (mkWire [] true) false, world s, Ret rows) ∧
       for_await tally (S (length rows))
         (new_RowsWrapper (D := wire_rows) (mkWire rows false)) 0 []
       = Some (mkRowsWrapper (D := wire_rows) (mkWire [] true) false, 0, Ret rows).
Proof.
  destruct (run query_done (boot {["Pg"]} pg)) as [s|] eqn:E; [|vm_compute in E; discriminate].
  assert (Hc : (λ s, (state_of 1 s, held_b 10 (world s))) <$> run query_done (boot {["Pg"]} pg)
               = Some (Some (Settled (Ret (VRows 10))), true)) by (vm_compute; reflexivity).
  rewrite E in Hc. injection Hc as H1 H2.
  exists s. split; [done|]. split; [done|]. split; [by apply held_b_sound|].
  unfold new_RowsWrapper. by rewrite !wire_rows_for_await.
Qed.

(** The same caller on the other driver, and a caller that closes. *)
Example drained_held_rows_returns :
  (λ s, (λ '(x, w, r), (rw_done x, r, held_b 10 w, numIdleConnections (pool w)))
        <$> for_await (give_back 10) 2
              (new_RowsWrapper (D := held_rows) (mkWire [["42"]] false)) (world s) [])
  <$> run query_done (boot {["Pg"]} pg)
  = Some (Some (true, Ret [["42"]], false, 1%Z)).
Proof. vm_compute. reflexivity. Qed.

Example closed_wire_rows_returns :
  (λ s, (λ '(x, w), (rw_done x, held_b 10 w, numIdleConnections (pool w)))
        <$> rows_uses (give_back 10) [UseNext; UseClose; UseClose]
              (new_RowsWrapper (D := wire_rows) (mkWire [["1"]; ["2"]] false)) (world s))
  <$> run query_done (boot {["Pg"]} pg)
  = Some (Some (true, false, 1%Z)).
Proof. vm_compute. reflexivity. Qed.

(** ** The transaction adapter *)

Section TxFacts.
Context {W : Type} (f : W → option (W * Res unit)).

Lemma tx_run_app es1 es2 x w :
  tx_run f (es1 ++ es2) x w = tx_run f es1 x w ≫= (λ '(x1, w1), tx_run f es2 x1 w1).
Proof.
  revert x w. induction es1 as [|e es1 IH]; intros x w; simpl; [done|].
  destruct (tx_step f e x w) as [[[x1 w1] r]|]; simpl; [apply IH|done].
Qed.

(** Before the first completion nothing is handed back. *)
Lemma tx_step_open e x w x' w' r :
  completes e = false → returned x = false → tx_step f e x w = Some (x', w', r) →
  w' = w ∧ returned x' = false.
Proof.
  intros He Hr. destruct e as [|[[]|err]| |[[]|err]| |]; try done; simpl;
    unfold tx_check; rewrite ?Hr; try (by intros [= <- <- <-]).
  - destruct (commits_pending x); [done|]. by intros [= <- <- <-].
  - destruct (rollbacks_pending x); [done|]. by intros [= <- <- <-].
Qed.

Lemma tx_run_open es x w x' w' :
  Forall (λ e, completes e = false) es → returned x = false →
  tx_run f es x w = Some (x', w') → w' = w ∧ returned x' = false.
Proof.
  intros Hes. revert x w. induction Hes as [|e es He Hes IH]; intros x w Hr; simpl.
  - by intros [= <- <-].
  - destruct (tx_step f e x w) as [[[x1 w1] r]|] eqn:E; [|done]. simpl.
    destruct (tx_step_open _ _ _ _ _ _ He Hr E) as [-> Hr1]. by apply IH.
Qed.

(** The first completion runs the callback, once. *)
Lemma tx_step_completes e x w x' w' r :
  completes e = true → returned x = false → tx_step f e x w = Some (x', w', r) →
  f w = Some (w', match r with Now r' => r' | Pending => Ret tt end) ∧ returned x' = true.
Proof.
  intros He Hr. destruct e as [|[[]|err]| |[[]|err]| |]; try done; simpl.
  - destruct (commits_pending x); [done|]. unfold returnToPool. simpl. rewrite Hr.
    destruct (f w) as [[w1 r1]|]; [|done]. simpl. by intros [= <- <- <-].
  - destruct (rollbacks_pending x); [done|]. unfold returnToPool. simpl. rewrite Hr.
    destruct (f w) as [[w1 r1]|]; [|done]. simpl. by intros [= <- <- <-].
Qed.

(** After it, the latch is closed for good. *)
Lemma tx_step_returned e x w x' w' r :
  returned x = true → tx_step f e x w = Some (x', w', r) → w' = w ∧ returned x' = true.
Proof.
  intros Hr. destruct e as [|[[]|err]| |[[]|err]| |]; simpl;
    unfold tx_check, returnToPool; simpl; rewrite ?Hr;
    try destruct (commits_pending x); try destruct (rollbacks_pending x);
    simpl; rewrite ?Hr; try done; by intros [= <- <- <-].
Qed.

Lemma tx_run_returned es x w x' w' :
  returned x = true → tx_run f es x w = Some (x', w') → w' = w ∧ returned x' = true.
Proof.
  revert x w. induction es as [|e es IH]; intros x w Hr; simpl.
  - by intros [= <- <-].
  - destruct (tx_step f e x w) as [[[x1 w1] r]|] eqn:E; [|done]. simpl.
    destruct (tx_step_returned _ _ _ _ _ _ Hr E) as [-> Hr1]. by apply IH.
Qed.


End TxFacts.

(** With the callback of [begin]: the first completion hands the
    connection back to a pool that is in order, and nothing undoes it. *)
Lemma tx_gives_back_to_pool c before first after x w w' :
  WF w → held c w → (0 ≤ idle_target (pool w))%Z →
  Forall (λ e, completes e = false) before → completes first = true →
  tx_run (give_back c) (before ++ first :: after) (new_TxWrapper c) w = Some (x, w') →
  give_back c w = Some (w', Ret tt) ∧ WF w' ∧ ¬ held c w' ∧ returned x = true.
Proof.
  intros Hwf Hh Ht Hb Hf Hrun. rewrite tx_run_app in Hrun.
  destruct (tx_run (give_back c) before (new_TxWrapper c) w) as [[x0 w0]|] eqn:E0; [|done].
  destruct (tx_run_open (give_back c) before (new_TxWrapper c) w x0 w0 Hb eq_refl E0)
    as [-> Hr0].
  simpl in Hrun.
  destruct (tx_step (give_back c) first x0 w) as [[[x1 w1] r]|] eqn:E1; [|done].
  simpl in Hrun.
  destruct (tx_step_completes (give_back c) _ _ _ _ _ _ Hf Hr0 E1) as [Hfw Hr1].
  destruct (tx_run_returned (give_back c) _ _ _ _ _ Hr1 Hrun) as [-> Hr].
  destruct (give_back_returns c w Hwf Hh Ht) as (w2 & Hg & Hwf2 & Hnh).
  rewrite Hg in Hfw. injection Hfw as <- _. done.
Qed.





(** A transaction from [begin] to a second [rollback()]. *)
Example begin_rollback_rollback :
  (λ s, (state_of 1 s,
         (λ '(x, w), (returned x, tx_calls x, held_b 10 w, numIdleConnections (pool w),
                      bool_decide (settled w = settled (world s))))
         <$> tx_run (give_back 10)
               [TxRollback; TxRollbackSettled (Ret tt); TxRollback] (new_TxWrapper 10) (world s)))
  <$> run [EvCall 1 OpBegin None; EvConnected 1 10; EvResume 1; EvDriverOk 1]
          (boot {["Pg"]} pg)
  = Some (Some (Settled (Ret (VTx 10))), Some (true, [TRollback], false, 1%Z, true)).
Proof. vm_compute. reflexivity. Qed.

(** * Further properties of the code *)

(** ** Carrying an invariant of the connections along every schedule *)

Lemma closed_conns_app l1 l2 : closed_conns (l1 ++ l2) = closed_conns l1 ++ closed_conns l2.
Proof. apply omap_app. Qed.

Lemma quiet_signal w : quiet w (signal w).
Proof. split; [apply same_signal|done]. Qed.

Lemma quiet_wait w : quiet w (wait w).1.
Proof. split; [apply same_wait|]. unfold wait. by destruct (closed _). Qed.

Lemma quiet_log_call d w : (∀ c, d ≠ DClose c) → quiet w (log_call d w).
Proof.
  intros Hd. split; [apply same_log_call|]. simpl. rewrite closed_conns_app.
  destruct d; simpl; try by rewrite app_nil_r. by destruct (Hd c).
Qed.

Lemma quiet_driver_call op c w : quiet w (log_call (driver_call op c) w).
Proof. apply quiet_log_call. by destruct op. Qed.

Lemma quiet_pool_close w : quiet w (pool_close w).
Proof. split; [apply same_pool_close|]. unfold pool_close. by destruct (deadError _). Qed.

Lemma quiet_connect w : quiet w (connect w).1.
Proof.
  unfold connect. case_decide; simpl; [by apply quiet_log_call|].
  split; [|done]. by repeat split.
Qed.

Section Lifting.

Variable P : World → Prop.
Hypothesis P_same : ∀ w w', quiet w w' → P w → P w'.
Hypothesis P_add : ∀ c w, WF w → P w → P (addConnection c w).
Hypothesis P_remove : ∀ w i r,
  WF w → P w → idleConnections (pool w) !! i = Some r →
  P (log_call (DClose (info_conn (deref w r))) (removeConnection r w)).
Hypothesis P_pop : ∀ w, WF w → P w → P (tryPopConnection w).1.
Hypothesis P_mark : ∀ c w, WF w → P w → held c w → P (before_trim c w).

Lemma lift_trim_turn w : WF w → P w → P (trim_turn w).
Proof using P_remove.
  intros Hwf HP. unfold trim_turn.
  destruct (first_key (idleConnections (pool w))) as [[i r]|] eqn:Hk; [|done].
  eapply P_remove; eauto. by apply first_key_lookup.
Qed.

Lemma WF_trim_turn w : WF w → WF (trim_turn w).
Proof.
  intros Hwf. destruct (first_key (idleConnections (pool w))) as [[i r]|] eqn:Hk.
  - by destruct (trim_turn_idle _ _ _ Hwf Hk).
  - unfold trim_turn. by rewrite Hk.
Qed.

Lemma lift_trimIdle_loop turns w w' :
  WF w → P w → trimIdle_loop turns w = Some w' → P w'.
Proof using P_remove.
  revert w. induction turns as [|k IH]; intros w Hwf HP; simpl; case_decide; try done.
  - by intros [= <-].
  - apply IH; [by apply WF_trim_turn | by apply lift_trim_turn].
  - by intros [= <-].
Qed.

Lemma lift_returnConnection c w w' res :
  WF w → P w → returnConnection c w = Some (w', res) → P w'.
Proof using P_remove P_mark.
  intros Hwf HP H. destruct (returnConnection_cases w c Hwf) as [Hh|[e He]].
  - destruct (WF_before_trim _ _ Hwf Hh) as (Hwf2 & _ & _ & _ & Heq).
    rewrite Heq in H. destruct (trimIdle (before_trim c w)) as [w3|] eqn:Ht; [|done].
    injection H as <- <-. eapply lift_trimIdle_loop; [exact Hwf2| |exact Ht].
    by apply P_mark.
  - rewrite He in H. by injection H as <- <-.
Qed.

Lemma lift_admission ctx w : P w → P (admission ctx w).1.
Proof using P_same.
  intros HP. unfold admission. destruct (loop_test ctx (pool w)).
  - destruct (wait w) as [w1 p] eqn:E. simpl.
    eapply P_same; [|done]. pose proof (quiet_wait w) as H. by rewrite E in H.
  - destruct (checkDead w); [|done]. destruct ctx as [e|]; [done|]. simpl.
    destruct (connect w) as [w1 [u|e]] eqn:E; simpl;
      (eapply P_same; [|done]); pose proof (quiet_connect w) as H; by rewrite E in H.
Qed.

Lemma lift_pop_or op rest w :
  (∀ w0, P w0 → P (rest w0).1) → WF w → P w → P (pop_or op rest w).1.
Proof using P_same P_pop.
  intros Hrest Hwf HP. unfold pop_or. pose proof (P_pop w Hwf HP) as H.
  destruct (tryPopConnection w) as [w1 [[c|]|e]]; simpl in *; [|by apply Hrest|done].
  eapply P_same; [apply quiet_driver_call|done].
Qed.

Lemma lift_finish op c out w w' r made :
  WF w → P w → finish op c out w = Some (w', r, made) → P w'.
Proof using P_remove P_mark.
  intros Hwf HP. unfold finish.
  assert (Hret : ∀ k : World * Res unit → option (World * Res Value * bool),
            (∀ w1 r1, k (w1, r1) = Some (w', r, made) → w1 = w') →
            (returnConnection c w ≫= k) = Some (w', r, made) → P w').
  { intros k Hk H. destruct (returnConnection c w) as [[w1 r1]|] eqn:E; [|done].
    simpl in H. apply Hk in H as <-. eapply lift_returnConnection; eauto. }
  destruct op, out; try (intros [= <- <- <-]; done);
    apply Hret; intros w1 [u|e1] H; simpl in H; congruence.
Qed.

Lemma lift_step e s s' :
  WF (world s) → P (world s) → step e s = Some s' → P (world s').
Proof using All.
  intros Hwf HP. destruct e as [t op ctx|t e|t|t c|t e|t|t e|c|]; simpl.
  - destruct (tasks s !! t); [done|]. unfold call.
    destruct (checkDead (world s)); [|by intros [= <-]].
    pose proof (lift_pop_or op (admission ctx) _ (λ w0, lift_admission _ w0) Hwf HP) as H.
    unfold popConnection_entry. destruct (pop_or _ _ _) as [w1 st]. by intros [= <-].
  - destruct (tasks s !! t) as [k|]; [|done]. by intros [= <-].
  - destruct (tasks s !! t) as [k|]; [|done]. simpl.
    destruct (task_state k); try done.
    + case_decide as Hp; [|done].
      pose proof (lift_pop_or (task_op k) (admission (ctx_error k)) _
                    (λ w0, lift_admission _ w0) Hwf HP) as H.
      unfold popConnection_woken. destruct (pop_or _ _ _) as [w1 st]. by intros [= <-].
    + pose proof (lift_pop_or (task_op k)
                    (λ w, (w, Settled (Throw (JsError msg_cannot_open)))) _
                    (λ w0 H0, H0) Hwf HP) as H.
      unfold popConnection_opened. destruct (pop_or _ _ _) as [w1 st]. by intros [= <-].
  - destruct (tasks s !! t) as [k|]; [|done]. simpl.
    destruct (task_state k); try done. intros [= <-]. simpl. by apply P_add.
  - destruct (tasks s !! t) as [k|]; [|done]. simpl.
    destruct (task_state k); try done. by intros [= <-].
  - destruct (tasks s !! t) as [k|]; [|done]. simpl.
    destruct (task_state k); try done.
    destruct (finish _ _ _ _) as [[[w1 r] made]|] eqn:E; [|done]. simpl.
    intros [= <-]. simpl. eapply lift_finish; eauto.
  - destruct (tasks s !! t) as [k|]; [|done]. simpl.
    destruct (task_state k); try done.
    destruct (finish _ _ _ _) as [[[w1 r] made]|] eqn:E; [|done]. simpl.
    intros [= <-]. simpl. eapply lift_finish; eauto.
  - case_decide; [|done].
    destruct (returnConnection c (world s)) as [[w1 r]|] eqn:E; [|done]. simpl.
    intros [= <-]. simpl. eapply lift_returnConnection; eauto.
  - intros [= <-]. simpl. eapply P_same; [apply quiet_pool_close|done].
Qed.

Lemma lift_run tr s s' :
  WF (world s) → P (world s) → run tr s = Some s' → P (world s').
Proof using All.
  revert s. induction tr as [|e tr IH]; intros s Hwf HP; simpl.
  - by intros [= <-].
  - destruct (step e s) as [s1|] eqn:E; [|done]. simpl.
    apply IH; [eapply WF_step | eapply lift_step]; eauto.
Qed.

End Lifting.

(** The same for a property that does not read the driver log. *)
Section Lifting_connections.

Variable P : World → Prop.
Hypothesis P_same : ∀ w w', same_connections w w' → P w → P w'.
Hypothesis P_add : ∀ c w, WF w → P w → P (addConnection c w).
Hypothesis P_remove : ∀ w i r,
  WF w → P w → idleConnections (pool w) !! i = Some r → P (removeConnection r w).
Hypothesis P_pop : ∀ w, WF w → P w → P (tryPopConnection w).1.
Hypothesis P_mark : ∀ c w, WF w → P w → held c w → P (before_trim c w).

Lemma lift_run_connections tr s s' :
  WF (world s) → P (world s) → run tr s = Some s' → P (world s').
Proof using All.
  apply (lift_run P); [|done| |done|done].
  - intros w w' [H _]. by apply P_same.
  - intros w i r Hwf HP Hi. eapply P_same; [apply same_log_call|]. by eapply P_remove.
Qed.

End Lifting_connections.

Lemma same_out_flag w w' : same_connections w w' → out_flag w → out_flag w'.
Proof.
  intros (_ & _ & Hi & _ & _ & _ & Ha & _ & Hd & _) H i r info.
  rewrite Ha, Hd, Hi. apply H.
Qed.

(** Two entries of [allConnections] never share a record. *)
Lemma all_ref_inj w i j r :
  WF w → allConnections (pool w) !! i = Some r → allConnections (pool w) !! j = Some r → i = j.
Proof.
  intros Hwf Hi Hj.
  destruct (wf_records _ Hwf _ _ Hi) as (x & Hx & <- & _).
  destruct (wf_records _ Hwf _ _ Hj) as (y & Hy & <- & _). congruence.
Qed.

Lemma out_flag_addConnection c w : WF w → out_flag w → out_flag (addConnection c w).
Proof.
  intros Hwf H i r info. simpl. rewrite lookup_insert.
  case_decide as E; [subst i; intros _; by rewrite lookup_insert_eq|].
  rewrite lookup_insert_ne by done. intros Hall Hidle.
  rewrite lookup_insert_ne.
  - intros Hinfo. by apply (H i r info).
  - intros Heq. subst r. destruct (wf_records _ Hwf _ _ Hall) as (x & Hx & _).
    apply (wf_fresh_ref _ Hwf) in Hx. lia.
Qed.

Lemma out_flag_removeConnection w i r :
  WF w → out_flag w → idleConnections (pool w) !! i = Some r → out_flag (removeConnection r w).
Proof.
  intros Hwf H Hidle j r' info.
  pose proof (idle_in_all _ _ _ (wf_consistent _ Hwf) Hidle) as Hall.
  destruct (wf_records _ Hwf _ _ Hall) as (x & Hx & Hxi & _).
  unfold removeConnection. rewrite (deref_Some _ _ _ Hx). simpl. rewrite Hxi.
  rewrite lookup_delete. case_decide as E; [done|]. rewrite lookup_delete_ne by done.
  intros Hj Hjd. rewrite lookup_insert_ne; [intros Hinfo'; by apply (H j r' info)|].
  intros <-. by apply E, (all_ref_inj w i j r).
Qed.

Lemma out_flag_tryPopConnection w : WF w → out_flag w → out_flag (tryPopConnection w).1.
Proof.
  intros Hwf H.
  destruct (first_key (idleConnections (pool w))) as [[i r]|] eqn:Hk.
  2:{ by rewrite tryPopConnection_empty. }
  destruct (tryPopConnection_idle _ _ _ Hwf Hk) as (info & Hinfo & Hco & Hi & ->).
  apply first_key_lookup in Hk.
  pose proof (idle_in_all _ _ _ (wf_consistent _ Hwf) Hk) as Hall.
  intros j r' info'. simpl. rewrite lookup_delete. case_decide as E.
  - subst j. rewrite Hall. intros [= <-] _. rewrite lookup_insert_eq. by intros [= <-].
  - intros Hj Hjd. rewrite lookup_insert_ne; [intros Hinfo'; by apply (H j r' info')|].
    intros <-. by apply E, (all_ref_inj w i j r).
Qed.

Lemma out_flag_before_trim c w : WF w → out_flag w → held c w → out_flag (before_trim c w).
Proof.
  intros Hwf H (r & info & Hs & Hinfo & Hp & Hco).
  destruct (held_not_idle _ _ _ _ Hwf Hs Hinfo Hp Hco) as [Hall Hidle].
  unfold before_trim. rewrite Hs, (deref_Some _ _ _ Hinfo).
  intros j r' info'. simpl. rewrite lookup_insert. case_decide as E; [done|].
  intros Hj Hjd. rewrite lookup_insert_ne; [intros Hinfo'; by apply (H j r' info')|].
  intros <-. by apply E, (all_ref_inj w (info_id info) j r).
Qed.

Lemma out_flag_reachable drivers o tr s :
  run tr (boot drivers o) = Some s → out_flag (world s).
Proof.
  apply (lift_run_connections out_flag same_out_flag out_flag_addConnection out_flag_removeConnection
           out_flag_tryPopConnection out_flag_before_trim).
  - apply WF_createPool.
  - by intros i r info.
Qed.

Lemma checked_out_difference w :
  WF w → out_flag w →
  checked_out w = allConnections (pool w) ∖ idleConnections (pool w).
Proof.
  intros Hwf H. apply map_eq. intros i. apply option_eq. intros r.
  unfold checked_out. rewrite map_lookup_filter_Some, lookup_difference_Some. simpl.
  split; intros [Hall Hx]; (split; [done|]).
  - destruct (idleConnections (pool w) !! i) as [r'|] eqn:E; [|done].
    pose proof (idle_in_all _ _ _ (wf_consistent _ Hwf) E) as Hall'.
    assert (r' = r) by congruence. subst r'.
    destruct (cons_idle_free _ (wf_consistent _ Hwf) _ _ E) as (info & Hinfo & Hco).
    rewrite (deref_Some _ _ _ Hinfo) in Hx. congruence.
  - destruct (wf_records _ Hwf _ _ Hall) as (info & Hinfo & _).
    rewrite (deref_Some _ _ _ Hinfo). by eapply H.
Qed.

Lemma checked_out_size w :
  WF w → out_flag w →
  Z.of_nat (size (checked_out w)) =
    (numConnections (pool w) - numIdleConnections (pool w))%Z.
Proof.
  intros Hwf H. rewrite (checked_out_difference _ Hwf H).
  destruct (wf_consistent _ Hwf) as [Hn Hni Hs _]. rewrite Hn, Hni.
  rewrite <- (map_difference_union _ _ Hs) at 2.
  rewrite map_size_disj_union by (by apply map_disjoint_difference_r1). lia.
Qed.

(** X4: a record of the pool is idle or checked out, never both.  Along
    every schedule a record of [allConnections] has [checkedOut] set
    exactly when it is not in [idleConnections], and the idle count and the
    number of checked-out records add up to [numConnections]. *)
Theorem idle_or_checked_out drivers o tr s :
  run tr (boot drivers o) = Some s →
  (∀ i r info, allConnections (pool (world s)) !! i = Some r → infos (world s) !! r = Some info →
     (checkedOut info = true ↔ idleConnections (pool (world s)) !! i = None)) ∧
  (numIdleConnections (pool (world s)) + Z.of_nat (size (checked_out (world s))) =
     numConnections (pool (world s)))%Z.
Proof.
  intros Hrun. pose proof (WF_reachable _ _ _ _ Hrun) as Hwf.
  pose proof (out_flag_reachable _ _ _ _ Hrun) as Hout. split.
  - intros i r info Hall Hinfo. split.
    + intros Hco. destruct (idleConnections (pool (world s)) !! i) as [r'|] eqn:E; [|done].
      pose proof (idle_in_all _ _ _ (wf_consistent _ Hwf) E) as Hall'.
      assert (r' = r) by congruence. subst r'.
      destruct (cons_idle_free _ (wf_consistent _ Hwf) _ _ E) as (x & Hx & Hxco). congruence.
    + intros Hidle. by eapply Hout.
  - rewrite (checked_out_size _ Hwf Hout). lia.
Qed.

Lemma idle_or_checked_out_witness :
  ∃ s, run two_users (boot {["Pg"]} pg) = Some s ∧
    (∀ i r info, allConnections (pool (world s)) !! i = Some r →
       infos (world s) !! r = Some info →
       (checkedOut info = true ↔ idleConnections (pool (world s)) !! i = None)) ∧
    (numIdleConnections (pool (world s)) + Z.of_nat (size (checked_out (world s))) =
       numConnections (pool (world s)))%Z.
Proof.
  eexists. split; [vm_compute; reflexivity|].
  apply (idle_or_checked_out {["Pg"]} pg two_users). vm_compute; reflexivity.
Defined.

Lemma same_store_ok w w' : same_connections w w' → store_ok w → store_ok w'.
Proof.
  intros (Hc & _ & Hi & _ & _ & _ & Ha & _ & Hd & _) [H1 H2 H3 H4].
  split; rewrite ?Hc, ?Hi, ?Ha, ?Hd; auto.
Qed.

Lemma idle_None_of_all w i :
  WF w → allConnections (pool w) !! i = None → idleConnections (pool w) !! i = None.
Proof.
  intros Hwf Hall. destruct (idleConnections (pool w) !! i) as [r|] eqn:E; [|done].
  apply (idle_in_all _ _ _ (wf_consistent _ Hwf)) in E. congruence.
Qed.

Lemma store_ok_addConnection c w : WF w → store_ok w → store_ok (addConnection c w).
Proof.
  intros Hwf [H1 H2 H3 H4].
  assert (Hnew : infos w !! nextRef w = None).
  { destruct (infos w !! nextRef w) as [x|] eqn:E; [|done].
    apply (wf_fresh_ref _ Hwf) in E. lia. }
  split; simpl.
  - intros r info. rewrite lookup_insert. case_decide.
    + intros [= <-]. simpl. lia.
    + intros Hr. apply H1 in Hr. lia.
  - intros r1 r2 x1 x2. rewrite !lookup_insert.
    repeat case_decide; subst; try congruence.
    + intros [= <-] Hx. simpl. intros Heq. apply H1 in Hx. lia.
    + intros Hx [= <-]. simpl. intros Heq. apply H1 in Hx. lia.
    + apply H2.
  - intros r info. rewrite lookup_insert. case_decide.
    + intros [= <-] _. subst. simpl. by rewrite lookup_insert_eq.
    + intros Hr Hrem. rewrite lookup_insert_ne; [by apply H3|].
      apply H1 in Hr. lia.
  - intros r info. rewrite lookup_insert. case_decide.
    + by intros [= <-].
    + intros Hr Hrem. pose proof (H1 _ _ Hr).
      rewrite !lookup_insert_ne by lia. by apply (H4 r info).
Qed.

Lemma store_ok_removeConnection w i r :
  WF w → store_ok w → idleConnections (pool w) !! i = Some r →
  store_ok (removeConnection r w).
Proof.
  intros Hwf [H1 H2 H3 H4] Hidle.
  pose proof (idle_in_all _ _ _ (wf_consistent _ Hwf) Hidle) as Hall.
  destruct (wf_records _ Hwf _ _ Hall) as (x & Hx & Hxi & _).
  subst i. unfold removeConnection. rewrite (deref_Some _ _ _ Hx).
  split; simpl.
  - intros r' info. rewrite lookup_insert. case_decide.
    + intros [= <-]. simpl. subst. by eapply H1.
    + apply H1.
  - intros r1 r2 x1 x2. rewrite !lookup_insert.
    repeat case_decide; subst; try congruence.
    + intros [= <-] Hx2. simpl. intros Heq. by eapply H2.
    + intros Hx1 [= <-]. simpl. intros Heq. by eapply H2.
    + apply H2.
  - intros r' info. rewrite lookup_insert. case_decide.
    + by intros [= <-].
    + intros Hr Hrem. rewrite lookup_delete_ne; [by apply H3|].
      intros Heq. apply H. apply (H2 _ _ _ _ Hx Hr). congruence.
  - intros r' info. rewrite lookup_insert. case_decide.
    + intros [= <-] _. simpl. by rewrite !lookup_delete_eq.
    + intros Hr Hrem. destruct (H4 _ _ Hr Hrem) as [Ha Hb].
      rewrite !lookup_delete. by repeat case_decide.
Qed.

Lemma store_ok_tryPopConnection w : WF w → store_ok w → store_ok (tryPopConnection w).1.
Proof.
  intros Hwf [H1 H2 H3 H4].
  destruct (first_key (idleConnections (pool w))) as [[i r]|] eqn:Hk.
  2:{ by rewrite tryPopConnection_empty. }
  destruct (tryPopConnection_idle _ _ _ Hwf Hk) as (x & Hx & Hco & Hi & ->).
  apply first_key_lookup in Hk.
  pose proof (idle_in_all _ _ _ (wf_consistent _ Hwf) Hk) as Hall.
  split; simpl.
  - intros r' info. rewrite lookup_insert. case_decide.
    + intros [= <-]. simpl. subst. by eapply H1.
    + apply H1.
  - intros r1 r2 x1 x2. rewrite !lookup_insert.
    repeat case_decide; subst; try congruence.
    + intros [= <-] Hx2. simpl. intros Heq. by eapply H2.
    + intros Hx1 [= <-]. simpl. intros Heq. by eapply H2.
    + apply H2.
  - intros r' info. rewrite lookup_insert. case_decide.
    + intros [= <-]. simpl. subst. by apply H3.
    + apply H3.
  - intros r' info. rewrite lookup_insert. case_decide.
    + intros [= <-]. simpl. intros Hrem. subst r'.
      destruct (H4 _ _ Hx Hrem) as [Ha Hb]. congruence.
    + intros Hr Hrem. destruct (H4 _ _ Hr Hrem) as [Ha Hb]. split; [done|].
      rewrite lookup_delete. by case_decide.
Qed.

Lemma store_ok_before_trim c w : WF w → store_ok w → held c w → store_ok (before_trim c w).
Proof.
  intros Hwf [H1 H2 H3 H4] (r & x & Hs & Hx & Hp & Hco).
  destruct (held_not_idle _ _ _ _ Hwf Hs Hx Hp Hco) as [Hall Hidle].
  unfold before_trim. rewrite Hs, (deref_Some _ _ _ Hx).
  split; simpl.
  - intros r' info. rewrite lookup_insert. case_decide.
    + intros [= <-]. simpl. subst. by eapply H1.
    + apply H1.
  - intros r1 r2 x1 x2. rewrite !lookup_insert.
    repeat case_decide; subst; try congruence.
    + intros [= <-] Hx2. simpl. intros Heq. by eapply H2.
    + intros Hx1 [= <-]. simpl. intros Heq. by eapply H2.
    + apply H2.
  - intros r' info. rewrite lookup_insert. case_decide.
    + intros [= <-]. simpl. subst. by apply H3.
    + apply H3.
  - intros r' info. rewrite lookup_insert. case_decide.
    + intros [= <-]. simpl. intros Hrem. subst r'.
      destruct (H4 _ _ Hx Hrem) as [Ha Hb]. congruence.
    + intros Hr Hrem. destruct (H4 _ _ Hr Hrem) as [Ha Hb]. split; [done|].
      rewrite lookup_insert_ne; [done|]. intros Heq. rewrite <- Heq in Ha. congruence.
Qed.

Lemma store_ok_reachable drivers o tr s :
  run tr (boot drivers o) = Some s → store_ok (world s).
Proof.
  apply (lift_run_connections store_ok same_store_ok store_ok_addConnection store_ok_removeConnection
           store_ok_tryPopConnection store_ok_before_trim).
  - apply WF_createPool.
  - by split.
Qed.

(** X5: identifiers are never reused.  Along every schedule, every
    [_ConnInfo] record ever made carries an identifier issued by the
    counter, no two records share one, a record not flagged [removed] is
    the entry of [allConnections] under its identifier, and the
    identifier of a removed record is in neither map. *)
Theorem ids_are_never_reused drivers o tr s :
  run tr (boot drivers o) = Some s →
  (∀ r1 r2 x1 x2, infos (world s) !! r1 = Some x1 → infos (world s) !! r2 = Some x2 →
     info_id x1 = info_id x2 → r1 = r2) ∧
  (∀ r info, infos (world s) !! r = Some info →
     (1 ≤ info_id info ≤ curConnID (world s))%N ∧
     if removed info
     then allConnections (pool (world s)) !! info_id info = None ∧
          idleConnections (pool (world s)) !! info_id info = None
     else allConnections (pool (world s)) !! info_id info = Some r).
Proof.
  intros Hrun. destruct (store_ok_reachable _ _ _ _ Hrun) as [H1 H2 H3 H4]. split.
  - apply H2.
  - intros r info Hinfo. split; [by eapply H1|].
    destruct (removed info) eqn:Hrem; [by eapply H4|by apply H3].
Qed.

Lemma ids_are_never_reused_witness :
  ∃ s, run open_two_return_two (boot {["Pg"]} pg) = Some s ∧
    (∀ r1 r2 x1 x2, infos (world s) !! r1 = Some x1 → infos (world s) !! r2 = Some x2 →
       info_id x1 = info_id x2 → r1 = r2) ∧
    (∀ r info, infos (world s) !! r = Some info →
       (1 ≤ info_id info ≤ curConnID (world s))%N ∧
       if removed info
       then allConnections (pool (world s)) !! info_id info = None ∧
            idleConnections (pool (world s)) !! info_id info = None
       else allConnections (pool (world s)) !! info_id info = Some r).
Proof.
  eexists. split; [vm_compute; reflexivity|].
  apply (ids_are_never_reused {["Pg"]} pg open_two_return_two). vm_compute; reflexivity.
Defined.

(** ** LLDB.ts: the registry of drivers *)

(** X1: a driver name is registered once.  Registering a name that is
    neither registered nor found on [Object.prototype] succeeds, adds
    exactly that name and touches neither the pool nor the driver log;
    registering it again throws, and every other free name can still be
    registered. *)
Theorem registerDriver_once (name : string) (w : World) :
  name ∉ registry w → name ∉ inherited_names →
  ∃ w1, registerDriver name w = (w1, Ret tt) ∧
    (∀ other, other ∈ registry w1 ↔ other = name ∨ other ∈ registry w) ∧
    same_connections w w1 ∧ driverLog w1 = driverLog w ∧
    registerDriver name w1 = (w1, Throw (JsError (msg_already_registered name))) ∧
    (∀ other, other ≠ name → other ∉ registry w → other ∉ inherited_names →
       (registerDriver other w1).2 = Ret tt).
Proof.
  intros Hr Hi. unfold registerDriver at 1. rewrite decide_False by tauto.
  eexists. split; [reflexivity|]. split; [|split; [|split; [|split]]].
  - intros other. simpl. rewrite elem_of_union, elem_of_singleton. tauto.
  - by repeat split.
  - done.
  - unfold registerDriver. simpl. rewrite decide_True; [done|]. left.
    apply elem_of_union. left. by apply elem_of_singleton.
  - intros other Hne Hor Hoi. unfold registerDriver. simpl.
    rewrite decide_False; [done|]. rewrite elem_of_union, elem_of_singleton. tauto.
Qed.

Lemma Pg_not_inherited : "Pg" ∉ inherited_names.
Proof. apply (bool_decide_unpack _). by vm_compute. Qed.

Lemma not_in_empty_registry o name : name ∉ registry (createPool ∅ o).
Proof. simpl. apply not_elem_of_empty. Qed.

Lemma registerDriver_once_witness :
  let w := createPool ∅ pg in
  ("Pg" ∉ registry w) ∧ ("Pg" ∉ inherited_names) ∧
  ∃ w1, registerDriver "Pg" w = (w1, Ret tt) ∧
    (∀ other, other ∈ registry w1 ↔ other = "Pg" ∨ other ∈ registry w) ∧
    same_connections w w1 ∧ driverLog w1 = driverLog w ∧
    registerDriver "Pg" w1 = (w1, Throw (JsError (msg_already_registered "Pg"))) ∧
    (∀ other, other ≠ "Pg" → other ∉ registry w → other ∉ inherited_names →
       (registerDriver other w1).2 = Ret tt).
Proof.
  assert (H1 : "Pg" ∉ registry (createPool ∅ pg)) by apply not_in_empty_registry.
  assert (H2 : "Pg" ∉ inherited_names) by apply Pg_not_inherited.
  split; [exact H1|]. split; [exact H2|].
  exact (registerDriver_once "Pg" (createPool ∅ pg) H1 H2).
Defined.

(** A name found on the prototype can never be registered. *)
Lemma registerDriver_inherited name w :
  name ∈ inherited_names →
  registerDriver name w = (w, Throw (JsError (msg_already_registered name))).
Proof. intros H. unfold registerDriver. rewrite decide_True; [done|]. by right. Qed.

(** X2: a checkout that has to open a connection needs the driver.  On a
    live pool with no idle record and room under the ceiling, a call with a
    live context fails at once with the unknown-driver error of [connect],
    the state unchanged, when the pool's driver name is not registered; once
    [registerDriver] has registered the name, the same call asks that
    driver to connect and waits for it. *)
Theorem checkout_needs_registered_driver (op : Op) (w : World) :
  deadError (pool w) = None → idleConnections (pool w) = ∅ →
  loop_test None (pool w) = false →
  driverName (options (pool w)) ∉ registry w →
  driverName (options (pool w)) ∉ inherited_names →
  call op None w =
    (w, Settled (Throw (JsError (msg_unknown_driver (driverName (options (pool w))))))) ∧
  ∃ w1, registerDriver (driverName (options (pool w))) w = (w1, Ret tt) ∧
        call op None w1 =
          (log_call (DConnect (driverName (options (pool w)))
                              (driverArgs (options (pool w)))) w1, AwaitConnect).
Proof.
  set (name := driverName (options (pool w))). intros Hd Hidle Hl Hr Hi.
  assert (Hk : first_key (idleConnections (pool w)) = None) by (by apply first_key_empty).
  split.
  - unfold call, checkDead. rewrite Hd. unfold popConnection_entry, pop_or.
    rewrite (tryPopConnection_empty _ Hk). unfold admission, checkDead. rewrite Hl, Hd.
    unfold openConnection, connect. fold name. by rewrite decide_False.
  - unfold registerDriver at 1. rewrite decide_False by tauto.
    eexists. split; [reflexivity|].
    unfold call, checkDead. simpl. rewrite Hd. unfold popConnection_entry, pop_or.
    rewrite tryPopConnection_empty by done. unfold admission, checkDead. simpl.
    rewrite Hl, Hd. unfold openConnection, connect. simpl. fold name.
    rewrite decide_True; [done|]. apply elem_of_union. left. by apply elem_of_singleton.
Qed.

Lemma checkout_needs_registered_driver_witness :
  let w := createPool ∅ pg_max1 in
  let name := driverName (options (pool w)) in
  deadError (pool w) = None ∧ idleConnections (pool w) = ∅ ∧
  loop_test None (pool w) = false ∧
  (name ∉ registry w) ∧ (name ∉ inherited_names) ∧
  call OpExec None w = (w, Settled (Throw (JsError (msg_unknown_driver name)))) ∧
  ∃ w1, registerDriver name w = (w1, Ret tt) ∧
        call OpExec None w1 =
          (log_call (DConnect name (driverArgs (options (pool w)))) w1, AwaitConnect).
Proof.
  assert (H1 : "Pg" ∉ registry (createPool ∅ pg_max1)) by apply not_in_empty_registry.
  assert (H2 : "Pg" ∉ inherited_names) by apply Pg_not_inherited.
  split; [reflexivity|]. split; [reflexivity|]. split; [reflexivity|].
  split; [exact H1|]. split; [exact H2|].
  exact (checkout_needs_registered_driver OpExec (createPool ∅ pg_max1)
           eq_refl eq_refl eq_refl H1 H2).
Defined.

(** ** The options of a pool *)

Lemma options_reachable drivers o tr s :
  run tr (boot drivers o) = Some s → options (pool (world s)) = normalize o.
Proof.
  apply (lift_run_connections (λ w, options (pool w) = normalize o)).
  - intros w w' (_ & _ & _ & _ & _ & Ho & _). congruence.
  - done.
  - done.
  - intros w _ H. unfold tryPopConnection.
    destruct (first_key _) as [[i r]|]; [|done]. by destruct (checkedOut _).
  - intros c w _ H _. unfold before_trim. by destruct (symConnInfo w !! c).
  - apply WF_createPool.
  - done.
Qed.

(** X3: the options are settled by the constructor.  Along every schedule
    the pool's options are those the constructor computed: the idle target
    is [idleConnections], 1 when absent; the ceiling, when given, is the
    larger of [maxConnections] and the idle target, so the idle target
    never exceeds it. *)
Theorem options_settled_at_construction drivers o tr s :
  run tr (boot drivers o) = Some s →
  options (pool (world s)) = normalize o ∧
  idle_target (pool (world s)) = default 1%Z (opt_idleConnections o) ∧
  opt_maxConnections (options (pool (world s))) =
    Z.max (default 1%Z (opt_idleConnections o)) <$> opt_maxConnections o ∧
  (∀ m, opt_maxConnections (options (pool (world s))) = Some m →
        (idle_target (pool (world s)) ≤ m)%Z).
Proof.
  intros Hrun. pose proof (options_reachable _ _ _ _ Hrun) as Ho.
  unfold idle_target. rewrite Ho. unfold normalize. simpl.
  assert (Hidle : match opt_idleConnections o with Some i => i | None => 1%Z end
                  = default 1%Z (opt_idleConnections o)) by (by destruct (opt_idleConnections o)).
  rewrite Hidle. split; [done|]. split; [done|].
  assert (Hmax : match opt_maxConnections o with
                 | Some m => if (m <? default 1 (opt_idleConnections o))%Z
                             then Some (default 1%Z (opt_idleConnections o)) else Some m
                 | None => None
                 end = Z.max (default 1%Z (opt_idleConnections o)) <$> opt_maxConnections o).
  { destruct (opt_maxConnections o) as [m|]; [|done]. simpl.
    destruct (Z.ltb_spec m (default 1%Z (opt_idleConnections o))); f_equal; lia. }
  rewrite Hmax. split; [done|].
  intros m. destruct (opt_maxConnections o) as [m0|]; [|done]. simpl. intros [= <-]. lia.
Qed.

Lemma options_settled_at_construction_witness :
  let o := mkOptions "Pg" 0 (Some 3%Z) (Some 1%Z) in
  ∃ s, run [EvCall 1 OpExec None; EvClose] (boot {["Pg"]} o) = Some s ∧
    options (pool (world s)) = normalize o ∧
    idle_target (pool (world s)) = default 1%Z (opt_idleConnections o) ∧
    opt_maxConnections (options (pool (world s))) =
      Z.max (default 1%Z (opt_idleConnections o)) <$> opt_maxConnections o ∧
    (∀ m, opt_maxConnections (options (pool (world s))) = Some m →
          (idle_target (pool (world s)) ≤ m)%Z).
Proof.
  eexists. split; [vm_compute; reflexivity|].
  apply (options_settled_at_construction {["Pg"]} (mkOptions "Pg" 0 (Some 3%Z) (Some 1%Z))
           [EvCall 1 OpExec None; EvClose]).
  vm_compute; reflexivity.
Defined.

(** ** A pool without a ceiling never makes a caller wait *)

Lemma admission_no_ceiling ctx w p :
  opt_maxConnections (options (pool w)) = None → (admission ctx w).2 ≠ AwaitGate p.
Proof.
  intros Hm. unfold admission, loop_test. rewrite Hm.
  destruct (checkDead w); [|done]. destruct ctx; [done|]. simpl.
  by destruct (connect w) as [w1 [u|e]].
Qed.

Lemma tryPopConnection_options w :
  options (pool (tryPopConnection w).1) = options (pool w).
Proof.
  unfold tryPopConnection. destruct (first_key _) as [[i r]|]; [|done].
  by destruct (checkedOut _).
Qed.

Lemma pop_or_no_ceiling op rest w p :
  (∀ w0, options (pool w0) = options (pool w) → (rest w0).2 ≠ AwaitGate p) →
  (pop_or op rest w).2 ≠ AwaitGate p.
Proof.
  intros Hrest. unfold pop_or. pose proof (tryPopConnection_options w) as Ho.
  destruct (tryPopConnection w) as [w1 [[c|]|e]]; simpl in *; [done| |done].
  by apply Hrest.
Qed.

Lemma no_waiter_put t k w s :
  (∀ p, task_state k ≠ AwaitGate p) → no_waiter s → no_waiter (put_task t k w s).
Proof.
  intros Hk Hs t' k' p. simpl. rewrite lookup_insert. case_decide.
  - intros [= <-]. apply Hk.
  - apply Hs.
Qed.

Lemma no_waiter_step e s s' :
  opt_maxConnections (options (pool (world s))) = None →
  no_waiter s → step e s = Some s' → no_waiter s'.
Proof.
  intros Hm Hs. destruct e as [t op ctx|t e|t|t c|t e|t|t e|c|]; simpl.
  - destruct (tasks s !! t); [done|]. unfold call.
    destruct (checkDead (world s)).
    + pose proof (λ p, pop_or_no_ceiling op (admission ctx) (world s) p
                    (λ w0 H0, admission_no_ceiling ctx w0 p
                               (eq_trans (f_equal opt_maxConnections H0) Hm))) as H.
      unfold popConnection_entry. destruct (pop_or _ _ _) as [w1 st]. intros [= <-].
      by apply no_waiter_put.
    + intros [= <-]. by apply no_waiter_put.
  - destruct (tasks s !! t) as [k|] eqn:Ht; [|done]. intros [= <-].
    apply no_waiter_put; [|done]. simpl. intros p. by eapply Hs.
  - destruct (tasks s !! t) as [k|] eqn:Ht; [|done]. simpl.
    destruct (task_state k) eqn:Hst; try done.
    + by destruct (Hs _ _ p Ht).
    + pose proof (λ p, pop_or_no_ceiling (task_op k)
                    (λ w, (w, Settled (Throw (JsError msg_cannot_open)))) (world s) p
                    (λ w0 _, ltac:(done))) as H.
      unfold popConnection_opened. destruct (pop_or _ _ _) as [w1 st]. intros [= <-].
      by apply no_waiter_put.
  - destruct (tasks s !! t) as [k|]; [|done]. simpl.
    destruct (task_state k); try done. intros [= <-]. by apply no_waiter_put.
  - destruct (tasks s !! t) as [k|]; [|done]. simpl.
    destruct (task_state k); try done. intros [= <-]. by apply no_waiter_put.
  - destruct (tasks s !! t) as [k|]; [|done]. simpl.
    destruct (task_state k); try done.
    destruct (finish _ _ _ _) as [[[w1 r] made]|]; [|done]. simpl. intros [= <-].
    intros t' k' p. simpl. rewrite lookup_insert. case_decide.
    * by intros [= <-].
    * apply Hs.
  - destruct (tasks s !! t) as [k|]; [|done]. simpl.
    destruct (task_state k); try done.
    destruct (finish _ _ _ _) as [[[w1 r] made]|]; [|done]. simpl. intros [= <-].
    by apply no_waiter_put.
  - case_decide; [|done].
    destruct (returnConnection c (world s)) as [[w1 r]|]; [|done]. simpl.
    by intros [= <-].
  - by intros [= <-].
Qed.

(** X19: without [maxConnections] no call waits.  On a pool made without
    a ceiling, no call is ever suspended at the gate of
    [__popConnection]. *)
Theorem no_ceiling_no_waiting drivers o tr s :
  opt_maxConnections o = None → run tr (boot drivers o) = Some s →
  ∀ t k, tasks s !! t = Some k →
    match task_state k with AwaitGate _ => False | _ => True end.
Proof.
  intros Hm Hrun.
  assert (no_waiter s) as Hs.
  { assert (Hgen : ∀ tr1 s1, run tr1 (boot drivers o) = Some s1 → no_waiter s1).
    { intros tr1. induction tr1 as [|e tr1 IH] using rev_ind; intros s1.
      - intros [= <-]. intros t k p. simpl. by rewrite lookup_empty.
      - rewrite run_app. destruct (run tr1 (boot drivers o)) as [s0|] eqn:E0; [|done].
        simpl. destruct (step e s0) as [s2|] eqn:E1; [|done]. simpl. intros [= <-].
        eapply no_waiter_step; [|by apply IH|exact E1].
        rewrite (options_reachable _ _ _ _ E0). unfold normalize. simpl. by rewrite Hm. }
    by eapply Hgen. }
  intros t k Ht. destruct (task_state k) eqn:E; try done. by destruct (Hs _ _ p Ht).
Qed.

Lemma no_ceiling_no_waiting_witness :
  opt_maxConnections pg = None ∧
  ∃ s, run two_users (boot {["Pg"]} pg) = Some s ∧
    ∀ t k, tasks s !! t = Some k →
      match task_state k with AwaitGate _ => False | _ => True end.
Proof.
  split; [reflexivity|]. eexists. split; [vm_compute; reflexivity|].
  apply (no_ceiling_no_waiting {["Pg"]} pg two_users _ eq_refl). vm_compute; reflexivity.
Defined.

(** ** Cancelling does not wake a waiter *)

(** X7: cancelling does not wake a waiter.  A call waiting at the gate on
    a promise that is not resolved stays there whatever contexts are
    cancelled: the pool state is unchanged and the call cannot be resumed.
    It learns of the cancellation only after the next signal. *)
Theorem cancel_does_not_wake (tr : list Event) (s s' : Sys) (t : TaskId) (k : Task)
    (p : PromiseId) :
  tasks s !! t = Some k → task_state k = AwaitGate p → p ∉ settled (world s) →
  Forall (λ e, is_cancel e = true) tr → run tr s = Some s' →
  world s' = world s ∧ state_of t s' = Some (AwaitGate p) ∧ step (EvResume t) s' = None.
Proof.
  intros Ht Hst Hp Htr. revert s k Ht Hst Hp.
  induction Htr as [|e tr He _ IH]; intros s k Ht Hst Hp; simpl.
  - intros [= <-]. split; [done|]. unfold state_of. rewrite Ht. simpl. rewrite Hst.
    split; [done|]. by rewrite decide_False.
  - destruct e as [| t' e | | | | | | |]; try done. simpl.
    destruct (tasks s !! t') as [k'|] eqn:Ht'; [|done]. simpl. intros Hrun.
    destruct (decide (t' = t)) as [->|Hne].
    + assert (k' = k) by congruence. subst k'.
      eapply (IH _ (mkTask (task_op k) (Some e) (task_state k))) in Hrun; try done.
      simpl. by rewrite lookup_insert_eq.
    + eapply (IH _ k) in Hrun; try done. simpl. by rewrite lookup_insert_ne.
Qed.

Lemma cancel_does_not_wake_witness :
  let tr := [EvCancel 2 (CtxError 1); EvCancel 1 (CtxError 2); EvCancel 2 (CtxError 3)] in
  ∃ s k s', run blocked (boot {["Pg"]} pg_max1) = Some s ∧
    tasks s !! 2%N = Some k ∧ task_state k = AwaitGate 0 ∧ (0%N ∉ settled (world s)) ∧
    Forall (λ e, is_cancel e = true) tr ∧ run tr s = Some s' ∧
    world s' = world s ∧ state_of 2 s' = Some (AwaitGate 0) ∧ step (EvResume 2) s' = None.
Proof.
  eexists _, _, _. split; [vm_compute; reflexivity|].
  split; [vm_compute; reflexivity|]. split; [reflexivity|].
  match goal with |- (0%N ∉ settled (world ?s0)) ∧ _ =>
    assert (Hp0 : 0%N ∉ settled (world s0))
      by (apply (bool_decide_unpack _); vm_compute; exact I)
  end.
  split; [exact Hp0|].
  assert (Hc : Forall (λ e, is_cancel e = true)
                 [EvCancel 2 (CtxError 1); EvCancel 1 (CtxError 2); EvCancel 2 (CtxError 3)])
    by (repeat constructor).
  split; [exact Hc|]. split; [vm_compute; reflexivity|].
  refine (cancel_does_not_wake _ _ _ 2%N _ 0%N _ _ Hp0 Hc _); vm_compute; reflexivity.
Defined.

(** ** The oldest idle record goes first *)

(** X8: the oldest idle connection goes first.  With the pool invariant
    and a non-empty idle map whose identifiers are all below 2^32 - 1 (the
    keys that [for (const id in ...)] enumerates in ascending numeric
    order), [__tryPopConnection] hands out, and one turn of [__trimIdle]
    closes, the connection of the idle record with the least identifier,
    and removes that record from the idle map. *)
Theorem oldest_idle_first (w : World) :
  WF w → idleConnections (pool w) ≠ ∅ →
  (∀ j r', idleConnections (pool w) !! j = Some r' → (j < 4294967295)%N) →
  ∃ i r info,
    idleConnections (pool w) !! i = Some r ∧ infos w !! r = Some info ∧
    (∀ j r', idleConnections (pool w) !! j = Some r' → (i ≤ j)%N) ∧
    (tryPopConnection w).2 = Ret (Some (info_conn info)) ∧
    idleConnections (pool (tryPopConnection w).1) = delete i (idleConnections (pool w)) ∧
    driverLog (trim_turn w) = driverLog w ++ [DClose (info_conn info)] ∧
    idleConnections (pool (trim_turn w)) = delete i (idleConnections (pool w)).
Proof.
  intros Hwf Hne _.
  destruct (first_key (idleConnections (pool w))) as [[i r]|] eqn:Hk.
  2:{ by apply first_key_empty in Hk. }
  destruct (tryPopConnection_idle _ _ _ Hwf Hk) as (info & Hinfo & _ & _ & Hpop).
  destruct (trim_turn_idle _ _ _ Hwf Hk) as (_ & _ & _ & Hi & Hl & _).
  rewrite (deref_Some _ _ _ Hinfo) in Hl.
  exists i, r, info. split; [by apply first_key_lookup|]. split; [done|].
  split; [intros j r' Hj; by eapply first_key_least|].
  rewrite Hpop. by repeat split.
Qed.

Lemma two_idle_not_empty :
  idleConnections (pool (addConnection 11 (addConnection 10 (createPool {["Pg"]} pg)))) ≠ ∅.
Proof.
  intros H. apply (f_equal (λ m, m !! 1%N)) in H. by vm_compute in H.
Qed.

Lemma oldest_idle_first_witness :
  let w := addConnection 11 (addConnection 10 (createPool {["Pg"]} pg)) in
  WF w ∧ idleConnections (pool w) ≠ ∅ ∧
  (∀ j r', idleConnections (pool w) !! j = Some r' → (j < 4294967295)%N) ∧
  ∃ i r info,
    idleConnections (pool w) !! i = Some r ∧ infos w !! r = Some info ∧
    (∀ j r', idleConnections (pool w) !! j = Some r' → (i ≤ j)%N) ∧
    (tryPopConnection w).2 = Ret (Some (info_conn info)) ∧
    idleConnections (pool (tryPopConnection w).1) = delete i (idleConnections (pool w)) ∧
    driverLog (trim_turn w) = driverLog w ++ [DClose (info_conn info)] ∧
    idleConnections (pool (trim_turn w)) = delete i (idleConnections (pool w)).
Proof.
  assert (Hwf : WF (addConnection 11 (addConnection 10 (createPool {["Pg"]} pg))))
    by (do 2 apply WF_addConnection; apply WF_createPool).
  assert (Hb : ∀ j r',
            idleConnections (pool (addConnection 11 (addConnection 10
              (createPool {["Pg"]} pg)))) !! j = Some r' → (j < 4294967295)%N).
  { intros j r' Hj. apply (idle_in_all _ _ _ (wf_consistent _ Hwf)) in Hj.
    apply (wf_fresh_id _ Hwf) in Hj. simpl in Hj. lia. }
  split; [exact Hwf|]. split; [exact two_idle_not_empty|]. split; [exact Hb|].
  exact (oldest_idle_first _ Hwf two_idle_not_empty Hb).
Defined.

(** ** When [__returnConnection] returns *)

Lemma trimIdle_loop_negative turns w :
  WF w → (idle_target (pool w) < 0)%Z → trimIdle_loop turns w = None.
Proof.
  revert w. induction turns as [|k IH]; intros w Hwf Ht; simpl.
  - rewrite decide_True; [done|].
    rewrite (cons_numIdleConnections _ (wf_consistent _ Hwf)). lia.
  - rewrite decide_True.
    2:{ rewrite (cons_numIdleConnections _ (wf_consistent _ Hwf)). lia. }
    apply IH; [by apply WF_trim_turn|].
    destruct (first_key (idleConnections (pool w))) as [[i r]|] eqn:Hk.
    + destruct (trim_turn_idle _ _ _ Hwf Hk) as (_ & _ & Ho & _).
      by rewrite (idle_target_options _ _ Ho).
    + unfold trim_turn. by rewrite Hk.
Qed.


(** X11: [__returnConnection] of a checked-out connection returns exactly
    when the idle target is not negative; with a negative
    [idleConnections] option [__trimIdle] never ends. *)
Theorem return_ends_iff_target_not_negative (c : Conn) (w : World) :
  WF w → held c w →
  (is_Some (returnConnection c w) ↔ (0 ≤ idle_target (pool w))%Z).
Proof.
  intros Hwf Hh. split.
  - intros [x Hx]. destruct (Z.le_gt_cases 0 (idle_target (pool w))) as [|Hneg]; [done|].
    destruct (WF_before_trim _ _ Hwf Hh) as (Hwf2 & _ & Ho & _ & Heq).
    rewrite Heq in Hx. unfold trimIdle in Hx.
    rewrite trimIdle_loop_negative in Hx; [done|done|].
    rewrite (idle_target_options _ _ Ho). lia.
  - intros Ht. destruct (returnConnection_spec c w Hwf Hh Ht) as (w' & -> & _). by eexists.
Qed.

Lemma return_ends_iff_target_not_negative_witness :
  let w := one_out_one_idle in
  WF w ∧ held 10 w ∧ (is_Some (returnConnection 10 w) ↔ (0 ≤ idle_target (pool w))%Z).
Proof.
  split; [exact WF_one_out_one_idle|]. split; [exact held_one_out_one_idle|].
  exact (return_ends_iff_target_not_negative 10 one_out_one_idle
           WF_one_out_one_idle held_one_out_one_idle).
Defined.

(** ** Round trips *)

(** X12: a connection just added can be taken.  Within one segment,
    [__tryPopConnection] after [__addConnection] hands out a connection;
    when no record was idle before, it is the one just added and the idle
    map is empty again.  The pool has one connection more and the idle
    count it had. *)
Theorem add_then_pop (c : Conn) (w : World) :
  WF w →
  ∃ w' c', tryPopConnection (addConnection c w) = (w', Ret (Some c')) ∧
    (idleConnections (pool w) = ∅ → c' = c ∧ idleConnections (pool w') = ∅) ∧
    numConnections (pool w') = (numConnections (pool w) + 1)%Z ∧
    numIdleConnections (pool w') = numIdleConnections (pool w).
Proof.
  intros Hwf. pose proof (WF_addConnection c w Hwf) as Hwf1.
  destruct (first_key (idleConnections (pool (addConnection c w)))) as [[i r]|] eqn:Hk.
  2:{ apply first_key_empty in Hk. simpl in Hk.
      apply (f_equal (λ m, m !! (curConnID w + 1)%N)) in Hk.
      by rewrite lookup_insert_eq, lookup_empty in Hk. }
  destruct (tryPopConnection_idle _ _ _ Hwf1 Hk) as (info & Hinfo & _ & _ & Hpop).
  eexists _, _. split; [exact Hpop|]. split; [|split; simpl; lia].
  intros He. apply first_key_lookup in Hk. simpl in Hk, Hinfo. rewrite He in Hk.
  rewrite lookup_insert in Hk. case_decide; [|by rewrite lookup_empty in Hk].
  injection Hk as <-. subst i. rewrite lookup_insert_eq in Hinfo. injection Hinfo as <-.
  split; [done|]. simpl. by rewrite He, delete_insert_eq, delete_empty.
Qed.

Lemma add_then_pop_witness :
  let w := createPool {["Pg"]} pg in
  WF w ∧
  ∃ w' c', tryPopConnection (addConnection 10 w) = (w', Ret (Some c')) ∧
    (idleConnections (pool w) = ∅ → c' = 10%N ∧ idleConnections (pool w') = ∅) ∧
    numConnections (pool w') = (numConnections (pool w) + 1)%Z ∧
    numIdleConnections (pool w') = numIdleConnections (pool w).
Proof.
  assert (Hwf : WF (createPool {["Pg"]} pg)) by apply WF_createPool.
  split; [exact Hwf|]. exact (add_then_pop 10 (createPool {["Pg"]} pg) Hwf).
Defined.

Lemma trimIdle_within w :
  (numIdleConnections (pool w) ≤ idle_target (pool w))%Z → trimIdle w = Some w.
Proof.
  intros H. unfold trimIdle. destruct (Z.to_nat _); simpl; rewrite decide_False; (done || lia).
Qed.

(** X13: a returned connection is reused.  With no idle record and an
    idle target of at least one, returning a checked-out connection closes
    nothing, and the next [__tryPopConnection] hands the same connection
    out again: no driver call, the same number of connections. *)
Theorem return_then_checkout_reuses (c : Conn) (w : World) :
  WF w → held c w → idleConnections (pool w) = ∅ → (1 ≤ idle_target (pool w))%Z →
  ∃ w1 w2, returnConnection c w = Some (w1, Ret tt) ∧
           tryPopConnection w1 = (w2, Ret (Some c)) ∧
           held c w2 ∧
           driverLog w2 = driverLog w ∧
           numConnections (pool w2) = numConnections (pool w) ∧
           idleConnections (pool w2) = ∅.
Proof.
  intros Hwf Hh He Ht.
  destruct (WF_before_trim _ _ Hwf Hh) as (Hwf1 & Hn1 & Ho1 & Hl1 & Heq).
  assert (Hn0 : numIdleConnections (pool w) = 0%Z).
  { rewrite (cons_numIdleConnections _ (wf_consistent _ Hwf)), He. by rewrite map_size_empty. }
  rewrite trimIdle_within in Heq by (rewrite Hn1, (idle_target_options _ _ Ho1); lia).
  destruct Hh as (r & info & Hs & Hinfo & Hp & Hco).
  destruct (wf_sym _ Hwf _ _ Hs) as (info' & Hinfo' & Hconn & _).
  assert (info' = info) by congruence. subst info'.
  assert (Hidle1 : idleConnections (pool (before_trim c w)) = {[info_id info := r]}).
  { unfold before_trim. rewrite Hs, (deref_Some _ _ _ Hinfo). simpl. by rewrite He. }
  destruct (first_key (idleConnections (pool (before_trim c w)))) as [[i r']|] eqn:Hk.
  2:{ apply first_key_empty in Hk. rewrite Hidle1 in Hk.
      apply (f_equal (λ m, m !! info_id info)) in Hk.
      by rewrite lookup_singleton_eq, lookup_empty in Hk. }
  destruct (tryPopConnection_idle _ _ _ Hwf1 Hk) as (x & Hx & _ & _ & Hpop).
  apply first_key_lookup in Hk. rewrite Hidle1 in Hk.
  apply lookup_singleton_Some in Hk as [<- <-].
  assert (x = set_checkedOut false info).
  { unfold before_trim in Hx. rewrite Hs, (deref_Some _ _ _ Hinfo) in Hx. simpl in Hx.
    rewrite lookup_insert_eq in Hx. congruence. }
  subst x. simpl in Hpop. rewrite Hconn in Hpop.
  eexists _, _. split; [exact Heq|]. split; [exact Hpop|].
  split; [|split; [|split]].
  - exists r. eexists. simpl. rewrite lookup_insert_eq.
    unfold before_trim. rewrite Hs. simpl. done.
  - simpl. unfold before_trim. by rewrite Hs.
  - simpl. unfold before_trim. by rewrite Hs.
  - simpl. rewrite Hidle1. by rewrite delete_singleton_eq.
Qed.

Lemma WF_one_out : WF one_out.
Proof.
  unfold one_out.
  destruct (tryPopConnection (addConnection 10 (createPool {["Pg"]} pg))) as [w r] eqn:E.
  eapply WF_tryPopConnection; [|exact E]. apply WF_addConnection, WF_createPool.
Qed.

Lemma held_one_out : held 10 one_out.
Proof. apply held_b_sound. by vm_compute. Qed.

Lemma return_then_checkout_reuses_witness :
  let w := one_out in
  WF w ∧ held 10 w ∧ idleConnections (pool w) = ∅ ∧ (1 ≤ idle_target (pool w))%Z ∧
  ∃ w1 w2, returnConnection 10 w = Some (w1, Ret tt) ∧
           tryPopConnection w1 = (w2, Ret (Some 10%N)) ∧
           held 10 w2 ∧
           driverLog w2 = driverLog w ∧
           numConnections (pool w2) = numConnections (pool w) ∧
           idleConnections (pool w2) = ∅.
Proof.
  assert (He : idleConnections (pool one_out) = ∅) by (vm_compute; reflexivity).
  assert (Ht : (1 ≤ idle_target (pool one_out))%Z) by (by vm_compute).
  split; [exact WF_one_out|]. split; [exact held_one_out|]. split; [exact He|].
  split; [exact Ht|].
  exact (return_then_checkout_reuses 10 one_out WF_one_out held_one_out He Ht).
Defined.

(** What the loop of [__trimIdle] leaves alone: the pool's identity, the
    records whose identifier is not trimmed, and the [symConnInfo] of
    every connection but those of the trimmed records. *)
Lemma trimIdle_loop_frame turns : ∀ w w',
  WF w → trimIdle_loop turns w = Some w' →
  this (pool w') = this (pool w) ∧
  (∀ r0 x0, infos w !! r0 = Some x0 →
     info_id x0 ∉ map (λ h, info_id h.1) (trim_history turns w) →
     infos w' !! r0 = Some x0) ∧
  (∀ c0, symConnInfo w' !! c0 =
         if decide (c0 ∈ map (λ h, info_conn h.1) (trim_history turns w))
         then None else symConnInfo w !! c0).
Proof.
  induction turns as [|k IH]; intros w w' Hwf; simpl; case_decide as Hgt; try done.
  - intros [= <-]. simpl. split_and!; try done;
      try (intros c0; rewrite decide_False; [done|apply not_elem_of_nil]).
  - intros Hrun. destruct (first_key (idleConnections (pool w))) as [[i r]|] eqn:Hfk.
    2:{ assert (Hw : trim_turn w = w) by (unfold trim_turn; by rewrite Hfk).
        rewrite Hw in Hrun |- *. by apply IH. }
    destruct (trim_turn_purges _ _ _ Hwf Hfk)
      as (x & Hx & Hi & Hd & Hidle & Ha1 & Hi1 & Hn1 & Hinf1 & Hs1 & Ht1 & Hl1).
    destruct (trim_turn_idle _ _ _ Hwf Hfk) as (Hwf1 & _).
    destruct (IH _ _ Hwf1 Hrun) as (Hthis & Hfr & Hsy).
    rewrite Hd. cbn [length map fst snd]. split_and!.
    + rewrite Hthis, Ht1. unfold removeConnection. done.
    + intros r0 x0 H0 Hn. apply not_elem_of_cons in Hn as [Hn1' Hn2].
      apply Hfr; [|done]. rewrite Hinf1, lookup_insert_ne; [done|].
      intros <-. congruence.
    + intros c0. rewrite Hsy, Hs1. apply purge_lookup.
  - intros [= <-]. simpl. split_and!; try done;
      try (intros c0; rewrite decide_False; [done|apply not_elem_of_nil]).
Qed.

(** X14: a connection cannot be returned twice.  In a state with the
    invariant, no connection registered under two records and an idle
    target that is not negative, after a successful [__returnConnection]
    of a checked-out connection a second one changes nothing and throws:
    not checked out when the record is still idle, and not a member of
    the pool when the first return trimmed the record, which is then in
    neither map, flagged [removed], its connection without [symConnInfo]. *)
Theorem second_return_is_refused (c : Conn) (w : World) :
  WF w → points_back w → held c w → (0 ≤ idle_target (pool w))%Z →
  ∃ w1 r info,
    symConnInfo w !! c = Some r ∧ infos w !! r = Some info ∧
    returnConnection c w = Some (w1, Ret tt) ∧
    ((idleConnections (pool w1) !! info_id info = Some r ∧
      symConnInfo w1 !! c = Some r ∧
      infos w1 !! r = Some (set_checkedOut false info) ∧
      returnConnection c w1 = Some (w1, Throw (JsError msg_not_out))) ∨
     (allConnections (pool w1) !! info_id info = None ∧
      idleConnections (pool w1) !! info_id info = None ∧
      symConnInfo w1 !! c = None ∧
      infos w1 !! r = Some (set_removed true (set_checkedOut false info)) ∧
      returnConnection c w1 = Some (w1, Throw (JsError msg_not_member)))).
Proof.
  intros Hwf Hpb Hh Ht. pose proof Hh as (r & info & Hs & Hinfo & Hp & Hco).
  destruct (returnConnection_spec c w Hwf Hh Ht) as (w1 & Hret & Hwf1 & _).
  destruct (WF_before_trim _ _ Hwf Hh) as (Hwf0 & Hn0 & Ho0 & _ & Heq).
  pose proof (idle_target_options _ _ Ho0) as Ht0.
  pose proof (points_back_before_trim _ _ Hwf Hh Hpb) as Hpb0.
  destruct (wf_sym _ Hwf _ _ Hs) as (info' & Hinfo' & Hconn & _).
  assert (info' = info) by congruence. subst info'.
  set (w0 := before_trim c w) in *.
  assert (H0 : idleConnections (pool w0) !! info_id info = Some r ∧
               infos w0 !! r = Some (set_checkedOut false info) ∧
               symConnInfo w0 !! c = Some r ∧ this (pool w0) = this (pool w)).
  { unfold w0, before_trim. rewrite Hs, (deref_Some _ _ _ Hinfo). simpl.
    by rewrite !lookup_insert_eq. }
  destruct H0 as (Hidle0 & Hinfo0 & Hs0 & Hthis0).
  set (n := Z.to_nat (numIdleConnections (pool w0) - idle_target (pool w0))).
  assert (Hrun : trimIdle_loop n w0 = Some w1).
  { rewrite Heq in Hret. unfold trimIdle in Hret. fold w0 n in Hret.
    destruct (trimIdle_loop n w0) as [w3|]; [|done]. by injection Hret as ->. }
  destruct (trimIdle_loop_purges _ _ _ Hwf0 Hrun) as (_ & _ & Hp1 & Hidl & Hal & _).
  destruct (trimIdle_loop_frame _ _ _ Hwf0 Hrun) as (Hthis & Hfr & Hsy).
  exists w1, r, info. split_and!; [done|done|done|].
  rewrite Forall_forall in Hp1.
  destruct (decide (info_id info ∈ map (λ h, info_id h.1) (trim_history n w0))) as [Hin|Hnin].
  - right. apply list_elem_of_fmap in Hin as (h & Hid & Hin).
    destruct (Hp1 _ Hin) as (r' & Hi' & Hx' & Ha' & Hd' & Hinf' & Hs').
    rewrite <- Hid in Hi'. assert (r' = r) by congruence. subst r'.
    assert (Hh1 : h.1 = set_checkedOut false info) by congruence.
    rewrite Hh1 in *. simpl in *. rewrite Hconn in Hs'.
    split_and!; try done. unfold returnConnection. by rewrite Hs'.
  - left. assert (Hc : c ∉ map (λ h, info_conn h.1) (trim_history n w0)).
    { intros Hin. apply list_elem_of_fmap in Hin as (h & Hc & Hin).
      destruct (Hp1 _ Hin) as (r' & Hi' & Hx' & _).
      pose proof (Hpb0 _ _ _ (idle_in_all _ _ _ (wf_consistent _ Hwf0) Hi') Hx') as Hs'.
      rewrite <- Hc, Hs0 in Hs'. injection Hs' as <-.
      apply Hnin. apply list_elem_of_fmap. exists h. split; [|done].
      assert (Hh1 : h.1 = set_checkedOut false info) by congruence. by rewrite Hh1. }
    assert (Hs1 : symConnInfo w1 !! c = Some r) by (by rewrite Hsy, decide_False).
    assert (Hinf1 : infos w1 !! r = Some (set_checkedOut false info)) by (by apply Hfr).
    split_and!; [by rewrite Hidl, decide_False|done|done|].
    unfold returnConnection. rewrite Hs1, (deref_Some _ _ _ Hinf1). simpl.
    rewrite Hthis, Hthis0, Hp, N.eqb_refl. done.
Qed.

Lemma points_back_one_out : points_back one_out.
Proof.
  apply points_back_tryPopConnection; [apply WF_addConnection, WF_createPool|].
  apply points_back_addConnection; [apply WF_createPool| |done].
  apply points_back_createPool.
Qed.

Lemma second_return_is_refused_witness :
  (let w := one_out in
   WF w ∧ points_back w ∧ held 10 w ∧ (0 ≤ idle_target (pool w))%Z ∧
   ∃ w1 r info,
     symConnInfo w !! 10%N = Some r ∧ infos w !! r = Some info ∧
     returnConnection 10 w = Some (w1, Ret tt) ∧
     ((idleConnections (pool w1) !! info_id info = Some r ∧
       symConnInfo w1 !! 10%N = Some r ∧
       infos w1 !! r = Some (set_checkedOut false info) ∧
       returnConnection 10 w1 = Some (w1, Throw (JsError msg_not_out))) ∨
      (allConnections (pool w1) !! info_id info = None ∧
       idleConnections (pool w1) !! info_id info = None ∧
       symConnInfo w1 !! 10%N = None ∧
       infos w1 !! r = Some (set_removed true (set_checkedOut false info)) ∧
       returnConnection 10 w1 = Some (w1, Throw (JsError msg_not_member))))) ∧
  (let w := one_out_one_idle in
   WF w ∧ points_back w ∧ held 10 w ∧ (0 ≤ idle_target (pool w))%Z ∧
   ∃ w1 r info,
     symConnInfo w !! 10%N = Some r ∧ infos w !! r = Some info ∧
     returnConnection 10 w = Some (w1, Ret tt) ∧
     ((idleConnections (pool w1) !! info_id info = Some r ∧
       symConnInfo w1 !! 10%N = Some r ∧
       infos w1 !! r = Some (set_checkedOut false info) ∧
       returnConnection 10 w1 = Some (w1, Throw (JsError msg_not_out))) ∨
      (allConnections (pool w1) !! info_id info = None ∧
       idleConnections (pool w1) !! info_id info = None ∧
       symConnInfo w1 !! 10%N = None ∧
       infos w1 !! r = Some (set_removed true (set_checkedOut false info)) ∧
       returnConnection 10 w1 = Some (w1, Throw (JsError msg_not_member))))).
Proof.
  assert (Ht1 : (0 ≤ idle_target (pool one_out))%Z) by (by vm_compute).
  assert (Ht2 : (0 ≤ idle_target (pool one_out_one_idle))%Z) by (by vm_compute).
  split; cbv zeta.
  - split_and!; [exact WF_one_out|exact points_back_one_out|exact held_one_out|exact Ht1|].
    exact (second_return_is_refused 10 one_out WF_one_out points_back_one_out
             held_one_out Ht1).
  - split_and!; [exact WF_one_out_one_idle|exact points_back_one_out_one_idle|
                 exact held_one_out_one_idle|exact Ht2|].
    exact (second_return_is_refused 10 one_out_one_idle WF_one_out_one_idle
             points_back_one_out_one_idle held_one_out_one_idle Ht2).
Defined.

(** ** A closed pool at rest *)

Lemma quiescent_step e s s' :
  is_Some (deadError (pool (world s))) → quiescent s → step e s = Some s' →
  world s' = world s ∧ quiescent s'.
Proof.
  intros [d Hd] [Ha Hq]. destruct e as [t op ctx|t e|t|t c|t e|t|t e|c|]; simpl.
  - destruct (tasks s !! t); [done|]. unfold call, checkDead. rewrite Hd.
    intros [= <-]. split; [done|]. split; [done|]. intros t' k. simpl.
    rewrite lookup_insert. case_decide; [intros [= <-]; by eexists | apply Hq].
  - destruct (tasks s !! t) as [k|] eqn:Ht; [|done]. intros [= <-].
    split; [done|]. split; [done|]. intros t' k'. simpl.
    rewrite lookup_insert. case_decide; [intros [= <-]; simpl; by eapply Hq | apply Hq].
  - destruct (tasks s !! t) as [k|] eqn:Ht; [|done]. simpl.
    destruct (Hq _ _ Ht) as [r ->]. done.
  - destruct (tasks s !! t) as [k|] eqn:Ht; [|done]. simpl.
    destruct (Hq _ _ Ht) as [r ->]. done.
  - destruct (tasks s !! t) as [k|] eqn:Ht; [|done]. simpl.
    destruct (Hq _ _ Ht) as [r ->]. done.
  - destruct (tasks s !! t) as [k|] eqn:Ht; [|done]. simpl.
    destruct (Hq _ _ Ht) as [r ->]. done.
  - destruct (tasks s !! t) as [k|] eqn:Ht; [|done]. simpl.
    destruct (Hq _ _ Ht) as [r ->]. done.
  - rewrite Ha. rewrite decide_False; [done|]. apply not_elem_of_nil.
  - intros [= <-]. simpl. rewrite (dead_pool_close _ _ Hd). done.
Qed.

(** X15: [close()] of the pool closes no connection.  On a pool with no
    call in flight and no adapter outstanding, [close()] leaves the maps,
    the counters, the records and the driver log as they are, and no later
    event changes the state: the idle connections are never closed. *)
Theorem closed_pool_keeps_idle_connections (tr : list Event) (s s' : Sys) :
  quiescent s → run (EvClose :: tr) s = Some s' →
  world s' = pool_close (world s) ∧
  same_connections (world s) (world s') ∧
  driverLog (world s') = driverLog (world s) ∧
  quiescent s'.
Proof.
  intros Hq Hrun. simpl in Hrun.
  assert (Hgen : ∀ tr0 s0 s1, is_Some (deadError (pool (world s0))) → quiescent s0 →
            run tr0 s0 = Some s1 → world s1 = world s0 ∧ quiescent s1).
  { intros tr0. induction tr0 as [|e tr0 IH]; intros s0 s1 Hd Hq0; simpl.
    - by intros [= <-].
    - destruct (step e s0) as [s2|] eqn:E; [|done]. simpl. intros Hr.
      destruct (quiescent_step _ _ _ Hd Hq0 E) as [Hw Hq2].
      destruct (IH s2 s1) as [Hw1 Hq1]; [by rewrite Hw|done|done|].
      split; [congruence|done]. }
  destruct (Hgen tr (mkSys (pool_close (world s)) (tasks s) (adapters s)) s'
              (dead_after_close (world s)) Hq Hrun) as [Hw Hq'].
  simpl in Hw. rewrite Hw. split; [done|]. split; [apply same_pool_close|].
  split; [|done]. unfold pool_close. by destruct (deadError (pool (world s))).
Qed.

Lemma closed_pool_keeps_idle_connections_witness :
  let s := mkSys (addConnection 10 (createPool {["Pg"]} pg)) ∅ [] in
  let tr := [EvCall 1 OpExec None; EvCall 2 OpQuery None; EvClose] in
  quiescent s ∧
  ∃ s', run (EvClose :: tr) s = Some s' ∧
    world s' = pool_close (world s) ∧
    same_connections (world s) (world s') ∧
    driverLog (world s') = driverLog (world s) ∧
    quiescent s'.
Proof.
  assert (Hq : quiescent (mkSys (addConnection 10 (createPool {["Pg"]} pg)) ∅ [])).
  { split; [done|]. intros t k. simpl. by rewrite lookup_empty. }
  split; [exact Hq|]. eexists. split; [vm_compute; reflexivity|].
  apply (closed_pool_keeps_idle_connections
           [EvCall 1 OpExec None; EvCall 2 OpQuery None; EvClose] _ _ Hq).
  vm_compute; reflexivity.
Defined.

(** ** No wake-up is lost *)

Lemma gate_le_same w w' : gate w' = gate w → gate_le w w'.
Proof.
  unfold gate, gate_le, pending, sema_ok. intros [= Hs Hm Hd]. by rewrite Hs, Hm, Hd.
Qed.

Lemma gate_le_trans w1 w2 w3 : gate_le w1 w2 → gate_le w2 w3 → gate_le w1 w3.
Proof. intros [H1 H2] [H3 H4]. split; auto. Qed.

Lemma gate_tryPopConnection w : gate (tryPopConnection w).1 = gate w.
Proof.
  unfold tryPopConnection. destruct (first_key _) as [[i r]|]; [|done].
  by destruct (checkedOut _).
Qed.

Lemma gate_trim_turn w : gate (trim_turn w) = gate w.
Proof. unfold trim_turn. by destruct (first_key _) as [[i r]|]. Qed.

Lemma gate_trimIdle_loop turns w w' : trimIdle_loop turns w = Some w' → gate w' = gate w.
Proof.
  revert w. induction turns as [|k IH]; intros w; simpl; case_decide; try done.
  - by intros [= <-].
  - intros H1. rewrite (IH _ H1). apply gate_trim_turn.
  - by intros [= <-].
Qed.

Lemma gate_le_addConnection c w : gate_le w (addConnection c w).
Proof. by apply gate_le_same. Qed.

Lemma gate_connect w : gate (connect w).1 = gate w.
Proof. unfold connect. by case_decide. Qed.

Lemma gate_le_signal w : gate_le w (signal w).
Proof.
  split.
  - intros p [Hp|Hp]; left; simpl; apply elem_of_union; [by left|right].
    by apply elem_of_list_to_set.
  - intros [H1 H2]. by split.
Qed.

Lemma signal_settles w p : pending p w → p ∈ settled (signal w).
Proof.
  intros [Hp|Hp]; simpl; apply elem_of_union; [by left|right].
  by apply elem_of_list_to_set.
Qed.

Lemma gate_le_wait w : gate_le w (wait w).1 ∧ (sema_ok w → pending (wait w).2 (wait w).1).
Proof.
  unfold wait. cbv zeta. destruct (closed (connectionAvailableSema (pool w))) eqn:Hc; simpl.
  - split; [split|].
    + intros p [Hp|Hp]; [left|right]; simpl; [apply elem_of_union; by left|done].
    + done.
    + intros _. left. simpl. apply elem_of_union. right. by apply elem_of_singleton.
  - split; [split|].
    + intros p [Hp|Hp]; [left|right]; simpl; [done|apply elem_of_app; by left].
    + intros [H1 H2]. split; simpl; [done|]. intros Hd. apply H2 in Hd. congruence.
    + intros _. right. simpl. apply elem_of_app. right. by apply list_elem_of_singleton.
Qed.

Lemma gate_le_pool_close w : gate_le w (pool_close w) ∧ (∀ p, sema_ok w → pending p w → p ∈ settled (pool_close w)).
Proof.
  unfold pool_close. destruct (deadError (pool w)) as [d|] eqn:Hd.
  - split; [by apply gate_le_same|]. intros p [H1 H2] [Hp|Hp]; [done|].
    rewrite H1 in Hp; [by apply elem_of_nil in Hp|]. apply H2. by rewrite Hd.
  - split; [split|].
    + intros p [Hp|Hp]; left; simpl; apply elem_of_union; [by left|right].
      by apply elem_of_list_to_set.
    + intros _. by split.
    + intros p _ [Hp|Hp]; simpl; apply elem_of_union; [by left|right].
      by apply elem_of_list_to_set.
Qed.

Lemma gate_le_returnConnection c w w' res :
  returnConnection c w = Some (w', res) →
  gate_le w w' ∧ (res = Ret tt → ∀ p, pending p w → p ∈ settled w').
Proof.
  unfold returnConnection.
  destruct (symConnInfo w !! c) as [r|]; [|intros [= <- <-]; by split; [apply gate_le_same|]].
  destruct (negb _); [intros [= <- <-]; by split; [apply gate_le_same|]|].
  destruct (negb _); [intros [= <- <-]; by split; [apply gate_le_same|]|].
  destruct (trimIdle _) as [w3|] eqn:E; [|done]. intros [= <- <-].
  unfold trimIdle in E. apply gate_trimIdle_loop in E.
  match type of E with gate _ = gate (signal ?x) => set (w2 := x) in * end.
  assert (H2 : gate_le w w2) by (by apply gate_le_same).
  split.
  - eapply gate_le_trans; [exact H2|]. eapply gate_le_trans; [apply gate_le_signal|].
    by apply gate_le_same.
  - intros _ p Hp. apply H2 in Hp. apply signal_settles in Hp.
    unfold gate in E. by injection E as -> _ _.
Qed.

Lemma gate_le_admission ctx w :
  gate_le w (admission ctx w).1 ∧
  (∀ p, sema_ok w → (admission ctx w).2 = AwaitGate p → pending p (admission ctx w).1).
Proof.
  unfold admission. destruct (loop_test ctx (pool w)).
  - destruct (gate_le_wait w) as [H1 H2]. destruct (wait w) as [w1 p1]. simpl in *.
    split; [done|]. intros p Hok [= <-]. by apply H2.
  - destruct (checkDead w); [|by split; [apply gate_le_same|]].
    destruct ctx; [by split; [apply gate_le_same|]|]. simpl.
    pose proof (gate_connect w) as H. destruct (connect w) as [w1 [u|e]]; simpl in *;
      by split; [apply gate_le_same|].
Qed.

Lemma gate_le_pop_or op rest w :
  (∀ w0, gate_le w0 (rest w0).1 ∧
         (∀ p, sema_ok w0 → (rest w0).2 = AwaitGate p → pending p (rest w0).1)) →
  gate_le w (pop_or op rest w).1 ∧
  (∀ p, sema_ok w → (pop_or op rest w).2 = AwaitGate p → pending p (pop_or op rest w).1).
Proof.
  intros Hrest. unfold pop_or. pose proof (gate_tryPopConnection w) as H.
  destruct (tryPopConnection w) as [w1 [[c|]|e]]; simpl in *.
  - by split; [apply gate_le_same|].
  - destruct (Hrest w1) as [H1 H2]. apply gate_le_same in H. split.
    + by eapply gate_le_trans.
    + intros p Hok. apply H2. by apply H.
  - by split; [apply gate_le_same|].
Qed.

Lemma gate_ok_update s w' t k' tasks' ad' :
  gate_ok s → gate_le (world s) w' →
  tasks' = <[t := k']> (tasks s) →
  (∀ p, task_state k' = AwaitGate p → pending p w') →
  gate_ok (mkSys w' tasks' ad').
Proof.
  intros [Hok Hg] [Hle1 Hle2] -> Hk. split; [by apply Hle2|].
  intros t0 k0 p. simpl. rewrite lookup_insert. case_decide.
  - intros [= <-]. apply Hk.
  - intros H0 H1. apply Hle1. by eapply Hg.
Qed.

Lemma gate_ok_world s w' ad' :
  gate_ok s → gate_le (world s) w' → gate_ok (mkSys w' (tasks s) ad').
Proof.
  intros [Hok Hg] [Hle1 Hle2]. split; [by apply Hle2|].
  intros t0 k0 p H0 H1. apply Hle1. by eapply Hg.
Qed.

Lemma gate_le_finish op c out w w' r made :
  finish op c out w = Some (w', r, made) → gate_le w w'.
Proof.
  unfold finish.
  assert (Hret : ∀ k : World * Res unit → option (World * Res Value * bool),
            (∀ w1 r1, k (w1, r1) = Some (w', r, made) → w1 = w') →
            (returnConnection c w ≫= k) = Some (w', r, made) → gate_le w w').
  { intros k Hk H. destruct (returnConnection c w) as [[w1 r1]|] eqn:E; [|done].
    simpl in H. apply Hk in H as <-. by apply gate_le_returnConnection in E as [? _]. }
  destruct op, out; try (intros [= <- <- <-]; by apply gate_le_same);
    apply Hret; intros w1 [u|e1] H; simpl in H; congruence.
Qed.

Lemma gate_ok_step e s s' : gate_ok s → step e s = Some s' → gate_ok s'.
Proof.
  intros Hg. pose proof Hg as [Hok Htasks].
  destruct e as [t op ctx|t e|t|t c|t e|t|t e|c|]; simpl.
  - destruct (tasks s !! t); [done|]. unfold call.
    destruct (checkDead (world s)).
    + destruct (gate_le_pop_or op (admission ctx) (world s) (gate_le_admission ctx))
        as [H1 H2].
      unfold popConnection_entry. destruct (pop_or _ _ _) as [w1 st]. intros [= <-].
      eapply gate_ok_update; [exact Hg|exact H1|reflexivity|].
      simpl in *. intros p. by apply H2.
    + intros [= <-].
      eapply gate_ok_update; [exact Hg|by apply gate_le_same|reflexivity|done].
  - destruct (tasks s !! t) as [k|] eqn:Ht; [|done]. intros [= <-].
    eapply gate_ok_update; [exact Hg|by apply gate_le_same|reflexivity|].
    simpl. intros p Hp. by eapply Htasks.
  - destruct (tasks s !! t) as [k|] eqn:Ht; [|done]. simpl.
    destruct (task_state k) eqn:Hst; try done.
    + case_decide as Hp; [|done].
      destruct (gate_le_pop_or (task_op k) (admission (ctx_error k)) (world s)
                  (gate_le_admission _)) as [H1 H2].
      unfold popConnection_woken. destruct (pop_or _ _ _) as [w1 st]. intros [= <-].
      eapply gate_ok_update; [exact Hg|exact H1|reflexivity|].
      simpl in *. intros p0. by apply H2.
    + destruct (gate_le_pop_or (task_op k)
                  (λ w, (w, Settled (Throw (JsError msg_cannot_open)))) (world s)) as [H1 H2].
      { intros w0. by split; [apply gate_le_same|]. }
      unfold popConnection_opened. destruct (pop_or _ _ _) as [w1 st]. intros [= <-].
      eapply gate_ok_update; [exact Hg|exact H1|reflexivity|].
      simpl in *. intros p0. by apply H2.
  - destruct (tasks s !! t) as [k|]; [|done]. simpl.
    destruct (task_state k); try done. intros [= <-].
    eapply gate_ok_update; [exact Hg| |reflexivity|done].
    apply gate_le_addConnection.
  - destruct (tasks s !! t) as [k|]; [|done]. simpl.
    destruct (task_state k); try done. intros [= <-].
    eapply gate_ok_update; [exact Hg|by apply gate_le_same|reflexivity|done].
  - destruct (tasks s !! t) as [k|]; [|done]. simpl.
    destruct (task_state k); try done.
    destruct (finish _ _ _ _) as [[[w1 r] made]|] eqn:E; [|done]. simpl. intros [= <-].
    eapply gate_ok_update; [exact Hg|by eapply gate_le_finish|reflexivity|done].
  - destruct (tasks s !! t) as [k|]; [|done]. simpl.
    destruct (task_state k); try done.
    destruct (finish _ _ _ _) as [[[w1 r] made]|] eqn:E; [|done]. simpl. intros [= <-].
    eapply gate_ok_update; [exact Hg|by eapply gate_le_finish|reflexivity|done].
  - case_decide; [|done].
    destruct (returnConnection c (world s)) as [[w1 r]|] eqn:E; [|done]. simpl.
    intros [= <-]. apply gate_ok_world; [done|]. by apply gate_le_returnConnection in E as [? _].
  - intros [= <-]. apply gate_ok_world; [done|]. apply gate_le_pool_close.
Qed.

Lemma gate_ok_reachable drivers o tr s : run tr (boot drivers o) = Some s → gate_ok s.
Proof.
  assert (Hgen : ∀ tr0 s0 s1, gate_ok s0 → run tr0 s0 = Some s1 → gate_ok s1).
  { intros tr0. induction tr0 as [|e tr0 IH]; intros s0 s1 H0; simpl.
    - by intros [= <-].
    - destruct (step e s0) as [s2|] eqn:E; [|done]. simpl.
      apply IH. by eapply gate_ok_step. }
  apply Hgen. split; [split; [done|]|].
  - simpl. by intros [x Hx].
  - intros t k p. simpl. by rewrite lookup_empty.
Qed.

(** X6: no wake-up is lost.  In every reachable state, a call that waits at
    the gate of [__popConnection] awaits a promise that every successful
    [__returnConnection] and [close()] of the pool resolve: after either, the
    call can be resumed. *)
Theorem no_wakeup_is_lost drivers o tr s t k p :
  run tr (boot drivers o) = Some s →
  tasks s !! t = Some k → task_state k = AwaitGate p →
  (∀ c w1, returnConnection c (world s) = Some (w1, Ret tt) →
     p ∈ settled w1 ∧ is_Some (step (EvResume t) (mkSys w1 (tasks s) (adapters s)))) ∧
  (∃ s1, step EvClose s = Some s1 ∧ p ∈ settled (world s1) ∧
         is_Some (step (EvResume t) s1)).
Proof.
  intros Hrun Ht Hst. apply gate_ok_reachable in Hrun as [Hok Hg].
  pose proof (Hg t k p Ht Hst) as Hp.
  assert (Hres : ∀ w1, p ∈ settled w1 →
            is_Some (step (EvResume t) (mkSys w1 (tasks s) (adapters s)))).
  { intros w1 H1. simpl. rewrite Ht. simpl. rewrite Hst.
    rewrite decide_True by done. by destruct (popConnection_woken _ _ _). }
  split.
  - intros c w1 E. apply gate_le_returnConnection in E as [_ E].
    specialize (E eq_refl p Hp). split; [done|by apply Hres].
  - eexists. split; [reflexivity|].
    destruct (gate_le_pool_close (world s)) as [_ H]. specialize (H p Hok Hp).
    split; [done|by apply Hres].
Qed.

Lemma no_wakeup_is_lost_witness :
  ∃ s k, run blocked (boot {["Pg"]} pg_max1) = Some s ∧
         tasks s !! 2%N = Some k ∧ task_state k = AwaitGate 0%N ∧
         (∀ c w1, returnConnection c (world s) = Some (w1, Ret tt) →
            (0%N ∈ settled w1) ∧
            is_Some (step (EvResume 2) (mkSys w1 (tasks s) (adapters s)))) ∧
         (∃ s1, step EvClose s = Some s1 ∧ (0%N ∈ settled (world s1)) ∧
                is_Some (step (EvResume 2) s1)).
Proof.
  eexists _, _. split; [vm_compute; reflexivity|].
  split; [vm_compute; reflexivity|]. split; [reflexivity|].
  refine (no_wakeup_is_lost {["Pg"]} pg_max1 blocked _ 2%N _ 0%N _ _ _);
    vm_compute; reflexivity.
Defined.

(** ** One user per connection *)

Lemma linked_same seen w w' : quiet w w' → linked seen w → linked seen w'.
Proof.
  intros [(_ & _ & Hi & Hs & _ & _ & Ha & _) Hc] (H1 & H2 & H3 & H4). split_and!.
  - intros i r info. rewrite Ha, Hi, Hs. apply H1.
  - intros c. rewrite Hs. apply H2.
  - intros c. rewrite Hc, Hs. apply H3.
  - by rewrite Hc.
Qed.

Lemma linked_addConnection seen c w :
  WF w → linked seen w → c ∉ seen → linked (c :: seen) (addConnection c w).
Proof.
  intros Hwf (H1 & H2 & H3 & H4) Hc. split_and!; simpl.
  - intros i r info. rewrite lookup_insert. case_decide as E.
    + intros [= <-]. rewrite lookup_insert_eq. intros [= <-]. simpl.
      by rewrite lookup_insert_eq.
    + intros Hall. destruct (wf_records _ Hwf _ _ Hall) as (x & Hx & _).
      pose proof (wf_fresh_ref _ Hwf _ _ Hx) as Hlt.
      rewrite lookup_insert_ne by lia. intros Hinfo.
      pose proof (H1 _ _ _ Hall Hinfo) as Hsym.
      rewrite lookup_insert_ne; [done|]. intros Heq. apply Hc, H2. by rewrite Heq, Hsym.
  - intros c'. rewrite lookup_insert. case_decide as E.
    + subst. intros _. apply elem_of_cons. by left.
    + intros H. apply elem_of_cons. right. by apply H2.
  - intros c' Hc'. destruct (H3 c' Hc') as [Hn Hs]. split.
    + rewrite lookup_insert_ne; [done|]. by intros ->.
    + apply elem_of_cons. by right.
  - done.
Qed.

Lemma linked_removeConnection seen w i r :
  WF w → linked seen w → idleConnections (pool w) !! i = Some r →
  linked seen (log_call (DClose (info_conn (deref w r))) (removeConnection r w)).
Proof.
  intros Hwf (H1 & H2 & H3 & H4) Hidle.
  pose proof (idle_in_all _ _ _ (wf_consistent _ Hwf) Hidle) as Hall.
  destruct (wf_records _ Hwf _ _ Hall) as (x & Hx & Hxi & _). subst i.
  pose proof (H1 _ _ _ Hall Hx) as Hsymx.
  unfold removeConnection. rewrite (deref_Some _ _ _ Hx). simpl. split_and!.
  - intros j r' info'. simpl. rewrite lookup_delete. case_decide as E; [done|].
    intros Hj. assert (r' ≠ r) as Hne.
    { intros ->. by apply E, (all_ref_inj w (info_id x) j r). }
    rewrite lookup_insert_ne by done. intros Hinfo'.
    pose proof (H1 _ _ _ Hj Hinfo') as Hsym.
    rewrite lookup_delete_ne; [done|]. intros Heq.
    pose proof (H1 _ _ _ Hall Hx) as Hsym'. congruence.
  - intros c. simpl. rewrite lookup_delete. case_decide; [by intros [? ?]|]. apply H2.
  - intros c. simpl. rewrite closed_conns_app, elem_of_app. simpl.
    rewrite list_elem_of_singleton, lookup_delete. intros [Hc| ->].
    + destruct (H3 c Hc) as [Hn Hs]. split; [by case_decide|done].
    + rewrite decide_True by done. split; [done|]. apply H2. by rewrite Hsymx.
  - simpl. rewrite closed_conns_app. simpl. apply NoDup_app. split_and!; [done| |].
    + intros c Hc. rewrite list_elem_of_singleton. intros ->.
      destruct (H3 _ Hc) as [Hn _]. congruence.
    + apply NoDup_singleton.
Qed.

Lemma linked_tryPopConnection seen w :
  WF w → linked seen w → linked seen (tryPopConnection w).1.
Proof.
  intros Hwf Hl. pose proof Hl as (H1 & H2 & H3 & H4).
  destruct (first_key (idleConnections (pool w))) as [[i r]|] eqn:Hk.
  2:{ by rewrite tryPopConnection_empty. }
  destruct (tryPopConnection_idle _ _ _ Hwf Hk) as (info & Hinfo & Hco & Hi & ->).
  split; simpl; [|done].
  intros j r' info' Hj. rewrite lookup_insert. case_decide as E.
  - subst r'. intros [= <-]. simpl. by apply (H1 j r info).
  - intros Hi'. by apply (H1 j r' info').
Qed.

Lemma linked_before_trim seen c w :
  WF w → linked seen w → held c w → linked seen (before_trim c w).
Proof.
  intros Hwf (H1 & H2) (r & info & Hs & Hinfo & Hp & Hco).
  unfold before_trim. rewrite Hs, (deref_Some _ _ _ Hinfo).
  split; simpl; [|done].
  intros j r' info' Hj. rewrite lookup_insert. case_decide as E.
  - subst r'. intros [= <-]. simpl. by apply (H1 j r info).
  - intros Hi'. by apply (H1 j r' info').
Qed.

Lemma held_same c w w' : same_connections w w' → held c w → held c w'.
Proof.
  intros (_ & _ & Hi & Hs & Ht & _) (r & info & H). exists r, info.
  by rewrite Hi, Hs, Ht.
Qed.

Lemma kept_same seen c w w' : quiet w w' → kept seen c w → kept seen c w'.
Proof.
  intros Hs [H1 H2]. split; [by eapply linked_same|]. eapply held_same; [apply Hs|done].
Qed.

Lemma held_addConnection c c' w :
  WF w → c' ≠ c → held c' w → held c' (addConnection c w).
Proof.
  intros Hwf Hne (r & info & Hs & Hinfo & Hp & Hco). exists r, info. simpl.
  rewrite lookup_insert_ne by done.
  pose proof (wf_fresh_ref _ Hwf _ _ Hinfo). by rewrite lookup_insert_ne by lia.
Qed.

Lemma kept_removeConnection seen c w i r :
  WF w → kept seen c w → idleConnections (pool w) !! i = Some r →
  kept seen c (log_call (DClose (info_conn (deref w r))) (removeConnection r w)).
Proof.
  intros Hwf [Hl Hh] Hidle. split; [by eapply linked_removeConnection|].
  eapply held_same; [apply same_log_call|].
  destruct Hh as (rc & ic & Hs & Hinfo & Hp & Hco).
  pose proof (idle_in_all _ _ _ (wf_consistent _ Hwf) Hidle) as Hall.
  destruct (cons_idle_free _ (wf_consistent _ Hwf) _ _ Hidle) as (x & Hx & Hxco).
  assert (rc ≠ r) as Hne by (intros ->; congruence).
  exists rc, ic. unfold removeConnection. rewrite (deref_Some _ _ _ Hx). simpl.
  rewrite lookup_insert_ne by done. split_and!; try done.
  rewrite lookup_delete_ne; [done|]. intros Heq.
  destruct Hl as (H1 & _). pose proof (H1 _ _ _ Hall Hx) as Hsym. congruence.
Qed.

Lemma held_tryPopConnection c w : WF w → held c w → held c (tryPopConnection w).1.
Proof.
  intros Hwf (rc & ic & Hs & Hinfo & Hp & Hco).
  destruct (first_key (idleConnections (pool w))) as [[i r]|] eqn:Hk.
  2:{ rewrite tryPopConnection_empty by done. by exists rc, ic. }
  destruct (tryPopConnection_idle _ _ _ Hwf Hk) as (info & Hinfo' & Hco' & Hi & ->).
  simpl. destruct (decide (rc = r)) as [->|Hne].
  - exists r, (set_checkedOut true info). simpl. rewrite lookup_insert_eq.
    split_and!; try done. congruence.
  - exists rc, ic. simpl. by rewrite lookup_insert_ne.
Qed.

Lemma kept_tryPopConnection seen c w :
  WF w → kept seen c w → kept seen c (tryPopConnection w).1.
Proof.
  intros Hwf [Hl Hh]. split; [by apply linked_tryPopConnection|by apply held_tryPopConnection].
Qed.

Lemma held_before_trim c c' w :
  WF w → c' ≠ c → held c w → held c' w → held c' (before_trim c w).
Proof.
  intros Hwf Hne (r & info & Hs & Hinfo & Hp & Hco) (rc & ic & Hs' & Hinfo' & Hp' & Hco').
  unfold before_trim. rewrite Hs, (deref_Some _ _ _ Hinfo).
  assert (rc ≠ r) as Hr.
  { intros ->. destruct (wf_sym _ Hwf _ _ Hs) as (x & Hx & Hxc & _).
    destruct (wf_sym _ Hwf _ _ Hs') as (y & Hy & Hyc & _). congruence. }
  exists rc, ic. simpl. by rewrite lookup_insert_ne.
Qed.

Lemma linked_trimIdle_loop seen turns w w' :
  WF w → linked seen w → trimIdle_loop turns w = Some w' → linked seen w'.
Proof.
  apply (lift_trimIdle_loop (linked seen)). intros. by eapply linked_removeConnection.
Qed.

Lemma linked_returnConnection seen c w w' res :
  WF w → linked seen w → returnConnection c w = Some (w', res) → linked seen w'.
Proof.
  apply (lift_returnConnection (linked seen)).
  - intros. by eapply linked_removeConnection.
  - intros. by eapply linked_before_trim.
Qed.

Lemma kept_trimIdle_loop seen c turns w w' :
  WF w → kept seen c w → trimIdle_loop turns w = Some w' → kept seen c w'.
Proof.
  apply (lift_trimIdle_loop (kept seen c)). intros. by eapply kept_removeConnection.
Qed.

(** Returning [c] leaves every other connection checked out. *)
Lemma held_returnConnection seen c c' w w' res :
  WF w → linked seen w → c' ≠ c → held c' w →
  returnConnection c w = Some (w', res) → held c' w'.
Proof.
  intros Hwf Hl Hne Hh H. destruct (returnConnection_cases w c Hwf) as [Hc|[e He]].
  - destruct (WF_before_trim _ _ Hwf Hc) as (Hwf2 & _ & _ & _ & Heq).
    rewrite Heq in H. destruct (trimIdle (before_trim c w)) as [w3|] eqn:Ht; [|done].
    injection H as <- <-.
    eapply (kept_trimIdle_loop seen c' _ _ _ Hwf2); [|exact Ht].
    split; [by apply linked_before_trim|by apply held_before_trim].
  - rewrite He in H. by injection H as <- <-.
Qed.

(** A connection handed out by [__tryPopConnection] was not checked out
    before and is so afterwards. *)
Lemma tryPopConnection_takes seen w w1 c :
  WF w → linked seen w → tryPopConnection w = (w1, Ret (Some c)) →
  ¬ held c w ∧ held c w1.
Proof.
  intros Hwf (H1 & _).
  destruct (first_key (idleConnections (pool w))) as [[i r]|] eqn:Hk.
  2:{ by rewrite tryPopConnection_empty. }
  destruct (tryPopConnection_idle _ _ _ Hwf Hk) as (info & Hinfo & Hco & Hi & ->).
  intros [= <- <-]. apply first_key_lookup in Hk.
  pose proof (idle_in_all _ _ _ (wf_consistent _ Hwf) Hk) as Hall.
  pose proof (H1 _ _ _ Hall Hinfo) as Hsym. split.
  - intros (rc & ic & Hs & Hic & _ & Hcoc). congruence.
  - exists r, (set_checkedOut true info). simpl. rewrite lookup_insert_eq.
    split_and!; try done.
    destruct (wf_records _ Hwf _ _ Hall) as (x & Hx & _ & Hp). congruence.
Qed.

Lemma pops_admission seen ctx w : linked seen w → pops seen w (admission ctx w).
Proof.
  intros Hl.
  assert (Hgen : ∀ w1 st, quiet w w1 → (∀ c, st ≠ AwaitDriver c) →
            pops seen w (w1, st)).
  { intros w1 st Hs Hst. split_and!; simpl.
    - by eapply linked_same.
    - intros c'. apply held_same, Hs.
    - intros c Hc. by destruct (Hst c). }
  assert (Hrefl : quiet w w) by (by repeat split).
  unfold admission. destruct (loop_test ctx (pool w)).
  - pose proof (quiet_wait w) as H. destruct (wait w) as [w1 p]. by apply Hgen.
  - destruct (checkDead w); [|by apply Hgen].
    destruct ctx as [e|]; [by apply Hgen|]. simpl.
    pose proof (quiet_connect w) as H. destruct (connect w) as [w1 [u|e]]; by apply Hgen.
Qed.

Lemma pops_pop_or seen op rest w :
  (∀ w0, linked seen w0 → pops seen w0 (rest w0)) →
  WF w → linked seen w → pops seen w (pop_or op rest w).
Proof.
  intros Hrest Hwf Hl. unfold pop_or.
  pose proof (linked_tryPopConnection seen w Hwf Hl) as Hl1.
  pose proof (λ c, held_tryPopConnection c w Hwf) as Hk.
  pose proof (tryPopConnection_takes seen w) as Ht.
  destruct (tryPopConnection w) as [w1 [[c|]|e]]; simpl in *.
  - destruct (Ht w1 c Hwf Hl eq_refl) as [Hn Hh]. split_and!; simpl.
    + eapply linked_same; [apply quiet_driver_call|done].
    + intros c' Hc'. eapply held_same; [apply same_log_call|]. by apply Hk.
    + intros c0 [= <-]. split; [done|]. eapply held_same; [apply same_log_call|done].
  - destruct (Hrest w1 Hl1) as (H1 & H2 & H3). split_and!; [done| |].
    + intros c' Hc'. by apply H2, Hk.
    + intros c Hc. destruct (H3 c Hc) as [Hn Hh]. split; [|done].
      intros Hc'. by apply Hn, Hk.
  - split_and!; simpl; [done|done|done].
Qed.

Lemma state_of_put t t0 k w (s : Sys) ad :
  state_of t (mkSys w (<[t0 := k]> (tasks s)) ad) =
  if decide (t0 = t) then Some (task_state k) else state_of t s.
Proof.
  unfold state_of. simpl. rewrite lookup_insert. by case_decide.
Qed.

(** The call [t], which held no connection, moves on. *)
Lemma exclusive_take s w1 t k :
  exclusive s →
  (∀ c, state_of t s ≠ Some (AwaitDriver c)) →
  (∀ c', held c' (world s) → held c' w1) →
  (∀ c, task_state k = AwaitDriver c → ¬ held c (world s) ∧ held c w1) →
  exclusive (mkSys w1 (<[t := k]> (tasks s)) (adapters s)).
Proof.
  intros [E1 E2 E3 E4 E5] Hold Hkeep Hnew. split; simpl.
  - intros t0 c. rewrite state_of_put. case_decide.
    + intros [= Hc]. by apply Hnew.
    + intros H0. by apply Hkeep, (E1 t0).
  - intros c Hc. by apply Hkeep, E2.
  - intros t1 t2 c. rewrite !state_of_put. repeat case_decide; subst; try done.
    + intros [= Hc] H2. destruct (Hnew c Hc) as [Hn _]. destruct Hn. by apply (E1 t2).
    + intros H1 [= Hc]. destruct (Hnew c Hc) as [Hn _]. destruct Hn. by apply (E1 t1).
    + apply E3.
  - intros t0 c. rewrite state_of_put. case_decide.
    + intros [= Hc] Hin. destruct (Hnew c Hc) as [Hn _]. by apply Hn, E2.
    + apply E4.
  - done.
Qed.

(** The state of the call [t] stays what it is. *)
Lemma exclusive_keep s w1 t k :
  exclusive s →
  state_of t s = Some (task_state k) →
  (∀ c', held c' (world s) → held c' w1) →
  exclusive (mkSys w1 (<[t := k]> (tasks s)) (adapters s)).
Proof.
  intros [E1 E2 E3 E4 E5] Hold Hkeep.
  assert (Hst : ∀ t0, state_of t0 (mkSys w1 (<[t := k]> (tasks s)) (adapters s)) = state_of t0 s).
  { intros t0. rewrite state_of_put. case_decide; by subst. }
  split; simpl; try setoid_rewrite Hst; eauto.
Qed.

(** The call [t] gives up [c]: to an adapter, or back to the pool. *)
Lemma exclusive_release s w1 t k c (made : bool) :
  exclusive s →
  state_of t s = Some (AwaitDriver c) →
  (∀ c0, task_state k ≠ AwaitDriver c0) →
  (∀ c', c' ≠ c → held c' (world s) → held c' w1) →
  (made = true → held c w1) →
  exclusive (mkSys w1 (<[t := k]> (tasks s)) (if made then c :: adapters s else adapters s)).
Proof.
  intros [E1 E2 E3 E4 E5] Hold Hk Hkeep Hmade.
  assert (Hother : ∀ t0 c0, t ≠ t0 → state_of t0 s = Some (AwaitDriver c0) → c0 ≠ c).
  { intros t0 c0 Hne H0 ->. by apply Hne, (E3 t t0 c). }
  assert (Had : ∀ c0, c0 ∈ adapters s → c0 ≠ c).
  { intros c0 Hin ->. by apply (E4 t c). }
  split; simpl.
  - intros t0 c0. rewrite state_of_put. case_decide.
    + intros [= Hc]. by destruct (Hk c0).
    + intros H0. apply Hkeep; [by eapply Hother|by apply (E1 t0)].
  - intros c0. destruct made.
    + rewrite elem_of_cons. intros [->|Hin]; [by apply Hmade|].
      apply Hkeep; [by apply Had|by apply E2].
    + intros Hin. apply Hkeep; [by apply Had|by apply E2].
  - intros t1 t2 c0. rewrite !state_of_put. repeat case_decide; subst; try done.
    + intros [= Hc]. by destruct (Hk c0).
    + intros _ [= Hc]. by destruct (Hk c0).
    + apply E3.
  - intros t0 c0. rewrite state_of_put. case_decide.
    + intros [= Hc]. by destruct (Hk c0).
    + intros H0. destruct made; [|by apply (E4 t0)].
      rewrite not_elem_of_cons. split; [by eapply Hother|by apply (E4 t0)].
  - destruct made; [|done]. apply NoDup_cons. split; [|done]. by apply (E4 t).
Qed.

Lemma remove_one_NoDup c l : NoDup l → NoDup (remove_one c l) ∧
  ∀ c0, c0 ∈ remove_one c l → c0 ∈ l ∧ c0 ≠ c.
Proof.
  induction 1 as [|x l Hx Hl IH]; simpl.
  - split; [constructor|]. intros c0 H. by apply elem_of_nil in H.
  - destruct (N.eqb_spec x c) as [->|Hne].
    + split; [done|]. intros c0 Hin. split; [apply elem_of_cons; by right|].
      intros ->. done.
    + destruct IH as [IH1 IH2]. split.
      * apply NoDup_cons. split; [|done]. intros Hin. by apply Hx, IH2.
      * intros c0. rewrite !elem_of_cons. intros [->|Hin]; [by split; [left|]|].
        destruct (IH2 _ Hin). by split; [right|].
Qed.

(** An adapter gives [c] back. *)
Lemma exclusive_adapter_return s w1 c :
  exclusive s → c ∈ adapters s →
  (∀ c', c' ≠ c → held c' (world s) → held c' w1) →
  exclusive (mkSys w1 (tasks s) (remove_one c (adapters s))).
Proof.
  intros [E1 E2 E3 E4 E5] Hin Hkeep.
  destruct (remove_one_NoDup c _ E5) as [Hnd Hrem].
  split; simpl; unfold state_of in *; simpl.
  - intros t c0 H0. apply Hkeep; [|by apply (E1 t)]. intros ->. by apply (E4 t c).
  - intros c0 H0. destruct (Hrem _ H0). apply Hkeep; [done|by apply E2].
  - apply E3.
  - intros t c0 H0 H1. destruct (Hrem _ H1). by apply (E4 t c0).
  - done.
Qed.

Lemma held_finish seen op c out w w' r made c' :
  WF w → linked seen w → c' ≠ c → held c' w →
  finish op c out w = Some (w', r, made) → held c' w'.
Proof.
  intros Hwf Hl Hne Hh. unfold finish.
  assert (Hret : ∀ k : World * Res unit → option (World * Res Value * bool),
            (∀ w1 r1, k (w1, r1) = Some (w', r, made) → w1 = w') →
            (returnConnection c w ≫= k) = Some (w', r, made) → held c' w').
  { intros k Hk H. destruct (returnConnection c w) as [[w1 r1]|] eqn:E; [|done].
    simpl in H. apply Hk in H as <-. by eapply held_returnConnection. }
  destruct op, out; try (intros [= <- <- <-]; done);
    apply Hret; intros w1 [u|e1] H; simpl in H; congruence.
Qed.

Lemma linked_finish seen op c out w w' r made :
  WF w → linked seen w → finish op c out w = Some (w', r, made) → linked seen w'.
Proof.
  apply (lift_finish (linked seen)).
  - intros. by eapply linked_removeConnection.
  - intros. by eapply linked_before_trim.
Qed.

Lemma finish_made op c out w w' r made :
  finish op c out w = Some (w', r, made) → made = true → w' = w.
Proof.
  unfold finish. destruct op, out; try (by intros [= <- <- <-]);
    destruct (returnConnection c w) as [[w1 [u|e1]]|]; simpl; congruence.
Qed.

Lemma owned_step seen e s s' :
  owned seen s →
  (∀ t c, e = EvConnected t c → c ∉ seen) →
  step e s = Some s' →
  owned (delivered [e] ++ seen) s'.
Proof.
  intros (Hwf & Hl & Hex) Hfresh Hstep.
  split; [by eapply WF_step|]. revert Hstep.
  destruct e as [t op ctx|t e|t|t c|t e|t|t e|c|]; simpl.
  - destruct (tasks s !! t) eqn:Ht; [done|]. unfold call.
    assert (Hno : ∀ c, state_of t s ≠ Some (AwaitDriver c)).
    { intros c. unfold state_of. by rewrite Ht. }
    destruct (checkDead (world s)).
    + pose proof (pops_pop_or seen op (admission ctx) (world s)
                    (pops_admission seen ctx) Hwf Hl) as (H1 & H2 & H3).
      unfold popConnection_entry. destruct (pop_or _ _ _) as [w1 st]. intros [= <-].
      split; [done|]. by apply exclusive_take.
    + intros [= <-]. split; [done|]. by apply exclusive_take.
  - destruct (tasks s !! t) as [k|] eqn:Ht; [|done]. intros [= <-]. split; [done|].
    apply exclusive_keep; [done| |done]. unfold state_of. by rewrite Ht.
  - destruct (tasks s !! t) as [k|] eqn:Ht; [|done]. simpl.
    destruct (task_state k) eqn:Hst; try done.
    + case_decide as Hp; [|done].
      assert (Hno : ∀ c, state_of t s ≠ Some (AwaitDriver c)).
      { intros c. unfold state_of. rewrite Ht. simpl. by rewrite Hst. }
      pose proof (pops_pop_or seen (task_op k) (admission (ctx_error k)) (world s)
                    (pops_admission seen _) Hwf Hl) as (H1 & H2 & H3).
      unfold popConnection_woken. destruct (pop_or _ _ _) as [w1 st]. intros [= <-].
      split; [done|]. by apply exclusive_take.
    + assert (Hno : ∀ c, state_of t s ≠ Some (AwaitDriver c)).
      { intros c. unfold state_of. rewrite Ht. simpl. by rewrite Hst. }
      pose proof (pops_pop_or seen (task_op k)
                    (λ w, (w, Settled (Throw (JsError msg_cannot_open)))) (world s)) as H.
      destruct H as (H1 & H2 & H3); [|done|done|].
      { intros w0 H0. by split_and!. }
      unfold popConnection_opened. destruct (pop_or _ _ _) as [w1 st]. intros [= <-].
      split; [done|]. by apply exclusive_take.
  - destruct (tasks s !! t) as [k|] eqn:Ht; [|done]. simpl.
    destruct (task_state k) eqn:Hst; try done. intros [= <-].
    pose proof (Hfresh t c eq_refl) as Hc. split; [by apply linked_addConnection|].
    apply exclusive_take; [done| | |done].
    + intros c0. unfold state_of. rewrite Ht. simpl. by rewrite Hst.
    + intros c' Hc'. apply held_addConnection; [done| |done].
      intros ->. destruct Hc' as (r & info & Hs & _).
      apply Hc, (proj1 (proj2 Hl)). by rewrite Hs.
  - destruct (tasks s !! t) as [k|] eqn:Ht; [|done]. simpl.
    destruct (task_state k) eqn:Hst; try done. intros [= <-]. split; [done|].
    apply exclusive_take; [done| |done|done].
    intros c0. unfold state_of. rewrite Ht. simpl. by rewrite Hst.
  - destruct (tasks s !! t) as [k|] eqn:Ht; [|done]. simpl.
    destruct (task_state k) eqn:Hst; try done.
    destruct (finish _ _ _ _) as [[[w1 r] made]|] eqn:E; [|done]. simpl. intros [= <-].
    split; [by eapply linked_finish|].
    apply exclusive_release; [done| |done| |].
    + unfold state_of. rewrite Ht. simpl. by rewrite Hst.
    + intros c' Hne Hc'. by eapply held_finish.
    + intros ->. rewrite (finish_made _ _ _ _ _ _ _ E eq_refl).
      apply (ex_task _ Hex t). unfold state_of. rewrite Ht. simpl. by rewrite Hst.
  - destruct (tasks s !! t) as [k|] eqn:Ht; [|done]. simpl.
    destruct (task_state k) eqn:Hst; try done.
    destruct (finish _ _ _ _) as [[[w1 r] made]|] eqn:E; [|done]. simpl. intros [= <-].
    split; [by eapply linked_finish|].
    apply (exclusive_release s w1 t _ c false); [done| |done| |done].
    + unfold state_of. rewrite Ht. simpl. by rewrite Hst.
    + intros c' Hne Hc'. by eapply held_finish.
  - case_decide as Hin; [|done].
    destruct (returnConnection c (world s)) as [[w1 r]|] eqn:E; [|done]. simpl.
    intros [= <-]. split; [by eapply linked_returnConnection|].
    apply exclusive_adapter_return; [done|done|].
    intros c' Hne Hc'. by eapply held_returnConnection.
  - intros [= <-]. split; [eapply linked_same; [apply quiet_pool_close|done]|].
    destruct Hex as [E1 E2 E3 E4 E5]. split; simpl; try done.
    + intros t c H. eapply held_same; [apply same_pool_close|]. by apply (E1 t).
    + intros c H. eapply held_same; [apply same_pool_close|]. by apply E2.
Qed.

Lemma delivered_cons e tr : delivered (e :: tr) = delivered [e] ++ delivered tr.
Proof. by destruct e. Qed.

Lemma owned_run tr : ∀ seen s s',
  owned seen s → NoDup (delivered tr) → (∀ c, c ∈ delivered tr → c ∉ seen) →
  run tr s = Some s' → ∃ seen', owned seen' s'.
Proof.
  induction tr as [|e tr IH]; intros seen s s' Hown Hnd Hfresh; simpl.
  - intros [= <-]. by exists seen.
  - destruct (step e s) as [s1|] eqn:E; [|done]. simpl.
    rewrite delivered_cons in Hnd, Hfresh. apply NoDup_app in Hnd as (_ & Hd & Hnd).
    apply (IH (delivered [e] ++ seen)); [|done|].
    + eapply owned_step; [done| |done]. intros t c ->. apply Hfresh.
      apply elem_of_app. left. simpl. by apply list_elem_of_singleton.
    + intros c Hc. rewrite not_elem_of_app. split.
      * intros Hc'. by apply (Hd c).
      * apply Hfresh. apply elem_of_app. by right.
Qed.

Lemma owned_reachable drivers o tr s :
  NoDup (delivered tr) → run tr (boot drivers o) = Some s → ∃ seen, owned seen s.
Proof.
  intros Hnd. apply (owned_run tr []); [|done|].
  - split_and!; [apply WF_createPool| |].
    + split_and!; simpl.
      * intros i r info. by rewrite lookup_empty.
      * intros c. rewrite lookup_empty. by intros [? ?].
      * intros c H. by apply elem_of_nil in H.
      * constructor.
    + split; simpl; unfold state_of; simpl.
      * intros t c. by rewrite lookup_empty.
      * intros c H. by apply elem_of_nil in H.
      * intros t1 t2 c. by rewrite lookup_empty.
      * intros t c. by rewrite lookup_empty.
      * constructor.
  - intros c _ H. by apply elem_of_nil in H.
Qed.

Lemma held_not_idle_conn seen c w : WF w → linked seen w → held c w → ¬ idle_conn c w.
Proof.
  intros Hwf (H1 & _) (rc & ic & Hs & Hic & _ & Hco) (i & r & info & Hidle & Hinfo & Hc).
  pose proof (idle_in_all _ _ _ (wf_consistent _ Hwf) Hidle) as Hall.
  pose proof (H1 _ _ _ Hall Hinfo) as Hsym. rewrite Hc in Hsym.
  destruct (cons_idle_free _ (wf_consistent _ Hwf) _ _ Hidle) as (x & Hx & Hxco).
  congruence.
Qed.

(** X9: a connection has one user at a time.  Along every schedule in
    which the driver delivers a new connection each time, a call that is
    waiting for the driver on a connection has that connection checked
    out, no idle record offers it, no adapter keeps it and no other call
    is using it; the connection of an adapter is checked out and not
    idle, and no two adapters share one. *)
Theorem connection_has_one_user drivers o tr s :
  NoDup (delivered tr) → run tr (boot drivers o) = Some s →
  (∀ t c, state_of t s = Some (AwaitDriver c) →
     held c (world s) ∧ ¬ idle_conn c (world s) ∧ (c ∉ adapters s) ∧
     ∀ t', state_of t' s = Some (AwaitDriver c) → t' = t) ∧
  (∀ c, c ∈ adapters s → held c (world s) ∧ ¬ idle_conn c (world s)) ∧
  NoDup (adapters s).
Proof.
  intros Hnd Hrun.
  destruct (owned_reachable _ _ _ _ Hnd Hrun) as (seen & Hwf & Hl & [E1 E2 E3 E4 E5]).
  split_and!; [| |done].
  - intros t c Ht. split_and!.
    + by apply (E1 t).
    + eapply held_not_idle_conn; [done|done|]. by apply (E1 t).
    + by apply (E4 t).
    + intros t' Ht'. by apply (E3 t' t c).
  - intros c Hc. split; [by apply E2|]. eapply held_not_idle_conn; [done|done|by apply E2].
Qed.

Lemma connection_has_one_user_witness :
  NoDup (delivered two_users) ∧
  ∃ s, run two_users (boot {["Pg"]} pg) = Some s ∧
    state_of 2 s = Some (AwaitDriver 11) ∧ adapters s = [10%N] ∧
    (∀ t c, state_of t s = Some (AwaitDriver c) →
       held c (world s) ∧ ¬ idle_conn c (world s) ∧ (c ∉ adapters s) ∧
       ∀ t', state_of t' s = Some (AwaitDriver c) → t' = t) ∧
    (∀ c, c ∈ adapters s → held c (world s) ∧ ¬ idle_conn c (world s)) ∧
    NoDup (adapters s).
Proof.
  assert (Hnd : NoDup (delivered two_users)).
  { apply (bool_decide_unpack _). by vm_compute. }
  split; [exact Hnd|]. eexists. split; [vm_compute; reflexivity|].
  split; [vm_compute; reflexivity|]. split; [vm_compute; reflexivity|].
  apply (connection_has_one_user {["Pg"]} pg two_users _ Hnd). vm_compute; reflexivity.
Defined.



(** X20: a connection the pool has closed is out of use.  In the same
    schedules, [close()] is called at most once on a connection, and a
    connection on which it was called has no record in the pool, is not
    idle, not checked out, not in the hands of a call or of an adapter. *)
Theorem closed_connection_is_out_of_use drivers o tr s :
  NoDup (delivered tr) → run tr (boot drivers o) = Some s →
  NoDup (closed_conns (driverLog (world s))) ∧
  ∀ c, c ∈ closed_conns (driverLog (world s)) →
    symConnInfo (world s) !! c = None ∧
    ¬ idle_conn c (world s) ∧ ¬ held c (world s) ∧
    (∀ t, state_of t s ≠ Some (AwaitDriver c)) ∧ (c ∉ adapters s).
Proof.
  intros Hnd Hrun.
  destruct (owned_reachable _ _ _ _ Hnd Hrun) as (seen & Hwf & Hl & [E1 E2 E3 E4 E5]).
  destruct Hl as (H1 & H2 & H3 & H4). split; [done|].
  intros c Hc. destruct (H3 c Hc) as [Hn _].
  assert (Hh : ¬ held c (world s)).
  { intros (r & info & Hs & _). congruence. }
  split_and!; [done| |done| |].
  - intros (i & r & info & Hidle & Hinfo & Hconn).
    pose proof (idle_in_all _ _ _ (wf_consistent _ Hwf) Hidle) as Hall.
    pose proof (H1 _ _ _ Hall Hinfo) as Hsym. congruence.
  - intros t Ht. by apply Hh, (E1 t).
  - intros Hin. by apply Hh, E2.
Qed.

Lemma closed_connection_is_out_of_use_witness :
  NoDup (delivered open_two_return_two) ∧
  ∃ s, run open_two_return_two (boot {["Pg"]} pg) = Some s ∧
    closed_conns (driverLog (world s)) = [10%N] ∧
    NoDup (closed_conns (driverLog (world s))) ∧
    ∀ c, c ∈ closed_conns (driverLog (world s)) →
      symConnInfo (world s) !! c = None ∧
      ¬ idle_conn c (world s) ∧ ¬ held c (world s) ∧
      (∀ t, state_of t s ≠ Some (AwaitDriver c)) ∧ (c ∉ adapters s).
Proof.
  assert (Hnd : NoDup (delivered open_two_return_two)).
  { apply (bool_decide_unpack _). by vm_compute. }
  split; [exact Hnd|]. eexists. split; [vm_compute; reflexivity|].
  split; [vm_compute; reflexivity|].
  apply (closed_connection_is_out_of_use {["Pg"]} pg open_two_return_two _ Hnd).
  vm_compute; reflexivity.
Defined.

(** ** The row-stream adapter over any callback *)

Section RowsOnce.
Context {W : Type} (f : W → option (W * Res unit)).

Lemma rows_use_cases {D} u (x : DBPoolRowsWrapper D) w x' w' :
  rw_done x = false → rows_use f u x w = Some (x', w') →
  (rw_done x' = false ∧ w' = w) ∨ (rw_done x' = true ∧ ∃ r, f w = Some (w', r)).
Proof.
  intros Hd. destruct u; simpl.
  - unfold rw_next, checkStatus, rw_next_settled. simpl. rewrite Hd, andb_true_r.
    destruct (rows_done D _); simpl.
    + destruct (f w) as [[w1 r]|]; [|done]. simpl. destruct (rows_next_settle D _).
      intros [= <- <-]. right. eauto.
    + destruct (rows_next_settle D _). intros [= <- <-]. by left.
  - unfold rw_close, checkStatus. destruct (rows_close D _) as [u [[]|e]]; simpl.
    + rewrite Hd, andb_true_r. destruct (rows_done D u); simpl.
      * destruct (f w) as [[w1 r]|]; [|done]. simpl. intros [= <- <-]. right. eauto.
      * intros [= <- <-]. by left.
    + intros [= <- <-]. by left.
Qed.

Lemma rows_uses_cases {D} us (x : DBPoolRowsWrapper D) w x' w' :
  rw_done x = false → rows_uses f us x w = Some (x', w') →
  (rw_done x' = false ∧ w' = w) ∨ (rw_done x' = true ∧ ∃ r, f w = Some (w', r)).
Proof.
  revert x w. induction us as [|u us IH]; intros x w Hd; simpl.
  - intros [= <- <-]. by left.
  - destruct (rows_use f u x w) as [[x1 w1]|] eqn:E; [|done]. simpl.
    destruct (rows_use_cases _ _ _ _ _ Hd E) as [[Hd1 ->]|[Hd1 Hf]]; [by apply IH|].
    intros H. apply (rows_uses_done f _ _ _ _ _ Hd1) in H as [-> ?]. by right.
Qed.

(** Once the latch is set every use ends and leaves the state alone. *)
Lemma rows_uses_done_total {D} us (x : DBPoolRowsWrapper D) w :
  rw_done x = true → ∃ x', rows_uses f us x w = Some (x', w) ∧ rw_done x' = true.
Proof.
  revert x. induction us as [|u us IH]; intros x Hd; simpl; [by exists x|].
  assert (∃ x1, rows_use f u x w = Some (x1, w) ∧ rw_done x1 = true) as (x1 & -> & Hd1).
  { destruct u; simpl.
    - unfold rw_next. rewrite checkStatus_done by done. simpl.
      unfold rw_next_settled. simpl. destruct (rows_next_settle D _). eauto.
    - unfold rw_close. destruct (rows_close D _) as [u [[]|e]].
      + rewrite checkStatus_done by done. simpl. eauto.
      + simpl. eauto. }
  simpl. by apply IH.
Qed.

Section Defined_at.
Variables (w w1 : W) (r0 : Res unit).
Hypothesis Hf : f w = Some (w1, r0).

Lemma rows_use_total {D} u (x : DBPoolRowsWrapper D) :
  rw_done x = false →
  ∃ x', (rows_use f u x w = Some (x', w) ∧ rw_done x' = false) ∨
        (rows_use f u x w = Some (x', w1) ∧ rw_done x' = true).
Proof using Hf.
  intros Hd. destruct u; simpl.
  - unfold rw_next, checkStatus, rw_next_settled. simpl. rewrite Hd, andb_true_r.
    destruct (rows_done D _); simpl.
    + rewrite Hf. simpl. destruct (rows_next_settle D _). eauto.
    + destruct (rows_next_settle D _). eauto.
  - unfold rw_close, checkStatus. destruct (rows_close D _) as [u [[]|e]]; simpl.
    + rewrite Hd, andb_true_r. destruct (rows_done D u); simpl.
      * rewrite Hf. simpl. eauto.
      * eauto.
    + eauto.
Qed.

Lemma rows_uses_total {D} us (x : DBPoolRowsWrapper D) :
  rw_done x = false →
  ∃ x', (rows_uses f us x w = Some (x', w) ∧ rw_done x' = false) ∨
        (rows_uses f us x w = Some (x', w1) ∧ rw_done x' = true).
Proof using Hf.
  revert x. induction us as [|u us IH]; intros x Hd; simpl; [eauto|].
  destruct (rows_use_total u x Hd) as (x1 & [[-> Hd1]|[-> Hd1]]); simpl.
  - by apply IH.
  - destruct (rows_uses_done_total us x1 w1 Hd1) as (x2 & -> & Hd2). eauto.
Qed.

Lemma rows_close_total {D} (x : DBPoolRowsWrapper D) :
  closes_done D → rw_done x = false →
  ∃ x', rows_use f UseClose x w = Some (x', w1) ∧ rw_done x' = true.
Proof using Hf.
  intros HD Hd. simpl. unfold rw_close. destruct (HD (underlying x)) as [Hr Hdone].
  destruct (rows_close D (underlying x)) as [u r1]. simpl in *. subst r1.
  unfold checkStatus. simpl. rewrite Hdone, Hd. simpl. rewrite Hf. simpl. eauto.
Qed.

Lemma rows_uses_close_total {D} us1 us2 (x : DBPoolRowsWrapper D) :
  closes_done D → rw_done x = false →
  ∃ x', rows_uses f (us1 ++ UseClose :: us2) x w = Some (x', w1) ∧ rw_done x' = true.
Proof using Hf.
  intros HD Hd. rewrite rows_uses_app.
  destruct (rows_uses_total us1 x Hd) as (x1 & [[-> Hd1]|[-> Hd1]]); simpl.
  - destruct (rows_close_total x1 HD Hd1) as (x2 & E & Hd2).
    simpl in E. rewrite E. simpl. by apply rows_uses_done_total.
  - by apply (rows_uses_done_total (UseClose :: us2)).
Qed.

End Defined_at.
End RowsOnce.

(** X17: whatever the driver, the callback and the caller's use of the
    stream, the state the callback acts on after any number of [next()]
    and [close()] is either the initial one, with the latch open, or the
    result of one run of the callback on the initial state, with the
    latch set. *)
Theorem rows_callback_at_most_once {W : Type} (f : W → option (W * Res unit))
    {D : ILLDBRows} (us : list RowsUse) (rows : Rows D) (w : W)
    (x : DBPoolRowsWrapper D) (w' : W) :
  rows_uses f us (new_RowsWrapper rows) w = Some (x, w') →
  (rw_done x = false ∧ w' = w) ∨ (rw_done x = true ∧ ∃ r, f w = Some (w', r)).
Proof. by apply rows_uses_cases. Qed.

Lemma rows_callback_at_most_once_witness :
  let us := [UseNext; UseNext; UseNext; UseClose; UseNext; UseClose] in
  let x := mkRowsWrapper (D := held_rows) (mkWire [] true) true in
  rows_uses tally us (new_RowsWrapper (D := held_rows) (mkWire [["1"]] false)) 7 = Some (x, 8) ∧
  ((rw_done x = false ∧ 8 = 7) ∨ (rw_done x = true ∧ ∃ r, tally 7 = Some (8, r))).
Proof.
  assert (H : rows_uses tally [UseNext; UseNext; UseNext; UseClose; UseNext; UseClose]
                (new_RowsWrapper (D := held_rows) (mkWire [["1"]] false)) 7
              = Some (mkRowsWrapper (D := held_rows) (mkWire [] true) true, 8))
    by (vm_compute; reflexivity).
  split; [exact H|]. exact (rows_callback_at_most_once tally _ _ _ _ _ H).
Defined.

(** X18: [close()] of the stream of a query gives the connection back to
    the pool.  For a driver whose [close()] succeeds and leaves the stream
    done, a pool in a consistent state and the connection the query
    checked out: every use of the stream that contains a [close()] ends,
    and the pool is then as after one [__returnConnection] of that
    connection, which is no longer checked out. *)
Theorem rows_close_gives_back_to_pool {D : ILLDBRows} (c : Conn)
    (us1 us2 : list RowsUse) (rows : Rows D) (w : World) :
  closes_done D → WF w → held c w → (0 ≤ idle_target (pool w))%Z →
  ∃ x w', rows_uses (give_back c) (us1 ++ UseClose :: us2) (new_RowsWrapper rows) w
            = Some (x, w') ∧
          returnConnection c w = Some (w', Ret tt) ∧
          rw_done x = true ∧ WF w' ∧ ¬ held c w'.
Proof.
  intros HD Hwf Hh Ht.
  destruct (give_back_returns c w Hwf Hh Ht) as (w1 & Hret & Hwf1 & Hn).
  destruct (rows_uses_close_total (give_back c) w w1 (Ret tt) Hret us1 us2
              (new_RowsWrapper rows) HD eq_refl) as (x & E & Hd).
  by exists x, w1.
Qed.

Lemma rows_close_gives_back_to_pool_witness :
  let w := one_out_one_idle in
  closes_done wire_rows ∧ WF w ∧ held 10 w ∧ (0 ≤ idle_target (pool w))%Z ∧
  ∃ x w', rows_uses (give_back 10) ([UseNext] ++ UseClose :: [UseClose])
            (new_RowsWrapper (D := wire_rows) (mkWire [["1"]; ["2"]] false)) w
            = Some (x, w') ∧
          returnConnection 10 w = Some (w', Ret tt) ∧
          rw_done x = true ∧ WF w' ∧ ¬ held 10 w'.
Proof.
  assert (Ht : (0 ≤ idle_target (pool one_out_one_idle))%Z) by (by vm_compute).
  split_and!; [apply closes_done_wire|apply WF_one_out_one_idle|apply held_one_out_one_idle|exact Ht|].
  exact (rows_close_gives_back_to_pool (D := wire_rows) 10 [UseNext] [UseClose]
           (mkWire [["1"]; ["2"]] false) one_out_one_idle
           closes_done_wire WF_one_out_one_idle held_one_out_one_idle Ht).
Defined.

(** ** The transaction adapter and its connection *)

Section TxCalls.
Context {W : Type} (f : W → option (W * Res unit)).

Lemma tx_step_calls e x w x' w' r :
  tx_step f e x w = Some (x', w', r) →
  tx_conn x' = tx_conn x ∧
  ∃ l, tx_calls x' = tx_calls x ++ l ∧ Forall (on_conn (tx_conn x)) l ∧
       (returned x = true → l = [] ∧ w' = w).
Proof.
  assert (Hnil : ∀ x0 : DBPoolTxWrapper, tx_calls x0 = tx_calls x0 ++ [])
    by (intros; by rewrite app_nil_r).
  assert (Hret : ∀ x1 x2 w2 r2, returnToPool f x1 w = Some (x2, w2, r2) →
            tx_conn x2 = tx_conn x1 ∧ tx_calls x2 = tx_calls x1 ∧
            (returned x1 = true → w2 = w)).
  { intros x1 x2 w2 r2. unfold returnToPool. destruct (returned x1).
    - by intros [= <- <- <-].
    - destruct (f w) as [[w3 r3]|]; [|done]. simpl. by intros [= <- <- <-]. }
  unfold on_conn.
  destruct e as [|[[]|err]| |[[]|err]| |]; simpl; unfold tx_check.
  - destruct (returned x) eqn:Hr.
    + intros [= <- <- <-]. split; [done|]. exists []. by rewrite app_nil_r.
    + intros [= <- <- <-]. split; [done|]. exists [TCommit]. split_and!; [done| |done].
      apply Forall_singleton. auto.
  - destruct (commits_pending x); [done|].
    destruct (returnToPool _ _ _) as [[[x2 w2] r2]|] eqn:E; [|done]. simpl.
    intros [= <- <- <-]. destruct (Hret _ _ _ _ E) as (H1 & H2 & H3). simpl in *.
    split; [done|]. exists []. rewrite app_nil_r. split_and!; auto.
  - destruct (commits_pending x); [done|]. intros [= <- <- <-]. split; [done|].
    exists []. by rewrite app_nil_r.
  - destruct (returned x) eqn:Hr.
    + intros [= <- <- <-]. split; [done|]. exists []. by rewrite app_nil_r.
    + intros [= <- <- <-]. split; [done|]. exists [TRollback]. split_and!; [done| |done].
      apply Forall_singleton. auto.
  - destruct (rollbacks_pending x); [done|].
    destruct (returnToPool _ _ _) as [[[x2 w2] r2]|] eqn:E; [|done]. simpl.
    intros [= <- <- <-]. destruct (Hret _ _ _ _ E) as (H1 & H2 & H3). simpl in *.
    split; [done|]. exists []. rewrite app_nil_r. split_and!; auto.
  - destruct (rollbacks_pending x); [done|]. intros [= <- <- <-]. split; [done|].
    exists []. by rewrite app_nil_r.
  - destruct (returned x) eqn:Hr.
    + intros [= <- <- <-]. split; [done|]. exists []. by rewrite app_nil_r.
    + intros [= <- <- <-]. split; [done|]. exists [TExec (tx_conn x)].
      split_and!; [done| |done]. apply Forall_singleton. auto.
  - destruct (returned x) eqn:Hr.
    + intros [= <- <- <-]. split; [done|]. exists []. by rewrite app_nil_r.
    + intros [= <- <- <-]. split; [done|]. exists [TQuery (tx_conn x)].
      split_and!; [done| |done]. apply Forall_singleton. auto.
Qed.

Lemma tx_run_calls es x w x' w' :
  tx_run f es x w = Some (x', w') →
  tx_conn x' = tx_conn x ∧
  ∃ l, tx_calls x' = tx_calls x ++ l ∧ Forall (on_conn (tx_conn x)) l ∧
       (returned x = true → l = [] ∧ w' = w).
Proof.
  revert x w. induction es as [|e es IH]; intros x w; simpl.
  - intros [= <- <-]. split; [done|]. exists []. by rewrite app_nil_r.
  - destruct (tx_step f e x w) as [[[x1 w1] r]|] eqn:E; [|done]. simpl. intros H.
    destruct (tx_step_calls _ _ _ _ _ _ E) as (Hc1 & l1 & Hl1 & Hf1 & Hr1).
    destruct (IH _ _ H) as (Hc2 & l2 & Hl2 & Hf2 & Hr2).
    split; [congruence|]. exists (l1 ++ l2). split_and!.
    + by rewrite Hl2, Hl1, app_assoc.
    + apply Forall_app. split; [done|]. by rewrite <- Hc1.
    + intros Hr. destruct (Hr1 Hr) as [-> ->].
      destruct (tx_step_returned f _ _ _ _ _ _ Hr E) as [_ Hr'].
      by destruct (Hr2 Hr') as [-> ->].
Qed.

End TxCalls.

(** X16: a transaction stays on its connection.  Whatever the callback
    and the sequence of calls and driver answers on a fresh handle for
    [c]: the handle's connection is still [c], every call it has made to
    the driver is a commit, a rollback, or an exec or query on [c], and
    once the handle has been returned no further event makes a driver
    call or runs the callback. *)
Theorem tx_stays_on_its_connection {W : Type} (f : W → option (W * Res unit))
    (c : Conn) (es : list TxEvent) (x : DBPoolTxWrapper) (w w' : W) :
  tx_run f es (new_TxWrapper c) w = Some (x, w') →
  tx_conn x = c ∧
  Forall (on_conn c) (tx_calls x) ∧
  (returned x = true →
   ∀ es2 x2 w2, tx_run f es2 x w' = Some (x2, w2) →
     tx_calls x2 = tx_calls x ∧ w2 = w' ∧ returned x2 = true).
Proof.
  intros H. destruct (tx_run_calls f _ _ _ _ _ H) as (Hc & l & Hl & Hf & _).
  simpl in *. subst l. split_and!; [done|done|].
  intros Hr es2 x2 w2 H2.
  destruct (tx_run_calls f _ _ _ _ _ H2) as (_ & l2 & Hl2 & _ & Hr2).
  destruct (Hr2 Hr) as [-> ->]. rewrite app_nil_r in Hl2.
  by destruct (tx_run_returned f _ _ _ _ _ Hr H2).
Qed.

Lemma tx_stays_on_its_connection_witness :
  let es := [TxExec; TxCommit; TxRollback; TxCommitSettled (Ret tt)] in
  let x := mkTxWrapper 10 true 0 1 [TExec 10; TCommit; TRollback] in
  tx_run tally es (new_TxWrapper 10) 0 = Some (x, 1) ∧
  tx_conn x = 10%N ∧
  Forall (on_conn 10) (tx_calls x) ∧
  (returned x = true →
   ∀ es2 x2 w2, tx_run tally es2 x 1 = Some (x2, w2) →
     tx_calls x2 = tx_calls x ∧ w2 = 1 ∧ returned x2 = true).
Proof.
  assert (H : tx_run tally [TxExec; TxCommit; TxRollback; TxCommitSettled (Ret tt)]
                (new_TxWrapper 10) 0
              = Some (mkTxWrapper 10 true 0 1 [TExec 10; TCommit; TRollback], 1))
    by (vm_compute; reflexivity).
  split; [exact H|]. exact (tx_stays_on_its_connection tally 10 _ _ 0 1 H).
Defined.
